(** * ProDevTools: the mind-map page, its tree operations, radial layout
      and persisted JSON record.

    The development embeds the logic of the mind-map page (the React
    component [MindMapPage]) and the storage initialisers of the mind-map and
    tasks pages.  Handlers that close over React state are functions on an
    explicit page state; the values the handlers read from the platform
    ([Date.now()], the index drawn through [Math.random()], the canvas size)
    are explicit arguments.  JavaScript numbers are kept behind an interface
    so that the code is modelled once and read over any arithmetic.  Trees
    are values; the one function that assigns fields of shared node objects,
    the layout, is also given on an object store and related to its reading
    on trees.  [JSON.stringify] and [JSON.parse] are modelled on text.

    The handlers of the tasks page ([addTask], [toggleTaskCompletion],
    [deleteTask]), the link that [exportMindMap] builds and the zoom and
    panning handlers of the canvas are embedded as well. *)

From Stdlib Require Import List String Ascii ZArith NArith Lia Bool Arith.
From Stdlib Require Import DecimalString QArith Reals Lra.
Import ListNotations.
Open Scope string_scope.
Open Scope list_scope.
Set Warnings "-register-all".

(* ================================================================= *)
(** * Part I: definitions *)
(* ================================================================= *)

(** ** JavaScript numbers *)

(** The arithmetic the page performs on numbers.  [ofQ] reads a numeric
    literal or an integer quantity (an array index, a length); [isFalsy n]
    is the negation of [ToBoolean n], the test behind [n || 0]. *)
Class JsNumber (num : Type) := {
  ofQ : Q -> num;
  add : num -> num -> num;
  mul : num -> num -> num;
  div : num -> num -> num;
  Math_cos : num -> num;
  Math_sin : num -> num;
  Math_PI : num;
  isFalsy : num -> bool
}.

(** The textual side of numbers: [Number_toString] is [Number::toString]
    (radix 10), [StringToNumber] reads back a numeric literal. *)
Class JsNumberText (num : Type) := {
  Number_toString : num -> string;
  StringToNumber : string -> num
}.

Definition ofNat {num} `{JsNumber num} (n : nat) : num :=
  ofQ (inject_Z (Z.of_nat n)).

(** [v || 0] for an optional numeric field: [undefined] and falsy numbers
    give [0]. *)
Definition orZero {num} `{JsNumber num} (v : option num) : num :=
  match v with
  | Some n => if isFalsy n then ofQ 0 else n
  | None => ofQ 0
  end.

(** Template-literal conversion of an integer-valued number. *)
Definition Z_toString (z : Z) : string := NilZero.string_of_int (Z.to_int z).

(** [Array.prototype.map] with the index passed to the callback
    (as [forEach((child, index) => ...)] uses it). *)
Definition mapi_from {A B : Type} (f : nat -> A -> B) : nat -> list A -> list B :=
  fix go (i : nat) (l : list A) : list B :=
    match l with
    | [] => []
    | a :: l' => f i a :: go (S i) l'
    end.

Definition mapi {A B : Type} (f : nat -> A -> B) (l : list A) : list B :=
  mapi_from f 0 l.

(** ** The node tree *)

Section Tree.
Context {num : Type}.

(** [interface MindMapNode]: the optional fields are options. *)
Inductive MindMapNode : Type := mkNode {
  id : string;
  content : string;
  children : list MindMapNode;
  x : option num;
  y : option num;
  color : option string
}.

(** Object spreads [{ ...node, field: v }]. *)
Definition withChildren (node : MindMapNode) (cs : list MindMapNode) : MindMapNode :=
  mkNode (id node) (content node) cs (x node) (y node) (color node).

Definition withContent (node : MindMapNode) (c : string) : MindMapNode :=
  mkNode (id node) c (children node) (x node) (y node) (color node).

Definition withXY (node : MindMapNode) (nx ny : num) : MindMapNode :=
  mkNode (id node) (content node) (children node) (Some nx) (Some ny) (color node).

(** Observations on trees used to state properties. *)
Fixpoint countNodes (node : MindMapNode) : nat :=
  S (list_sum (map countNodes (children node))).

(** Identifiers of all nodes reachable from [node], in pre-order. *)
Fixpoint ids (node : MindMapNode) : list string :=
  id node :: flat_map ids (children node).

(** The node reached from [node] by following child indices [path]. *)
Fixpoint subtreeAt (path : list nat) (node : MindMapNode) : option MindMapNode :=
  match path with
  | [] => Some node
  | i :: path' =>
      match nth_error (children node) i with
      | Some child => subtreeAt path' child
      | None => None
      end
  end.

(** The tree with every position forgotten: its shape, identifiers,
    contents and colours. *)
Fixpoint erasePositions (node : MindMapNode) : MindMapNode :=
  mkNode (id node) (content node) (map erasePositions (children node))
         None None (color node).

(** The tree with every content blanked. *)
Fixpoint eraseContents (node : MindMapNode) : MindMapNode :=
  mkNode (id node) "" (map eraseContents (children node))
         (x node) (y node) (color node).

(** *** addChildToNode (inner function of [addChildNode]) *)
Fixpoint addChildToNode (parentId : string) (newNode node : MindMapNode)
  : MindMapNode :=
  if id node =? parentId then
    withChildren node (children node ++ [newNode])
  else
    withChildren node (map (addChildToNode parentId newNode) (children node)).

(** *** removeNodeFromTree (inner function of [deleteNode])

    [children.filter(child => child.id !== nodeId).map(removeNodeFromTree)];
    the filter and the map are fused in one local loop so that the recursion
    is structural, and [removeNodeFromTree_eq] below restores the source's
    shape. *)
Fixpoint removeNodeFromTree (nodeId : string) (node : MindMapNode) : MindMapNode :=
  withChildren node
    ((fix survivors (cs : list MindMapNode) : list MindMapNode :=
        match cs with
        | [] => []
        | child :: rest =>
            if negb (id child =? nodeId)
            then removeNodeFromTree nodeId child :: survivors rest
            else survivors rest
        end) (children node)).

(** *** updateNodeContent (inner function of [saveNodeEdit]) *)
Fixpoint updateNodeContent (editingNodeId editNodeContent : string)
                           (node : MindMapNode) : MindMapNode :=
  if id node =? editingNodeId then
    withContent node editNodeContent
  else
    withChildren node
      (map (updateNodeContent editingNodeId editNodeContent) (children node)).

End Tree.

Arguments MindMapNode num : clear implicits.

(** ** Radial layout *)

Section Layout.
Context {num : Type} `{JsNumber num}.

(** One child of [forEach]'s loop body, after [child.x] and [child.y] have
    been assigned [cx] and [cy]: the recursive call
    [layoutChildren(child, childAngle, distance * 0.8)] on that child.
    Recursion is on the child's own subtree; [layoutChildren_eq] below
    states the equation in the source's shape. *)
Fixpoint placeChild (child : MindMapNode num) (cx cy : num)
                    (angle distance : num) : MindMapNode num :=
  mkNode (id child) (content child)
    (let nodeX := orZero (Some cx) in
     let nodeY := orZero (Some cy) in
     let angleStep := div (mul Math_PI (ofQ 2)) (ofNat (List.length (children child))) in
     mapi (fun index grandchild =>
             let childAngle := add angle (mul (ofNat index) angleStep) in
             placeChild grandchild
               (add nodeX (mul (Math_cos childAngle) distance))
               (add nodeY (mul (Math_sin childAngle) distance))
               childAngle (mul distance (ofQ (8 # 10))))
          (children child))
    (Some cx) (Some cy) (color child).

(** [layoutChildren(node, angle, distance)] on the tree below [node]: the
    in-place update, returned as the updated node.  The run on the node
    objects themselves is [layoutChildrenOn] below. *)
Definition layoutChildren (node : MindMapNode num) (angle distance : num)
  : MindMapNode num :=
  match children node with
  | [] => node
  | _ =>
      let nodeX := orZero (x node) in
      let nodeY := orZero (y node) in
      let angleStep := div (mul Math_PI (ofQ 2)) (ofNat (List.length (children node))) in
      withChildren node
        (mapi (fun index child =>
                 let childAngle := add angle (mul (ofNat index) angleStep) in
                 placeChild child
                   (add nodeX (mul (Math_cos childAngle) distance))
                   (add nodeY (mul (Math_sin childAngle) distance))
                   childAngle (mul distance (ofQ (8 # 10))))
              (children node))
  end.

(** The tree [layoutMindMap] hands to [setRootNode] when the canvas has
    size [clientWidth] x [clientHeight]. *)
Definition layoutTree (clientWidth clientHeight : num) (rootNode : MindMapNode num)
  : MindMapNode num :=
  let centerX := div clientWidth (ofQ 2) in
  let centerY := div clientHeight (ofQ 2) in
  let updatedRoot := withXY rootNode centerX centerY in
  layoutChildren updatedRoot (ofQ 0) (ofQ 200).

(** What the layout is said to compute: the node sits at [(px, py)], and
    its [k] children sit at angles [angle + index * (2 pi / k)], at
    [distance] from it, each laid out in turn with its own angle and the
    decayed distance. *)
Inductive RadialAt : MindMapNode num -> num -> num -> num -> num -> Prop :=
| RadialAt_node node px py angle distance :
    (forall index child,
        nth_error (children node) index = Some child ->
        let childAngle :=
          add angle (mul (ofNat index)
                         (div (mul Math_PI (ofQ 2)) (ofNat (List.length (children node))))) in
        let cx := add px (mul (Math_cos childAngle) distance) in
        let cy := add py (mul (Math_sin childAngle) distance) in
        x child = Some cx /\ y child = Some cy /\
        RadialAt child cx cy childAngle (mul distance (ofQ (8 # 10)))) ->
    RadialAt node px py angle distance.

End Layout.

(** ** The layout on the object store

    [layoutChildren] assigns [child.x] and [child.y] on the node objects
    themselves, objects that the tree before the layout and the tree after
    it share.  A store maps locations to node objects whose [children] hold
    locations; [layoutChildrenOn] is the function as the source runs it, and
    [layoutChildrenOn_refines] below shows that on a store holding a tree
    it computes [layoutChildren] of that tree. *)

Section Store.
Context {num : Type} `{JsNumber num}.

Record NodeObject := mkObject {
  o_id : string;
  o_content : string;
  o_children : list nat;
  o_x : option num;
  o_y : option num;
  o_color : option string
}.

Definition Store := nat -> option NodeObject.

(** [child.x = nx; child.y = ny] on the object at [l]; [None] when no
    object is there. *)
Definition assignXY (h : Store) (l : nat) (nx ny : num) : option Store :=
  match h l with
  | Some o =>
      Some (fun l' =>
              if (l' =? l)%nat
              then Some (mkObject (o_id o) (o_content o) (o_children o)
                                  (Some nx) (Some ny) (o_color o))
              else h l')
  | None => None
  end.

(** The body of [node.children.forEach((child, index) => ...)], with
    [recur] the recursive call. *)
Definition forEachChild (recur : Store -> nat -> num -> num -> option Store)
                        (nodeX nodeY angleStep angle distance : num)
  : list nat -> nat -> Store -> option Store :=
  fix loop (rest : list nat) (index : nat) (h : Store) : option Store :=
    match rest with
    | [] => Some h
    | child :: rest' =>
        let childAngle := add angle (mul (ofNat index) angleStep) in
        match assignXY h child
                (add nodeX (mul (Math_cos childAngle) distance))
                (add nodeY (mul (Math_sin childAngle) distance)) with
        | Some h1 =>
            match recur h1 child childAngle (mul distance (ofQ (8 # 10))) with
            | Some h2 => loop rest' (S index) h2
            | None => None
            end
        | None => None
        end
    end.

(** [layoutChildren(node, angle, distance)] on the store; [None] when the
    fuel runs out or a location holds no object. *)
Fixpoint layoutChildrenOn (fuel : nat) (h : Store) (node : nat)
                          (angle distance : num) : option Store :=
  match fuel with
  | O => None
  | S fuel' =>
      match h node with
      | None => None
      | Some o =>
          match o_children o with
          | [] => Some h
          | kids =>
              let nodeX := orZero (o_x o) in
              let nodeY := orZero (o_y o) in
              let angleStep :=
                div (mul Math_PI (ofQ 2)) (ofNat (List.length kids)) in
              forEachChild (layoutChildrenOn fuel') nodeX nodeY angleStep
                           angle distance kids 0%nat h
          end
      end
  end.

(** [layoutMindMap] on the store: [updatedRoot] is a new object at
    [fresh], a copy of the root with the centre as its position and the
    same children; the result is the store and the new root. *)
Definition layoutMindMapOn (fuel : nat) (h : Store) (root fresh : nat)
                           (clientWidth clientHeight : num)
  : option (Store * nat) :=
  match h root with
  | None => None
  | Some o =>
      let centerX := div clientWidth (ofQ 2) in
      let centerY := div clientHeight (ofQ 2) in
      let h0 : Store := fun l =>
        if (l =? fresh)%nat
        then Some (mkObject (o_id o) (o_content o) (o_children o)
                            (Some centerX) (Some centerY) (o_color o))
        else h l in
      match layoutChildrenOn fuel h0 fresh (ofQ 0) (ofQ 200) with
      | Some h' => Some (h', fresh)
      | None => None
      end
  end.

(** Where the nodes of a tree live: a location for the node, and the same
    for each child. *)
Inductive LocTree : Type :=
| LNode (loc : nat) (kids : list LocTree).

Definition rootLoc (lt : LocTree) : nat :=
  match lt with LNode l _ => l end.

Definition kidsOf (lt : LocTree) : list LocTree :=
  match lt with LNode _ kids => kids end.

Fixpoint locations (lt : LocTree) : list nat :=
  match lt with LNode l kids => l :: flat_map locations kids end.

Fixpoint height (lt : LocTree) : nat :=
  match lt with LNode _ kids => S (list_max (map height kids)) end.

(** The store holds tree [t] at the locations [lt]. *)
Inductive holds (h : Store) : LocTree -> MindMapNode num -> Prop :=
| holds_node l kids t :
    h l = Some (mkObject (id t) (content t) (map rootLoc kids)
                         (x t) (y t) (color t)) ->
    Forall2 (holds h) kids (children t) ->
    holds h (LNode l kids) t.

(** Two stores with the same objects up to their positions. *)
Definition sameButPositions (h h' : Store) : Prop :=
  forall l,
    match h l, h' l with
    | Some o, Some o' =>
        o_id o' = o_id o /\ o_content o' = o_content o /\
        o_children o' = o_children o /\ o_color o' = o_color o
    | None, None => True
    | _, _ => False
    end.

(** What a run on the store at [lt] achieves. *)
Definition layoutRunsAt (fuel : nat) (lt : LocTree) : Prop :=
  forall (t : MindMapNode num) (h : Store) angle distance,
    holds h lt t -> NoDup (locations lt) -> (height lt <= fuel)%nat ->
    exists h',
      layoutChildrenOn fuel h (rootLoc lt) angle distance = Some h' /\
      holds h' lt (layoutChildren t angle distance) /\
      (forall l, ~ In l (flat_map locations (kidsOf lt)) -> h' l = h l).

End Store.

Arguments NodeObject num : clear implicits.
Arguments Store num : clear implicits.

(** ** Page state and handlers *)

Record Toast := mkToast {
  title : string;
  description : string;
  variant : option string
}.

Section Page.
Context {num : Type} `{JsNumber num}.

(** The component's [useState] cells, and the toasts raised so far. *)
Record PageState := mkState {
  rootNode : MindMapNode num;
  editingNodeId : option string;
  editNodeContent : string;
  zoom : num;
  offset : num * num;
  toasts : list Toast
}.

Definition nodeColors : list string :=
  ["#9b87f5"; "#FFDEE2"; "#E5DEFF"; "#D3E4FD"; "#F2FCE2"; "#FEF7CD"].

(** The default tree of the initialiser and of [resetMindMap]. *)
Definition defaultRoot : MindMapNode num :=
  mkNode "root" "Central Idea" [] (Some (ofQ 0)) (Some (ofQ 0)) (Some "#9b87f5").

Definition initialState (root : MindMapNode num) : PageState :=
  mkState root None "" (ofQ 1) (ofQ 0, ofQ 0) [].

Definition setRootNode (s : PageState) (r : MindMapNode num) : PageState :=
  mkState r (editingNodeId s) (editNodeContent s) (zoom s) (offset s) (toasts s).

Definition toast (s : PageState) (t : Toast) : PageState :=
  mkState (rootNode s) (editingNodeId s) (editNodeContent s) (zoom s) (offset s)
          (toasts s ++ [t]).

(** The node [addChildNode] builds; [now] is [Date.now()] and [pick] is
    [Math.floor(Math.random() * nodeColors.length)]. *)
Definition newNode (now : Z) (pick : nat) : MindMapNode num :=
  mkNode ("node-" ++ Z_toString now)%string "New Idea" [] None None
         (nth_error nodeColors pick).

Definition addChildNode (now : Z) (pick : nat) (parentId : string)
                        (s : PageState) : PageState :=
  let newNodeId := ("node-" ++ Z_toString now)%string in
  let updatedRoot := addChildToNode parentId (newNode now pick) (rootNode s) in
  toast
    (mkState updatedRoot (Some newNodeId) "New Idea" (zoom s) (offset s) (toasts s))
    (mkToast "Node Added" "New node has been added to the mind map." None).

Definition deleteNode (nodeId : string) (s : PageState) : PageState :=
  if nodeId =? "root" then
    toast s (mkToast "Cannot Delete Root" "The central idea cannot be deleted."
                     (Some "destructive"))
  else
    let updatedRoot := removeNodeFromTree nodeId (rootNode s) in
    toast (setRootNode s updatedRoot)
          (mkToast "Node Deleted" "Node has been removed from the mind map." None).

Definition editNode (node : MindMapNode num) (s : PageState) : PageState :=
  mkState (rootNode s) (Some (id node)) (content node) (zoom s) (offset s) (toasts s).

(** The input's [onChange]. *)
Definition setEditNodeContent (v : string) (s : PageState) : PageState :=
  mkState (rootNode s) (editingNodeId s) v (zoom s) (offset s) (toasts s).

(** [!editingNodeId] holds for [null] and for the empty string. *)
Definition saveNodeEdit (s : PageState) : PageState :=
  match editingNodeId s with
  | None => s
  | Some "" => s
  | Some eid =>
      let updatedRoot := updateNodeContent eid (editNodeContent s) (rootNode s) in
      toast
        (mkState updatedRoot None "" (zoom s) (offset s) (toasts s))
        (mkToast "Node Updated" "Node content has been updated." None)
  end.

Definition resetMindMap (s : PageState) : PageState :=
  toast
    (mkState defaultRoot (editingNodeId s) (editNodeContent s)
             (ofQ 1) (ofQ 0, ofQ 0) (toasts s))
    (mkToast "Mind Map Reset" "Mind map has been reset to default." None).

(** [canvas] is [canvasRef.current]: [None] when the ref is not attached,
    otherwise the element's [clientWidth] and [clientHeight]. *)
Definition layoutMindMap (canvas : option (num * num)) (s : PageState) : PageState :=
  match canvas with
  | None => s
  | Some (clientWidth, clientHeight) =>
      setRootNode s (layoutTree clientWidth clientHeight (rootNode s))
  end.

(** The events that reach the tree. *)
Inductive Action :=
| AddChild (now : Z) (pick : nat) (parentId : string)
| Delete (nodeId : string)
| Edit (node : MindMapNode num)
| Type_ (v : string)
| SaveEdit
| Layout (canvas : option (num * num))
| Reset.

Definition step (a : Action) (s : PageState) : PageState :=
  match a with
  | AddChild now pick parentId => addChildNode now pick parentId s
  | Delete nodeId => deleteNode nodeId s
  | Edit node => editNode node s
  | Type_ v => setEditNodeContent v s
  | SaveEdit => saveNodeEdit s
  | Layout canvas => layoutMindMap canvas s
  | Reset => resetMindMap s
  end.

(** The root invariant: the root carries the identifier ["root"], and it
    is the only node that does. *)
Definition rootInvariant (s : PageState) : Prop :=
  id (rootNode s) = "root" /\
  count_occ string_dec (ids (rootNode s)) "root" = 1%nat.

End Page.

Arguments PageState num : clear implicits.
Arguments Action num : clear implicits.

(** ** JSON text *)

Definition dquote : ascii := "034"%char.
Definition backslash : ascii := "092"%char.
Definition newline : ascii := "010"%char.

Definition isWhitespace (c : ascii) : bool :=
  (c =? " ")%char || (c =? "009")%char || (c =? "010")%char || (c =? "013")%char.

Definition isDigit (c : ascii) : bool :=
  let n := N_of_ascii c in (48 <=? n)%N && (n <=? 57)%N.

Fixpoint skipWhitespace (s : string) : string :=
  match s with
  | String c r => if isWhitespace c then skipWhitespace r else s
  | EmptyString => s
  end.

Fixpoint allWhitespace (s : string) : bool :=
  match s with
  | String c r => isWhitespace c && allWhitespace r
  | EmptyString => true
  end.

(** The text after a number does not continue it. *)
Definition endsNumber (rest : string) : bool :=
  match rest with
  | String c _ => negb (isDigit c || (c =? ".") || (c =? "e") || (c =? "E"))%char
  | EmptyString => true
  end.

(** The characters a printed value can start with. *)
Definition isValueStart (c : ascii) : bool :=
  isDigit c
  || ((c =? "-") || (c =? "{") || (c =? "[") || (c =? dquote)
      || (c =? "n") || (c =? "t") || (c =? "f"))%char.

(** The longest run of digits at the head of [s], and what follows it. *)
Fixpoint spanDigits (s : string) : string * string :=
  match s with
  | String c r =>
      if isDigit c then let (ds, rest) := spanDigits r in (String c ds, rest)
      else (EmptyString, s)
  | EmptyString => (EmptyString, EmptyString)
  end.

(** The JSON number at the head of [s]: an optional minus sign; an integer
    part, either a single zero or a non-zero digit followed by digits; an
    optional fraction, a dot and at least one digit; an optional exponent,
    [e] or [E], an optional sign and at least one digit. *)
Definition scanFraction (s : string) : option (string * string) :=
  match s with
  | String "." r =>
      match spanDigits r with
      | (EmptyString, _) => None
      | (ds, rest) => Some (String "." ds, rest)
      end
  | _ => Some (EmptyString, s)
  end.

Definition scanExponentDigits (mark : string) (s : string) : option (string * string) :=
  match spanDigits s with
  | (EmptyString, _) => None
  | (ds, rest) => Some (mark ++ ds, rest)%string
  end.

Definition scanExponent (s : string) : option (string * string) :=
  match s with
  | String c r =>
      if ((c =? "e") || (c =? "E"))%char then
        match r with
        | String sg r' =>
            if ((sg =? "+") || (sg =? "-"))%char
            then scanExponentDigits (String c (String sg EmptyString)) r'
            else scanExponentDigits (String c EmptyString) r
        | EmptyString => None
        end
      else Some (EmptyString, s)
  | EmptyString => Some (EmptyString, s)
  end.

Definition scanInteger (s : string) : option (string * string) :=
  match s with
  | String c r =>
      if (c =? "0")%char then Some (String c EmptyString, r)
      else if isDigit c then let (ds, rest) := spanDigits r in Some (String c ds, rest)
      else None
  | EmptyString => None
  end.

Definition scanUnsigned (s : string) : option (string * string) :=
  match scanInteger s with
  | Some (int, s1) =>
      match scanFraction s1 with
      | Some (frac, s2) =>
          match scanExponent s2 with
          | Some (exp, s3) => Some (int ++ frac ++ exp, s3)%string
          | None => None
          end
      | None => None
      end
  | None => None
  end.

Definition scanNumber (s : string) : option (string * string) :=
  match s with
  | String "-" r =>
      match scanUnsigned r with
      | Some (lit, rest) => Some (String "-" lit, rest)
      | None => None
      end
  | _ => scanUnsigned s
  end.

Definition isJsonNumber (t : string) : bool :=
  match scanNumber t with
  | Some (_, EmptyString) => true
  | _ => false
  end.


(** ** Strings in JSON text *)

Definition hexDigit (n : N) : ascii :=
  ascii_of_N (if (n <? 10)%N then 48 + n else 87 + n).

Definition hexValue (c : ascii) : option N :=
  let n := N_of_ascii c in
  if ((48 <=? n) && (n <=? 57))%N then Some (n - 48)%N
  else if ((97 <=? n) && (n <=? 102))%N then Some (n - 87)%N
  else if ((65 <=? n) && (n <=? 70))%N then Some (n - 55)%N
  else None.

Definition hex4 (h1 h2 h3 h4 : ascii) : option N :=
  match hexValue h1, hexValue h2, hexValue h3, hexValue h4 with
  | Some a, Some b, Some c, Some d => Some (((a * 16 + b) * 16 + c) * 16 + d)%N
  | _, _, _, _ => None
  end.

(** [QuoteJSONString] on one character: the two-character escapes, the
    [\u00XX] escape of the other control characters, the character itself
    otherwise. *)
Definition escapeChar (c : ascii) : string :=
  let n := N_of_ascii c in
  if (c =? dquote)%char then String backslash (String dquote EmptyString)
  else if (c =? backslash)%char then String backslash (String backslash EmptyString)
  else if (n =? 8)%N then String backslash "b"
  else if (n =? 9)%N then String backslash "t"
  else if (n =? 10)%N then String backslash "n"
  else if (n =? 12)%N then String backslash "f"
  else if (n =? 13)%N then String backslash "r"
  else if (n <? 32)%N then
    String backslash
      (String "u" (String "0" (String "0"
         (String (hexDigit (n / 16)) (String (hexDigit (n mod 16)) EmptyString)))))
  else String c EmptyString.

Fixpoint escapeString (s : string) : string :=
  match s with
  | String c r => (escapeChar c ++ escapeString r)%string
  | EmptyString => EmptyString
  end.

Definition quote (s : string) : string :=
  String dquote (escapeString s ++ String dquote EmptyString)%string.

(** The character a two-character escape stands for. *)
Definition simpleEscape (e : ascii) : option ascii :=
  if (e =? dquote)%char then Some dquote
  else if (e =? backslash)%char then Some backslash
  else if (e =? "/")%char then Some "/"%char
  else if (e =? "b")%char then Some "008"%char
  else if (e =? "f")%char then Some "012"%char
  else if (e =? "n")%char then Some "010"%char
  else if (e =? "r")%char then Some "013"%char
  else if (e =? "t")%char then Some "009"%char
  else None.

(** UTF-8 bytes of a code point (a lone surrogate is encoded like any
    other three-byte code point). *)
Definition utf8 (n : N) : string :=
  if (n <? 128)%N then String (ascii_of_N n) EmptyString
  else if (n <? 2048)%N then
    String (ascii_of_N (192 + n / 64))
      (String (ascii_of_N (128 + n mod 64)) EmptyString)
  else if (n <? 65536)%N then
    String (ascii_of_N (224 + n / 4096))
      (String (ascii_of_N (128 + (n / 64) mod 64))
         (String (ascii_of_N (128 + n mod 64)) EmptyString))
  else
    String (ascii_of_N (240 + n / 262144))
      (String (ascii_of_N (128 + (n / 4096) mod 64))
         (String (ascii_of_N (128 + (n / 64) mod 64))
            (String (ascii_of_N (128 + n mod 64)) EmptyString))).

Definition isHighSurrogate (n : N) : bool := ((55296 <=? n) && (n <=? 56319))%N.
Definition isLowSurrogate (n : N) : bool := ((56320 <=? n) && (n <=? 57343))%N.

Definition consResult (p : string) (r : option (string * string))
  : option (string * string) :=
  match r with
  | Some (str, rest) => Some ((p ++ str)%string, rest)
  | None => None
  end.

(** The characters of a string literal after its opening quote, up to the
    closing quote; [None] on an unterminated literal, a raw control
    character or a bad escape. *)
Fixpoint parseStringBody (s : string) : option (string * string) :=
  match s with
  | EmptyString => None
  | String c r =>
      if (c =? dquote)%char then Some (EmptyString, r)
      else if (c =? backslash)%char then
        match r with
        | String e r1 =>
            match simpleEscape e with
            | Some ch => consResult (String ch EmptyString) (parseStringBody r1)
            | None =>
                if (e =? "u")%char then
                  match r1 with
                  | String h1 (String h2 (String h3 (String h4 r2))) =>
                      match hex4 h1 h2 h3 h4 with
                      | Some hi =>
                          if isHighSurrogate hi then
                            match r2 with
                            | String b (String u (String l1 (String l2
                                (String l3 (String l4 r3))))) =>
                                match hex4 l1 l2 l3 l4 with
                                | Some lo =>
                                    if ((b =? backslash) && (u =? "u"))%char
                                       && isLowSurrogate lo
                                    then consResult
                                           (utf8 (65536 + (hi - 55296) * 1024
                                                  + (lo - 56320)))
                                           (parseStringBody r3)
                                    else consResult (utf8 hi) (parseStringBody r2)
                                | None => consResult (utf8 hi) (parseStringBody r2)
                                end
                            | _ => consResult (utf8 hi) (parseStringBody r2)
                            end
                          else consResult (utf8 hi) (parseStringBody r2)
                      | None => None
                      end
                  | _ => None
                  end
                else None
            end
        | EmptyString => None
        end
      else if (N_of_ascii c <? 32)%N then None
      else consResult (String c EmptyString) (parseStringBody r)
  end.


(** How a call ends: with a value, or by throwing. *)
Inductive Outcome (A : Type) : Type :=
| Returned (a : A)
| Thrown (error : string).
Arguments Returned {A} a.
Arguments Thrown {A} error.

(** ** JavaScript values that JSON text denotes *)

Section Json.
Context {num : Type} `{JsNumber num} `{JsNumberText num}.

(** An object is its list of own properties in enumeration order. *)
Inductive JsValue : Type :=
| JNull
| JBool (b : bool)
| JNumber (n : num)
| JString (s : string)
| JArray (elements : list JsValue)
| JObject (properties : list (string * JsValue)).

Fixpoint getProp (key : string) (props : list (string * JsValue)) : option JsValue :=
  match props with
  | [] => None
  | (k, v) :: rest => if k =? key then Some v else getProp key rest
  end.

(** *** Property order

    Own properties enumerate array indices first, in ascending order, then
    the other keys in the order of their creation. *)

Fixpoint decimalValue (acc : N) (s : string) : N :=
  match s with
  | String c r => decimalValue (acc * 10 + (N_of_ascii c - 48))%N r
  | EmptyString => acc
  end.

Fixpoint allDigits (s : string) : bool :=
  match s with
  | String c r => isDigit c && allDigits r
  | EmptyString => true
  end.

(** A canonical numeric string below 2^32 - 1. *)
Definition arrayIndex (key : string) : option N :=
  match key with
  | EmptyString => None
  | String c r =>
      if allDigits key && (negb (c =? "0")%char || (r =? EmptyString))
         && (String.length key <=? 10)%nat
         && (decimalValue 0 key <? 4294967295)%N
      then Some (decimalValue 0 key)
      else None
  end.

Fixpoint replaceProp (key : string) (v : JsValue) (props : list (string * JsValue))
  : list (string * JsValue) :=
  match props with
  | [] => []
  | (k, w) :: rest =>
      if k =? key then (k, v) :: rest else (k, w) :: replaceProp key v rest
  end.

(** Where a new array-index key goes: before the first key that is not an
    array index or is a larger one. *)
Fixpoint insertIndexProp (i : N) (key : string) (v : JsValue)
                         (props : list (string * JsValue))
  : list (string * JsValue) :=
  match props with
  | [] => [(key, v)]
  | (k, w) :: rest =>
      match arrayIndex k with
      | Some j => if (j <? i)%N then (k, w) :: insertIndexProp i key v rest
                  else (key, v) :: props
      | None => (key, v) :: props
      end
  end.

(** [CreateDataProperty]: an existing key keeps its place and takes the
    new value, a new key is added at its place in the enumeration order. *)
Definition setProperty (key : string) (v : JsValue) (props : list (string * JsValue))
  : list (string * JsValue) :=
  match getProp key props with
  | Some _ => replaceProp key v props
  | None =>
      match arrayIndex key with
      | Some i => insertIndexProp i key v props
      | None => props ++ [(key, v)]
      end
  end.

(** *** JSON.stringify *)

Definition printNumber (n : num) : string :=
  let t := Number_toString n in
  if isJsonNumber t then t else "null".

Fixpoint join (sep : string) (items : list string) : string :=
  match items with
  | [] => EmptyString
  | [item] => item
  | item :: rest => (item ++ sep ++ join sep rest)%string
  end.

(** The line break and indentation before an item; nothing when there is
    no gap. *)
Definition lineBreak (gap indent : string) : string :=
  if gap =? EmptyString then EmptyString else String newline indent.

Definition colon (gap : string) : string :=
  if gap =? EmptyString then ":" else ": ".

(** [SerializeJSONProperty] with the current indentation. *)
Fixpoint printValue (gap indent : string) (v : JsValue) : string :=
  match v with
  | JNull => "null"
  | JBool true => "true"
  | JBool false => "false"
  | JNumber n => printNumber n
  | JString s => quote s
  | JArray [] => "[]"
  | JArray elements =>
      let stepback := indent in
      let indent := (indent ++ gap)%string in
      ("[" ++ lineBreak gap indent
           ++ join ("," ++ lineBreak gap indent)
                   (map (printValue gap indent) elements)
           ++ lineBreak gap stepback ++ "]")%string
  | JObject [] => "{}"
  | JObject properties =>
      let stepback := indent in
      let indent := (indent ++ gap)%string in
      ("{" ++ lineBreak gap indent
           ++ join ("," ++ lineBreak gap indent)
                   (map (fun kv : string * JsValue =>
                           let (k, pv) := kv in
                           (quote k ++ colon gap ++ printValue gap indent pv)%string)
                        properties)
           ++ lineBreak gap stepback ++ "}")%string
  end.

Fixpoint spaces (n : nat) : string :=
  match n with
  | O => EmptyString
  | S n' => String " " (spaces n')
  end.

(** [JSON.stringify(value, null, space)] for a numeric [space]; [0] is the
    call without the argument. *)
Definition JSON_stringify (space : nat) (v : JsValue) : string :=
  printValue (spaces (Nat.min 10 space)) EmptyString v.

(** *** JSON.parse *)

Fixpoint stripPrefix (p s : string) : option string :=
  match p with
  | EmptyString => Some s
  | String a p' =>
      match s with
      | String b s' => if (a =? b)%char then stripPrefix p' s' else None
      | EmptyString => None
      end
  end.

Fixpoint parseValue (fuel : nat) (s : string) : option (JsValue * string) :=
  match fuel with
  | O => None
  | S fuel' =>
      match skipWhitespace s with
      | EmptyString => None
      | String c r as text =>
          if (c =? "{")%char then
            match skipWhitespace r with
            | String c' r' =>
                if (c' =? "}")%char then Some (JObject [], r')
                else parseMembers fuel' [] r
            | EmptyString => None
            end
          else if (c =? "[")%char then
            match skipWhitespace r with
            | String c' r' =>
                if (c' =? "]")%char then Some (JArray [], r')
                else parseElements fuel' [] r
            | EmptyString => None
            end
          else if (c =? dquote)%char then
            match parseStringBody r with
            | Some (str, rest) => Some (JString str, rest)
            | None => None
            end
          else if (c =? "n")%char then
            option_map (pair JNull) (stripPrefix "null" text)
          else if (c =? "t")%char then
            option_map (pair (JBool true)) (stripPrefix "true" text)
          else if (c =? "f")%char then
            option_map (pair (JBool false)) (stripPrefix "false" text)
          else
            match scanNumber text with
            | Some (literal, rest) => Some (JNumber (StringToNumber literal), rest)
            | None => None
            end
      end
  end
with parseElements (fuel : nat) (acc : list JsValue) (s : string)
  : option (JsValue * string) :=
  match fuel with
  | O => None
  | S fuel' =>
      match parseValue fuel' s with
      | Some (v, r) =>
          match skipWhitespace r with
          | String c r' =>
              if (c =? ",")%char then parseElements fuel' (v :: acc) r'
              else if (c =? "]")%char then Some (JArray (rev (v :: acc)), r')
              else None
          | EmptyString => None
          end
      | None => None
      end
  end
with parseMembers (fuel : nat) (acc : list (string * JsValue)) (s : string)
  : option (JsValue * string) :=
  match fuel with
  | O => None
  | S fuel' =>
      match skipWhitespace s with
      | String c r =>
          if (c =? dquote)%char then
            match parseStringBody r with
            | Some (key, r1) =>
                match skipWhitespace r1 with
                | String c1 r2 =>
                    if (c1 =? ":")%char then
                      match parseValue fuel' r2 with
                      | Some (v, r3) =>
                          match skipWhitespace r3 with
                          | String c3 r4 =>
                              if (c3 =? ",")%char then
                                parseMembers fuel' (setProperty key v acc) r4
                              else if (c3 =? "}")%char then
                                Some (JObject (setProperty key v acc), r4)
                              else None
                          | EmptyString => None
                          end
                      | None => None
                      end
                    else None
                | EmptyString => None
                end
            | None => None
            end
          else None
      | EmptyString => None
      end
  end.

(** [JSON.parse(text)]; [None] is the SyntaxError it throws. *)
Definition JSON_parse (text : string) : option JsValue :=
  match parseValue (S (String.length text)) text with
  | Some (v, rest) =>
      match skipWhitespace rest with
      | EmptyString => Some v
      | _ => None
      end
  | None => None
  end.


(** *** What survives the text: every number is read back from its own
    printed form, or is [null] when it has none. *)
Fixpoint revive (v : JsValue) : JsValue :=
  match v with
  | JNumber n =>
      let t := Number_toString n in
      if isJsonNumber t then JNumber (StringToNumber t) else JNull
  | JArray elements => JArray (map revive elements)
  | JObject properties =>
      JObject (map (fun kv : string * JsValue => let (k, pv) := kv in (k, revive pv))
                   properties)
  | _ => v
  end.

(** Fuel that parsing the printed form of [v] takes. *)
Fixpoint fuelFor (v : JsValue) : nat :=
  match v with
  | JArray elements => S (list_sum (map (fun e => S (fuelFor e)) elements))
  | JObject properties =>
      S (list_sum (map (fun kv : string * JsValue => S (fuelFor (snd kv))) properties))
  | _ => 1
  end.

Fixpoint distinct (keys : list string) : bool :=
  match keys with
  | [] => true
  | k :: rest => negb (existsb (String.eqb k) rest) && distinct rest
  end.

(** Objects whose keys are pairwise distinct and listed in creation order,
    none being an array index. *)
Fixpoint wellFormed (v : JsValue) : bool :=
  match v with
  | JArray elements => forallb wellFormed elements
  | JObject properties =>
      distinct (map fst properties)
      && forallb (fun kv : string * JsValue =>
                    match arrayIndex (fst kv) with
                    | Some _ => false
                    | None => wellFormed (snd kv)
                    end) properties
  | _ => true
  end.

(** *** Node objects *)

Definition getString (key : string) (props : list (string * JsValue))
  : option string :=
  match getProp key props with
  | Some (JString s) => Some s
  | _ => None
  end.

(** An optional string field: absent, or a string. *)
Definition getOptionalString (key : string) (props : list (string * JsValue))
  : option (option string) :=
  match getProp key props with
  | None => Some None
  | Some (JString s) => Some (Some s)
  | Some _ => None
  end.

(** An optional numeric field: absent, a number, or the [null] that a
    number without a JSON form was printed as. *)
Definition getOptionalNumber (key : string) (props : list (string * JsValue))
  : option (option num) :=
  match getProp key props with
  | None => Some None
  | Some (JNumber n) => Some (Some n)
  | Some JNull => Some None
  | Some _ => None
  end.

Definition traverse {A B} (f : A -> option B) : list A -> option (list B) :=
  fix go (l : list A) : option (list B) :=
    match l with
    | [] => Some []
    | a :: l' =>
        match f a with
        | Some b => option_map (cons b) (go l')
        | None => None
        end
    end.

(** The [children] property read with [f] on each element: the lookup of
    [getProp] as a loop of its own, so that a recursive [f] stays
    structural; [childrenWith_eq] states it with [getProp]. *)
Definition childrenWith {A} (f : JsValue -> option A)
  : list (string * JsValue) -> option (list A) :=
  fix look (ps : list (string * JsValue)) : option (list A) :=
    match ps with
    | [] => None
    | (k, pv) :: ps' =>
        if k =? "children" then
          match pv with
          | JArray kids => traverse f kids
          | _ => None
          end
        else look ps'
    end.

(** The tree a JavaScript value is when read at type [MindMapNode]. *)
Fixpoint nodeOfValue (v : JsValue) : option (MindMapNode num) :=
  match v with
  | JObject props =>
      match getString "id" props, getString "content" props,
            childrenWith nodeOfValue props,
            getOptionalNumber "x" props, getOptionalNumber "y" props,
            getOptionalString "color" props with
      | Some i, Some c, Some kids, Some px, Some py, Some col =>
          Some (mkNode i c kids px py col)
      | _, _, _, _, _, _ => None
      end
  | _ => None
  end.

Definition optionalProp {A} (key : string) (f : A -> JsValue) (o : option A)
  : list (string * JsValue) :=
  match o with
  | Some a => [(key, f a)]
  | None => []
  end.

(** The object a tree is when its properties are created in the order of
    the default literal. *)
Fixpoint valueOfNode (node : MindMapNode num) : JsValue :=
  JObject
    ([("id", JString (id node)); ("content", JString (content node));
      ("children", JArray (map valueOfNode (children node)))]
     ++ optionalProp "x" JNumber (x node)
     ++ optionalProp "y" JNumber (y node)
     ++ optionalProp "color" JString (color node)).

(** ** Initialisation from storage *)

(** [saved ? JSON.parse(saved) : fallback], with [saved] the result of
    [localStorage.getItem]: [null] and the empty string are falsy. *)
Definition parseSavedOr (fallback : JsValue) (saved : option string)
  : Outcome JsValue :=
  match saved with
  | None => Returned fallback
  | Some text =>
      if text =? EmptyString then Returned fallback
      else
        match JSON_parse text with
        | Some v => Returned v
        | None => Thrown "SyntaxError"
        end
  end.

(** The initialiser of [rootNode] in the mind-map page. *)
Definition initialRootNode (savedMindMap : option string) : Outcome JsValue :=
  parseSavedOr (valueOfNode defaultRoot) savedMindMap.

(** The initialiser of [tasks] in the tasks page. *)
Definition initialTasks (savedTasks : option string) : Outcome JsValue :=
  parseSavedOr (JArray []) savedTasks.

(** [JSON.stringify(rootNode, null, 2)] of [exportMindMap], and the
    [JSON.stringify(rootNode)] written to storage, for the object [v] that
    [rootNode] is. *)
Definition exportMindMap (v : JsValue) : string := JSON_stringify 2 v.
Definition persistMindMap (v : JsValue) : string := JSON_stringify 0 v.

End Json.

Arguments JsValue num : clear implicits.

(** ** Statements about [addChildNode] *)

Section AddChildSpec.
Context {num : Type} `{JsNumber num}.

(** [added] is the last child of a node of [T] that carries [parentId]:
    along some path, [T] has such a node and [T'] has the same node with
    [added] appended to its children. *)
Definition appendedUnder (parentId : string) (added T T' : MindMapNode num) : Prop :=
  exists path parent,
    subtreeAt path T = Some parent /\
    id parent = parentId /\
    subtreeAt path T' = Some (withChildren parent (children parent ++ [added])).

(** Adding under [parentId] yields one more node, and the added node has
    content [c], no children and sits last under the located parent. *)
Definition addChildSpec (c : string) (now : Z) (pick : nat) (parentId : string)
                        (s : PageState num) : Prop :=
  let T := rootNode s in
  let T' := rootNode (addChildNode now pick parentId s) in
  countNodes T' = S (countNodes T) /\
  exists added,
    content added = c /\ children added = [] /\ appendedUnder parentId added T T'.

End AddChildSpec.

(** ** Real arithmetic as an instance of the number interface *)

#[export] Instance R_JsNumber : JsNumber R := {|
  ofQ := Q2R;
  add := Rplus;
  mul := Rmult;
  div := Rdiv;
  Math_cos := cos;
  Math_sin := sin;
  Math_PI := PI;
  isFalsy := fun r => if Req_dec_T r 0 then true else false
|}.

(** ** Symbolic numbers as an instance of both interfaces

    Numbers as the expressions that compute them.  An integer literal prints
    in decimal; any other expression prints as [NaN], which JSON writes
    as [null]. *)

Inductive SymNum : Type :=
| SLit (q : Q)
| SAdd (a b : SymNum)
| SMul (a b : SymNum)
| SDiv (a b : SymNum)
| SCos (a : SymNum)
| SSin (a : SymNum)
| SPi.

#[export] Instance Sym_JsNumber : JsNumber SymNum := {|
  ofQ := SLit;
  add := SAdd;
  mul := SMul;
  div := SDiv;
  Math_cos := SCos;
  Math_sin := SSin;
  Math_PI := SPi;
  isFalsy := fun e => match e with SLit q => Qeq_bool q 0 | _ => false end
|}.

#[export] Instance Sym_JsNumberText : JsNumberText SymNum := {|
  Number_toString := fun e =>
    match e with
    | SLit (Qmake z 1) => Z_toString z
    | _ => "NaN"
    end;
  StringToNumber := fun t =>
    match NilZero.int_of_string t with
    | Some d => SLit (inject_Z (Z.of_int d))
    | None => SLit 0
    end
|}.

(** ** Sample trees *)

(** A root with two children; the first child has a child of its own. *)
Definition sampleTree : MindMapNode R :=
  mkNode "root" "Central Idea"
    [ mkNode "node-1" "Plan" [ mkNode "node-3" "Budget" [] None None (Some "#F2FCE2") ]
             None None (Some "#FFDEE2");
      mkNode "node-2" "Build" [] None None (Some "#D3E4FD") ]
    (Some 0%R) (Some 0%R) (Some "#9b87f5").

(** Two siblings created within the same millisecond share an identifier. *)
Definition twinsTree : MindMapNode R :=
  mkNode "root" "Central Idea"
    [ mkNode "node-7" "Left" [] None None (Some "#FFDEE2");
      mkNode "node-7" "Right" [] None None (Some "#E5DEFF") ]
    (Some 0%R) (Some 0%R) (Some "#9b87f5").

(** A root with four children; the second child has two children. *)
Definition fourTree : MindMapNode R :=
  mkNode "root" "Central Idea"
    [ mkNode "node-1" "North" [] None None (Some "#FFDEE2");
      mkNode "node-2" "East"
             [ mkNode "node-5" "Near" [] None None (Some "#F2FCE2");
               mkNode "node-6" "Far" [] None None (Some "#FEF7CD") ]
             None None (Some "#E5DEFF");
      mkNode "node-3" "South" [] None None (Some "#D3E4FD");
      mkNode "node-4" "West" [] None None (Some "#F2FCE2") ]
    (Some 0%R) (Some 0%R) (Some "#9b87f5").

(** [sampleTree] with other stored positions. *)
Definition sampleTreeMoved : MindMapNode R :=
  mkNode "root" "Central Idea"
    [ mkNode "node-1" "Plan" [ mkNode "node-3" "Budget" [] (Some 7%R) None (Some "#F2FCE2") ]
             (Some 1%R) (Some 2%R) (Some "#FFDEE2");
      mkNode "node-2" "Build" [] None (Some 5%R) (Some "#D3E4FD") ]
    (Some 400%R) (Some 300%R) (Some "#9b87f5").

(** A laid-out tree over symbolic numbers and the object it is. *)
Definition storedTree : MindMapNode SymNum :=
  mkNode "root" "Central Idea"
    [ mkNode "node-1700000000000" "New Idea" [] (Some (SLit 600)) (Some (SLit 300))
             (Some "#FFDEE2");
      mkNode "node-1700000000001" "Second" []
             (Some (SAdd (SLit 400) (SMul (SCos SPi) (SLit 200)))) (Some (SLit 300))
             (Some "#E5DEFF") ]
    (Some (SLit 400)) (Some (SLit 300)) (Some "#9b87f5").

(** A store with a root at location 0 and its two children at 1 and 2. *)
Definition sampleStore : Store R := fun l =>
  match l with
  | 0%nat => Some (mkObject "root" "Central Idea" [1%nat; 2%nat]
                            (Some 400%R) (Some 300%R) (Some "#9b87f5"))
  | 1%nat => Some (mkObject "node-1" "Plan" [] None None (Some "#FFDEE2"))
  | 2%nat => Some (mkObject "node-2" "Build" [] (Some 9%R) None (Some "#D3E4FD"))
  | _ => None
  end.

(** ** The tasks page

    The list of tasks of [TasksPage] and its handlers.  The percentage
    shown as progress, a rounded floating-point quotient, is not part of
    the model. *)

Module TasksPage.

Inductive Priority : Type := low | medium | high.

Record Task := mkTask {
  id : string;
  title : string;
  priority : Priority;
  completed : bool
}.

Record State := mkState {
  tasks : list Task;
  newTaskTitle : string;
  newTaskPriority : Priority;
  toasts : list Toast
}.

(** [!title.trim()]: the title has nothing but white space and line
    terminators, read on the UTF-8 bytes of the string (tab, line feed,
    vertical tab, form feed, carriage return, space; U+00A0, U+1680,
    U+2000 to U+200A, U+2028, U+2029, U+202F, U+205F, U+3000, U+FEFF). *)
Fixpoint isBlank (s : string) : bool :=
  match s with
  | EmptyString => true
  | String c r =>
      let n := N_of_ascii c in
      if ((9 <=? n) && (n <=? 13) || (n =? 32))%N then isBlank r
      else
        match r with
        | String c1 r1 =>
            let n1 := N_of_ascii c1 in
            if ((n =? 194) && (n1 =? 160))%N then isBlank r1
            else
              match r1 with
              | String c2 r2 =>
                  let n2 := N_of_ascii c2 in
                  if ((n =? 225) && (n1 =? 154) && (n2 =? 128)
                      || (n =? 226) && (n1 =? 128)
                         && ((128 <=? n2) && (n2 <=? 138)
                             || (n2 =? 168) || (n2 =? 169) || (n2 =? 175))
                      || (n =? 226) && (n1 =? 129) && (n2 =? 159)
                      || (n =? 227) && (n1 =? 128) && (n2 =? 128)
                      || (n =? 239) && (n1 =? 187) && (n2 =? 191))%N
                  then isBlank r2
                  else false
              | EmptyString => false
              end
        | EmptyString => false
        end
  end.

(** [now] is [Date.now()]. *)
Definition addTask (now : Z) (s : State) : State :=
  if isBlank (newTaskTitle s) then
    mkState (tasks s) (newTaskTitle s) (newTaskPriority s)
            (toasts s ++ [mkToast "Error" "Task title cannot be empty"
                                  (Some "destructive")])
  else
    let newTask := mkTask (Z_toString now) (newTaskTitle s) (newTaskPriority s) false in
    mkState (tasks s ++ [newTask]) "" (newTaskPriority s)
            (toasts s ++ [mkToast "Task added"
                                  "Your task has been added successfully" None]).

Definition toggleTaskCompletion (i : string) (s : State) : State :=
  mkState
    (map (fun task =>
            if id task =? i
            then mkTask (id task) (title task) (priority task)
                        (negb (completed task))
            else task) (tasks s))
    (newTaskTitle s) (newTaskPriority s) (toasts s).

(** The callback of that [map], by name. *)
Definition toggled (i : string) (task : Task) : Task :=
  if id task =? i
  then mkTask (id task) (title task) (priority task) (negb (completed task))
  else task.

Definition deleteTask (i : string) (s : State) : State :=
  mkState
    (filter (fun task => negb (id task =? i)) (tasks s))
    (newTaskTitle s) (newTaskPriority s)
    (toasts s ++ [mkToast "Task deleted" "Your task has been deleted" None]).

(** [tasks.filter(task => task.completed).length] of the progress effect. *)
Definition completedTasks (s : State) : nat :=
  List.length (filter completed (tasks s)).

Definition priorityName (p : Priority) : string :=
  match p with
  | low => "low"
  | medium => "medium"
  | high => "high"
  end.

Definition priorityOfName (name : string) : option Priority :=
  if name =? "low" then Some low
  else if name =? "medium" then Some medium
  else if name =? "high" then Some high
  else None.

Section Stored.
Context {num : Type} `{JsNumberText num}.

(** The object a task is, with its properties in the order [addTask]
    creates them, and the array the list is. *)
Definition valueOfTask (t : Task) : JsValue num :=
  JObject [("id", JString (id t)); ("title", JString (title t));
           ("priority", JString (priorityName (priority t)));
           ("completed", JBool (completed t))].

Definition valueOfTasks (ts : list Task) : JsValue num :=
  JArray (map valueOfTask ts).

(** The task a value is when read at type [Task]. *)
Definition taskOfValue (v : JsValue num) : option Task :=
  match v with
  | JObject props =>
      match getString "id" props, getString "title" props,
            getString "priority" props, getProp "completed" props with
      | Some i, Some t, Some name, Some (JBool b) =>
          match priorityOfName name with
          | Some p => Some (mkTask i t p b)
          | None => None
          end
      | _, _, _, _ => None
      end
  | _ => None
  end.

Definition tasksOfValue (v : JsValue num) : option (list Task) :=
  match v with
  | JArray elements => traverse taskOfValue elements
  | _ => None
  end.

(** [JSON.stringify(tasks)] of the effect that writes the list to
    storage. *)
Definition persistTasks (ts : list Task) : string :=
  JSON_stringify 0 (valueOfTasks ts).

End Stored.

(** A list of three tasks, the second completed, and a title being typed. *)
Definition sampleState : State :=
  mkState
    [ mkTask "1700000000000" "Write report" high false;
      mkTask "1700000000001" "Call Ana" medium true;
      mkTask "1700000000002" "Buy milk" low false ]
    "  Water plants" medium [].

End TasksPage.

(** ** The exported link

    [encodeURIComponent] on the UTF-8 bytes of a well-formed string: the
    letters, digits and marks of the unreserved set stand for themselves,
    every other byte is written as a percent sign and two upper-case
    hexadecimal digits. *)

Definition uriUnreserved (c : ascii) : bool :=
  let n := N_of_ascii c in
  ((65 <=? n) && (n <=? 90) || (97 <=? n) && (n <=? 122)
   || (48 <=? n) && (n <=? 57)
   || (n =? 45) || (n =? 95) || (n =? 46) || (n =? 33) || (n =? 126)
   || (n =? 42) || (n =? 39) || (n =? 40) || (n =? 41))%N.

Definition hexDigitUpper (n : N) : ascii :=
  if (n <? 10)%N then ascii_of_N (48 + n) else ascii_of_N (55 + n).

Definition percentEncodeByte (c : ascii) : string :=
  let n := N_of_ascii c in
  String "%" (String (hexDigitUpper (n / 16)) (String (hexDigitUpper (n mod 16)) EmptyString)).

Fixpoint encodeURIComponent (s : string) : string :=
  match s with
  | EmptyString => EmptyString
  | String c r =>
      ((if uriUnreserved c then String c EmptyString else percentEncodeByte c)
       ++ encodeURIComponent r)%string
  end.

(** The [href] that [exportMindMap] gives the link it clicks, for the
    object [v] that [rootNode] is. *)
Definition exportDataUri {num : Type} `{JsNumberText num} (v : JsValue num) : string :=
  ("data:application/json;charset=utf-8," ++ encodeURIComponent (exportMindMap v))%string.

(** How the platform reads such a link back (URL Standard and Fetch
    Standard): the fragment is cut off at the first number sign, the body
    is what follows the first comma, and the body is percent-decoded, a
    percent sign not followed by two hexadecimal digits standing for
    itself. *)

Fixpoint percentDecode (s : string) : string :=
  match s with
  | EmptyString => EmptyString
  | String c r =>
      if (c =? "%")%char then
        match r with
        | String h (String l r') =>
            match hexValue h, hexValue l with
            | Some a, Some b => String (ascii_of_N (16 * a + b)) (percentDecode r')
            | _, _ => String c (percentDecode r)
            end
        | _ => String c (percentDecode r)
        end
      else String c (percentDecode r)
  end.

Fixpoint beforeFragment (s : string) : string :=
  match s with
  | EmptyString => EmptyString
  | String c r => if (c =? "#")%char then EmptyString else String c (beforeFragment r)
  end.

Fixpoint afterComma (s : string) : option string :=
  match s with
  | EmptyString => None
  | String c r => if (c =? ",")%char then Some r else afterComma r
  end.

Definition dataUrlBody (href : string) : option string :=
  match stripPrefix "data:" (beforeFragment href) with
  | Some rest => option_map percentDecode (afterComma rest)
  | None => None
  end.

(** What a URL keeps as it is written: printable ASCII other than the
    number sign and the question mark. *)
Definition urlPlain (c : ascii) : bool :=
  let n := N_of_ascii c in
  ((32 <? n) && (n <? 127) && negb (n =? 35) && negb (n =? 63))%N.

Fixpoint forallChars (p : ascii -> bool) (s : string) : bool :=
  match s with
  | EmptyString => true
  | String c r => p c && forallChars p r
  end.

(** ** The view of the canvas

    Zoom and panning, over real arithmetic.  A mouse event is the pair of
    its [clientX] and [clientY]. *)

Module View.

Record ViewState := mkView {
  zoom : R;
  offset : R * R;
  isPanning : bool;
  panStart : R * R
}.

Definition initialView : ViewState := mkView 1 (0, 0)%R false (0, 0)%R.

Definition zoomIn (v : ViewState) : ViewState :=
  mkView (zoom v + 0.1)%R (offset v) (isPanning v) (panStart v).

Definition zoomOut (v : ViewState) : ViewState :=
  mkView (Rmax 0.5 (zoom v - 0.1))%R (offset v) (isPanning v) (panStart v).

Definition startPanning (e : R * R) (v : ViewState) : ViewState :=
  mkView (zoom v) (offset v) true e.

Definition doPanning (e : R * R) (v : ViewState) : ViewState :=
  if negb (isPanning v) then v
  else
    mkView (zoom v)
           (fst (offset v) + (fst e - fst (panStart v)),
            snd (offset v) + (snd e - snd (panStart v)))%R
           (isPanning v) e.

Definition endPanning (v : ViewState) : ViewState :=
  mkView (zoom v) (offset v) false (panStart v).

(** The part of [resetMindMap] that touches the view. *)
Definition resetView (v : ViewState) : ViewState :=
  mkView 1 (0, 0)%R (isPanning v) (panStart v).

Inductive ViewEvent : Type :=
| ZoomIn
| ZoomOut
| MouseDown (e : R * R)
| MouseMove (e : R * R)
| MouseUp
| MouseLeave
| ResetView.

Definition viewStep (v : ViewState) (ev : ViewEvent) : ViewState :=
  match ev with
  | ZoomIn => zoomIn v
  | ZoomOut => zoomOut v
  | MouseDown e => startPanning e v
  | MouseMove e => doPanning e v
  | MouseUp => endPanning v
  | MouseLeave => endPanning v
  | ResetView => resetView v
  end.

Definition runView (events : list ViewEvent) (v : ViewState) : ViewState :=
  fold_left viewStep events v.

End View.

(* ================================================================= *)
(** * Part II: properties *)
(* ================================================================= *)

(** ** Generic list facts *)

Lemma mapi_from_length {A B} (f : nat -> A -> B) l : forall i,
  List.length (mapi_from f i l) = List.length l.
Proof. induction l as [|a l IH]; intros i; simpl; [reflexivity|]. now rewrite IH. Qed.

Lemma mapi_from_nth_error {A B} (f : nat -> A -> B) l : forall i n,
  nth_error (mapi_from f i l) n = option_map (f (i + n)%nat) (nth_error l n).
Proof.
  induction l as [|a l IH]; intros i n; simpl.
  - now destruct n.
  - destruct n as [|n]; simpl.
    + now rewrite Nat.add_0_r.
    + rewrite IH. now rewrite Nat.add_succ_r.
Qed.

Lemma mapi_nth_error {A B} (f : nat -> A -> B) l n :
  nth_error (mapi f l) n = option_map (f n) (nth_error l n).
Proof. unfold mapi. now rewrite mapi_from_nth_error. Qed.

Lemma mapi_from_ext_in {A B} (f g : nat -> A -> B) l : forall i,
  (forall n a, nth_error l n = Some a -> f (i + n)%nat a = g (i + n)%nat a) ->
  mapi_from f i l = mapi_from g i l.
Proof.
  induction l as [|a l IH]; intros i Hfg; simpl; [reflexivity|].
  f_equal.
  - specialize (Hfg 0%nat a eq_refl). now rewrite Nat.add_0_r in Hfg.
  - apply IH. intros n b Hn. specialize (Hfg (S n) b Hn).
    now rewrite Nat.add_succ_r in Hfg.
Qed.

Lemma map_id_in {A} (f : A -> A) l :
  Forall (fun a => f a = a) l -> map f l = l.
Proof. induction 1; simpl; congruence. Qed.

(** ** The tree: induction principle and the source-shaped equations *)

Section TreeFacts.
Context {num : Type}.

(** Induction over a node with the hypothesis available on every child. *)
Lemma MindMapNode_tree_ind (P : MindMapNode num -> Prop) :
  (forall node, Forall P (children node) -> P node) ->
  forall node, P node.
Proof.
  intros step.
  fix IH 1. intros [i c cs px py col]. apply step. simpl.
  induction cs as [|child rest IHcs]; constructor; [apply IH | exact IHcs].
Qed.

Lemma removeNodeFromTree_eq nodeId (node : MindMapNode num) :
  removeNodeFromTree nodeId node =
  withChildren node
    (map (removeNodeFromTree nodeId)
       (filter (fun child => negb (id child =? nodeId)) (children node))).
Proof.
  destruct node as [i c cs px py col]; simpl. unfold withChildren; simpl. f_equal.
  induction cs as [|child rest IH]; simpl; [reflexivity|].
  destruct (negb (id child =? nodeId)); simpl; now rewrite IH.
Qed.

Lemma addChildToNode_eq parentId (newNode node : MindMapNode num) :
  addChildToNode parentId newNode node =
  if id node =? parentId then withChildren node (children node ++ [newNode])
  else withChildren node (map (addChildToNode parentId newNode) (children node)).
Proof. destruct node; reflexivity. Qed.

Lemma updateNodeContent_eq eid c (node : MindMapNode num) :
  updateNodeContent eid c node =
  if id node =? eid then withContent node c
  else withChildren node (map (updateNodeContent eid c) (children node)).
Proof. destruct node; reflexivity. Qed.

Lemma ids_eq (node : MindMapNode num) : ids node = id node :: flat_map ids (children node).
Proof. destruct node; reflexivity. Qed.

Lemma countNodes_eq (node : MindMapNode num) :
  countNodes node = S (list_sum (map countNodes (children node))).
Proof. destruct node; reflexivity. Qed.

Lemma withChildren_same (node : MindMapNode num) : withChildren node (children node) = node.
Proof. destruct node; reflexivity. Qed.

(** *** Absent identifiers: the three traversals are the identity *)

Lemma not_in_ids_children nodeId (node : MindMapNode num) :
  ~ In nodeId (ids node) ->
  id node <> nodeId /\ Forall (fun child => ~ In nodeId (ids child)) (children node).
Proof.
  rewrite ids_eq. simpl. intros Hn. split; [tauto|].
  apply Forall_forall. intros child Hc Hin. apply Hn. right.
  apply in_flat_map. eauto.
Qed.

Lemma addChildToNode_absent parentId (newNode node : MindMapNode num) :
  ~ In parentId (ids node) -> addChildToNode parentId newNode node = node.
Proof.
  induction node as [node IH] using MindMapNode_tree_ind. intros Habs.
  apply not_in_ids_children in Habs as [Hid Hkids].
  rewrite addChildToNode_eq. apply String.eqb_neq in Hid. rewrite Hid.
  rewrite map_id_in; [apply withChildren_same|].
  rewrite Forall_forall in *. auto.
Qed.

Lemma updateNodeContent_absent eid c (node : MindMapNode num) :
  ~ In eid (ids node) -> updateNodeContent eid c node = node.
Proof.
  induction node as [node IH] using MindMapNode_tree_ind. intros Habs.
  apply not_in_ids_children in Habs as [Hid Hkids].
  rewrite updateNodeContent_eq. apply String.eqb_neq in Hid. rewrite Hid.
  rewrite map_id_in; [apply withChildren_same|].
  rewrite Forall_forall in *. auto.
Qed.

Lemma removeNodeFromTree_absent nodeId (node : MindMapNode num) :
  Forall (fun child => ~ In nodeId (ids child)) (children node) ->
  removeNodeFromTree nodeId node = node.
Proof.
  induction node as [node IH] using MindMapNode_tree_ind. intros Hkids.
  rewrite removeNodeFromTree_eq.
  assert (Hf : filter (fun child => negb (id child =? nodeId)) (children node)
               = children node).
  { apply forallb_filter_id. apply forallb_forall. intros child Hc.
    rewrite Forall_forall in Hkids. specialize (Hkids child Hc).
    apply not_in_ids_children in Hkids as [Hid _].
    apply String.eqb_neq in Hid. now rewrite Hid. }
  rewrite Hf. rewrite map_id_in; [apply withChildren_same|].
  rewrite Forall_forall in *. intros child Hc. apply IH; [exact Hc|].
  apply (not_in_ids_children nodeId child). auto.
Qed.

(** *** Deletion leaves no node with the deleted identifier below the root *)

Lemma removeNodeFromTree_ids nodeId (node : MindMapNode num) :
  id node <> nodeId -> ~ In nodeId (ids (removeNodeFromTree nodeId node)).
Proof.
  induction node as [node IH] using MindMapNode_tree_ind. intros Hid.
  rewrite removeNodeFromTree_eq, ids_eq. simpl. intros [Heq | Hin]; [tauto|].
  apply in_flat_map in Hin as (kept & Hkept & Hin).
  apply in_map_iff in Hkept as (child & <- & Hchild).
  apply filter_In in Hchild as [Hchild Hne].
  apply negb_true_iff, String.eqb_neq in Hne.
  rewrite Forall_forall in IH. exact (IH child Hchild Hne Hin).
Qed.

(** *** Renaming touches contents only *)

Lemma eraseContents_eq (node : MindMapNode num) :
  eraseContents node =
  mkNode (id node) "" (map eraseContents (children node))
         (x node) (y node) (color node).
Proof. destruct node; reflexivity. Qed.

Lemma updateNodeContent_eraseContents eid c (node : MindMapNode num) :
  eraseContents (updateNodeContent eid c node) = eraseContents node.
Proof.
  induction node as [node IH] using MindMapNode_tree_ind.
  rewrite updateNodeContent_eq. destruct (id node =? eid).
  - rewrite !eraseContents_eq. reflexivity.
  - rewrite (eraseContents_eq node), eraseContents_eq. simpl. f_equal.
    rewrite map_map. apply map_ext_in. intros child Hc.
    rewrite Forall_forall in IH. auto.
Qed.

Lemma updateNodeContent_other_content eid c path :
  forall (node n n' : MindMapNode num),
    subtreeAt path node = Some n ->
    subtreeAt path (updateNodeContent eid c node) = Some n' ->
    id n <> eid -> content n' = content n.
Proof.
  induction path as [|i path IH]; intros node n n' Hn Hn' Hid.
  - simpl in *. injection Hn as <-. injection Hn' as <-.
    rewrite updateNodeContent_eq. apply String.eqb_neq in Hid. now rewrite Hid.
  - rewrite updateNodeContent_eq in Hn'. simpl in Hn, Hn'.
    destruct (id node =? eid); simpl in Hn'.
    + rewrite Hn in Hn'. now injection Hn' as <-.
    + rewrite nth_error_map in Hn'.
      destruct (nth_error (children node) i) as [child|]; [|discriminate].
      simpl in Hn'. eapply IH; eauto.
Qed.

Lemma subtreeAt_In_ids path : forall (node n : MindMapNode num),
  subtreeAt path node = Some n -> In (id n) (ids node).
Proof.
  induction path as [|i path IH]; intros node n Hn; simpl in Hn.
  - injection Hn as <-. rewrite ids_eq. now left.
  - destruct (nth_error (children node) i) as [child|] eqn:Hc; [|discriminate].
    rewrite ids_eq. right. apply in_flat_map. exists child. split.
    + eapply nth_error_In; eauto.
    + eauto.
Qed.

Lemma NoDup_app_disjoint {A} (l1 l2 : list A) a :
  NoDup (l1 ++ l2) -> In a l1 -> ~ In a l2.
Proof.
  induction l1 as [|b l1 IH]; simpl; [tauto|].
  intros Hnd [->|Hin] Hin2.
  - inversion Hnd as [|? ? Hnot _]; subst. apply Hnot. apply in_or_app. now right.
  - inversion Hnd; subst. now apply IH.
Qed.

Lemma NoDup_flat_map_In {A B} (f : A -> list B) l a :
  NoDup (flat_map f l) -> In a l -> NoDup (f a).
Proof.
  induction l as [|b l IH]; simpl; [tauto|].
  intros Hnd [->|Hin].
  - eapply NoDup_app_remove_r; eauto.
  - apply IH; [eapply NoDup_app_remove_l; eauto | exact Hin].
Qed.

Lemma NoDup_ids_child (node child : MindMapNode num) :
  NoDup (ids node) -> In child (children node) ->
  NoDup (ids child) /\ (forall i, In i (ids child) -> id node <> i).
Proof.
  rewrite ids_eq. intros Hnd Hc. inversion Hnd as [|? ? Hnot Hrest]; subst. split.
  - eapply NoDup_flat_map_In; eauto.
  - intros i Hi <-. apply Hnot. apply in_flat_map. eauto.
Qed.

Lemma updateNodeContent_located eid c path :
  forall (node n : MindMapNode num),
    NoDup (ids node) ->
    subtreeAt path node = Some n -> id n = eid ->
    subtreeAt path (updateNodeContent eid c node) = Some (withContent n c).
Proof.
  induction path as [|i path IH]; intros node n Hnd Hn Hid.
  - simpl in *. injection Hn as <-. rewrite updateNodeContent_eq.
    apply String.eqb_eq in Hid. now rewrite Hid.
  - simpl in Hn.
    destruct (nth_error (children node) i) as [child|] eqn:Hc; [|discriminate].
    apply nth_error_In in Hc as Hin.
    destruct (NoDup_ids_child node child Hnd Hin) as [Hndc Hfresh].
    assert (Hne : id node <> eid).
    { apply Hfresh. rewrite <- Hid. eapply subtreeAt_In_ids; eauto. }
    rewrite updateNodeContent_eq. apply String.eqb_neq in Hne. rewrite Hne.
    simpl. rewrite nth_error_map, Hc. simpl. now apply IH.
Qed.

(** *** Adding under a present identifier, identifiers pairwise distinct *)

Lemma addChildToNode_children_sum parentId (added : MindMapNode num) cs :
  Forall (fun child =>
            NoDup (ids child) -> In parentId (ids child) ->
            countNodes (addChildToNode parentId added child)
            = (countNodes child + countNodes added)%nat) cs ->
  NoDup (flat_map ids cs) -> In parentId (flat_map ids cs) ->
  list_sum (map countNodes (map (addChildToNode parentId added) cs))
  = (list_sum (map countNodes cs) + countNodes added)%nat.
Proof.
  induction 1 as [|child rest Hchild Hrest IH]; simpl; [tauto|].
  intros Hnd Hin. apply in_app_or in Hin as [Hin|Hin].
  - rewrite Hchild; [|eapply NoDup_app_remove_r; eauto|exact Hin].
    rewrite (map_id_in (addChildToNode parentId added) rest); [lia|].
    apply Forall_forall. intros other Ho. apply addChildToNode_absent.
    intros Hino. eapply NoDup_app_disjoint; eauto.
    apply in_flat_map. eauto.
  - rewrite (addChildToNode_absent parentId added child).
    + rewrite IH; [lia|eapply NoDup_app_remove_l; eauto|exact Hin].
    + intros Hinc. eapply NoDup_app_disjoint; eauto.
Qed.

Lemma addChildToNode_count parentId (added node : MindMapNode num) :
  NoDup (ids node) -> In parentId (ids node) ->
  countNodes (addChildToNode parentId added node)
  = (countNodes node + countNodes added)%nat.
Proof.
  induction node as [node IH] using MindMapNode_tree_ind. intros Hnd Hin.
  rewrite addChildToNode_eq. destruct (id node =? parentId) eqn:Hid.
  - rewrite (countNodes_eq node), countNodes_eq. simpl.
    rewrite map_app, list_sum_app. simpl. lia.
  - rewrite (countNodes_eq node), countNodes_eq. simpl.
    rewrite ids_eq in Hnd, Hin. inversion Hnd; subst.
    destruct Hin as [Heq|Hin]; [apply String.eqb_neq in Hid; tauto|].
    rewrite addChildToNode_children_sum; auto.
Qed.

Lemma addChildToNode_located parentId (added node : MindMapNode num) :
  NoDup (ids node) -> In parentId (ids node) ->
  exists path parent,
    subtreeAt path node = Some parent /\ id parent = parentId /\
    subtreeAt path (addChildToNode parentId added node)
    = Some (withChildren parent (children parent ++ [added])).
Proof.
  induction node as [node IH] using MindMapNode_tree_ind. intros Hnd Hin.
  rewrite addChildToNode_eq. destruct (id node =? parentId) eqn:Hid.
  - exists [], node. simpl. apply String.eqb_eq in Hid. auto.
  - rewrite ids_eq in Hin. destruct Hin as [Heq|Hin];
      [apply String.eqb_neq in Hid; tauto|].
    apply in_flat_map in Hin as (child & Hc & Hinc).
    destruct (NoDup_ids_child node child Hnd Hc) as [Hndc _].
    rewrite Forall_forall in IH.
    destruct (IH child Hc Hndc Hinc) as (path & parent & Hp & Hpid & Hp').
    apply In_nth_error in Hc as [i Hi].
    exists (i :: path), parent. simpl. rewrite Hi, nth_error_map, Hi. simpl. auto.
Qed.

(** *** How often an identifier occurs, across the traversals *)

Lemma count_occ_flat_map_ids_map (f : MindMapNode num -> MindMapNode num) r cs :
  Forall (fun child => count_occ string_dec (ids (f child)) r
                       = count_occ string_dec (ids child) r) cs ->
  count_occ string_dec (flat_map ids (map f cs)) r
  = count_occ string_dec (flat_map ids cs) r.
Proof.
  induction 1 as [|child rest Hc _ IH]; simpl; [reflexivity|].
  rewrite !count_occ_app. congruence.
Qed.

Lemma addChildToNode_count_occ parentId (added node : MindMapNode num) r :
  count_occ string_dec (ids added) r = 0%nat ->
  count_occ string_dec (ids (addChildToNode parentId added node)) r
  = count_occ string_dec (ids node) r.
Proof.
  intros Hadded. induction node as [node IH] using MindMapNode_tree_ind.
  rewrite addChildToNode_eq. destruct (id node =? parentId).
  - rewrite (ids_eq node), ids_eq. simpl.
    rewrite flat_map_app. simpl. rewrite app_nil_r.
    destruct (string_dec (id node) r); rewrite count_occ_app, Hadded; lia.
  - rewrite (ids_eq node), ids_eq. simpl.
    rewrite (count_occ_flat_map_ids_map _ r _ IH). reflexivity.
Qed.

Lemma removeNodeFromTree_count_occ nodeId (node : MindMapNode num) r :
  (count_occ string_dec (ids (removeNodeFromTree nodeId node)) r
   <= count_occ string_dec (ids node) r)%nat.
Proof.
  induction node as [node IH] using MindMapNode_tree_ind.
  rewrite removeNodeFromTree_eq, (ids_eq node), ids_eq. simpl.
  assert (Hkids :
    le (count_occ string_dec
          (flat_map ids (map (removeNodeFromTree nodeId)
             (filter (fun child => negb (id child =? nodeId)) (children node)))) r)
       (count_occ string_dec (flat_map ids (children node)) r)).
  { induction IH as [|child rest Hc _ IHrest]; simpl; [lia|].
    destruct (negb (id child =? nodeId)); simpl; rewrite !count_occ_app; lia. }
  destruct (string_dec (id node) r); lia.
Qed.

Lemma updateNodeContent_ids eid c (node : MindMapNode num) :
  ids (updateNodeContent eid c node) = ids node.
Proof.
  induction node as [node IH] using MindMapNode_tree_ind.
  rewrite updateNodeContent_eq. destruct (id node =? eid).
  - rewrite (ids_eq node), ids_eq. reflexivity.
  - rewrite (ids_eq node), ids_eq. simpl. f_equal.
    induction IH as [|child rest Hc _ IHrest]; simpl; congruence.
Qed.

Lemma erasePositions_eq (node : MindMapNode num) :
  erasePositions node =
  mkNode (id node) (content node) (map erasePositions (children node))
         None None (color node).
Proof. destruct node; reflexivity. Qed.

Lemma erasePositions_ids (node : MindMapNode num) :
  ids (erasePositions node) = ids node.
Proof.
  induction node as [node IH] using MindMapNode_tree_ind.
  rewrite erasePositions_eq, (ids_eq node), ids_eq. simpl. f_equal.
  induction IH as [|child rest Hc _ IHrest]; simpl; congruence.
Qed.

Lemma addChildToNode_id parentId (added node : MindMapNode num) :
  id (addChildToNode parentId added node) = id node.
Proof. rewrite addChildToNode_eq. now destruct (id node =? parentId). Qed.

Lemma removeNodeFromTree_id nodeId (node : MindMapNode num) :
  id (removeNodeFromTree nodeId node) = id node.
Proof. now rewrite removeNodeFromTree_eq. Qed.

Lemma updateNodeContent_id eid c (node : MindMapNode num) :
  id (updateNodeContent eid c node) = id node.
Proof. rewrite updateNodeContent_eq. now destruct (id node =? eid). Qed.

End TreeFacts.

(** ** The layout *)

Lemma map_mapi_from {A B C} (g : B -> C) (h : A -> C) (f : nat -> A -> B) l :
  Forall (fun a => forall n, g (f n a) = h a) l ->
  forall i, map g (mapi_from f i l) = map h l.
Proof. induction 1 as [|a l Ha _ IH]; intros i; simpl; [reflexivity|]. now rewrite Ha, IH. Qed.

Lemma mapi_from_related {A B C} (g : A -> C) (f : nat -> A -> B) l1 :
  Forall (fun a1 => forall a2, g a1 = g a2 -> forall n, f n a1 = f n a2) l1 ->
  forall l2, map g l1 = map g l2 ->
  forall i, mapi_from f i l1 = mapi_from f i l2.
Proof.
  induction 1 as [|a1 l1 Ha _ IH]; intros [|a2 l2] Hmap i; simpl in *;
    try discriminate; [reflexivity|].
  injection Hmap as Hhd Htl. now rewrite (Ha a2 Hhd), (IH l2 Htl).
Qed.

Section LayoutFacts.
Context {num : Type} `{JsNumber num}.

Lemma placeChild_unfold (child : MindMapNode num) cx cy angle distance :
  placeChild child cx cy angle distance =
  mkNode (id child) (content child)
    (mapi (fun index grandchild =>
             let childAngle :=
               add angle
                   (mul (ofNat index)
                        (div (mul Math_PI (ofQ 2))
                             (ofNat (List.length (children child))))) in
             placeChild grandchild
               (add (orZero (Some cx)) (mul (Math_cos childAngle) distance))
               (add (orZero (Some cy)) (mul (Math_sin childAngle) distance))
               childAngle (mul distance (ofQ (8 # 10))))
          (children child))
    (Some cx) (Some cy) (color child).
Proof. destruct child; reflexivity. Qed.

(** [placeChild] is the assignment of the child's position followed by the
    recursive call. *)
Lemma placeChild_eq (child : MindMapNode num) cx cy angle distance :
  placeChild child cx cy angle distance
  = layoutChildren (withXY child cx cy) angle distance.
Proof.
  destruct child as [i c cs px py col]. unfold layoutChildren, withXY, withChildren.
  simpl. destruct cs; reflexivity.
Qed.

(** The recursion of [layoutChildren] as the source writes it. *)
Lemma layoutChildren_eq (node : MindMapNode num) angle distance :
  layoutChildren node angle distance =
  match children node with
  | [] => node
  | _ =>
      let nodeX := orZero (x node) in
      let nodeY := orZero (y node) in
      let angleStep :=
        div (mul Math_PI (ofQ 2)) (ofNat (List.length (children node))) in
      withChildren node
        (mapi (fun index child =>
                 let childAngle := add angle (mul (ofNat index) angleStep) in
                 layoutChildren
                   (withXY child (add nodeX (mul (Math_cos childAngle) distance))
                                 (add nodeY (mul (Math_sin childAngle) distance)))
                   childAngle (mul distance (ofQ (8 # 10))))
              (children node))
  end.
Proof.
  unfold layoutChildren at 1. destruct (children node) as [|c cs]; [reflexivity|].
  cbv zeta. f_equal. unfold mapi. apply mapi_from_ext_in.
  intros n a _. apply placeChild_eq.
Qed.

Lemma layoutTree_placeChild clientWidth clientHeight (rootNode : MindMapNode num) :
  layoutTree clientWidth clientHeight rootNode
  = placeChild rootNode (div clientWidth (ofQ 2)) (div clientHeight (ofQ 2))
               (ofQ 0) (ofQ 200).
Proof. unfold layoutTree. cbv zeta. now rewrite placeChild_eq. Qed.

(** *** Only positions are written *)

Lemma placeChild_erasePositions (child : MindMapNode num) :
  forall cx cy angle distance,
    erasePositions (placeChild child cx cy angle distance) = erasePositions child.
Proof.
  induction child as [child IH] using MindMapNode_tree_ind. intros.
  rewrite placeChild_unfold, (erasePositions_eq child), erasePositions_eq. simpl.
  f_equal. unfold mapi. apply map_mapi_from.
  eapply Forall_impl; [|exact IH]. intros c Hc n. apply Hc.
Qed.

Lemma layoutChildren_erasePositions (node : MindMapNode num) angle distance :
  erasePositions (layoutChildren node angle distance) = erasePositions node.
Proof.
  unfold layoutChildren. destruct (children node) as [|c cs] eqn:Hcs; [reflexivity|].
  cbv zeta. rewrite <- Hcs.
  rewrite (erasePositions_eq node), erasePositions_eq.
  unfold withChildren. cbn [id content children x y color]. f_equal.
  unfold mapi. apply map_mapi_from.
  apply Forall_forall. intros child _ n. apply placeChild_erasePositions.
Qed.

Lemma layoutTree_erasePositions w h (rootNode : MindMapNode num) :
  erasePositions (layoutTree w h rootNode) = erasePositions rootNode.
Proof.
  rewrite layoutTree_placeChild. apply placeChild_erasePositions.
Qed.

(** *** The result depends on the shape only *)

Lemma placeChild_shape (c1 : MindMapNode num) :
  forall c2, erasePositions c1 = erasePositions c2 ->
  forall cx cy angle distance,
    placeChild c1 cx cy angle distance = placeChild c2 cx cy angle distance.
Proof.
  induction c1 as [c1 IH] using MindMapNode_tree_ind. intros c2 He cx cy angle distance.
  rewrite (erasePositions_eq c1), (erasePositions_eq c2) in He.
  injection He as Hid Hcontent Hkids Hcolor.
  assert (Hlen : List.length (children c1) = List.length (children c2)).
  { rewrite <- (length_map erasePositions (children c1)), Hkids. apply length_map. }
  rewrite (placeChild_unfold c1), (placeChild_unfold c2).
  rewrite Hid, Hcontent, Hcolor, Hlen. f_equal.
  unfold mapi. apply (mapi_from_related erasePositions); [|exact Hkids].
  eapply Forall_impl; [|exact IH]. intros a1 Ha1 a2 Ha n. cbv zeta. now apply Ha1.
Qed.

Lemma layoutTree_shape w h (T1 T2 : MindMapNode num) :
  erasePositions T1 = erasePositions T2 -> layoutTree w h T1 = layoutTree w h T2.
Proof. intros He. rewrite !layoutTree_placeChild. now apply placeChild_shape. Qed.

(** *** The positions are the radial ones *)

Section Radial.
(** On numbers for which [n || 0] is [n] (no NaN, zero unsigned). *)
Hypothesis orZero_Some : forall n : num, orZero (Some n) = n.

Lemma placeChild_radial (child : MindMapNode num) :
  forall cx cy angle distance,
    RadialAt (placeChild child cx cy angle distance) cx cy angle distance.
Proof.
  induction child as [child IH] using MindMapNode_tree_ind. intros.
  constructor. intros index c Hc. rewrite placeChild_unfold in Hc.
  rewrite !orZero_Some in Hc.
  cbn [children] in Hc. rewrite mapi_nth_error in Hc.
  destruct (nth_error (children child) index) as [gc|] eqn:Hgc; [|discriminate].
  cbn [option_map] in Hc. injection Hc as <-.
  assert (Hlen : List.length (children (placeChild child cx cy angle distance))
                 = List.length (children child)).
  { rewrite placeChild_unfold. simpl. unfold mapi. apply mapi_from_length. }
  rewrite Hlen.
  split; [|split].
  - rewrite placeChild_unfold. reflexivity.
  - rewrite placeChild_unfold. reflexivity.
  - rewrite Forall_forall in IH. apply IH. eapply nth_error_In; eauto.
Qed.

Lemma layoutTree_radial w h (rootNode : MindMapNode num) :
  x (layoutTree w h rootNode) = Some (div w (ofQ 2)) /\
  y (layoutTree w h rootNode) = Some (div h (ofQ 2)) /\
  RadialAt (layoutTree w h rootNode) (div w (ofQ 2)) (div h (ofQ 2))
           (ofQ 0) (ofQ 200).
Proof.
  rewrite layoutTree_placeChild. split; [|split].
  - rewrite placeChild_unfold. reflexivity.
  - rewrite placeChild_unfold. reflexivity.
  - apply placeChild_radial.
Qed.

End Radial.
End LayoutFacts.

(** ** The layout on the store *)

Lemma Forall2_frame {A B} (R R' : A -> B -> Prop) (l : list A) :
  Forall (fun a => forall b, R a b -> R' a b) l ->
  forall l', Forall2 R l l' -> Forall2 R' l l'.
Proof.
  induction 1 as [|a l Ha _ IH]; intros l' H2; inversion H2; subst; constructor; auto.
Qed.

Section StoreFacts.
Context {num : Type} `{JsNumber num}.

Lemma LocTree_tree_ind (P : LocTree -> Prop) :
  (forall l kids, Forall P kids -> P (LNode l kids)) -> forall lt, P lt.
Proof.
  intros step. fix IH 1. intros [l kids]. apply step.
  induction kids as [|k kids IHkids]; constructor; [apply IH | exact IHkids].
Qed.

(** *** Only positions are written, on any store *)

Lemma sameButPositions_refl (h : Store num) : sameButPositions h h.
Proof. intros l. destruct (h l); auto. Qed.

Lemma sameButPositions_trans (h1 h2 h3 : Store num) :
  sameButPositions h1 h2 -> sameButPositions h2 h3 -> sameButPositions h1 h3.
Proof.
  intros H12 H23 l. specialize (H12 l). specialize (H23 l).
  destruct (h1 l), (h2 l), (h3 l); try tauto.
  destruct H12 as (? & ? & ? & ?), H23 as (? & ? & ? & ?). repeat split; congruence.
Qed.

Lemma assignXY_sameButPositions (h h1 : Store num) l nx ny :
  assignXY h l nx ny = Some h1 -> sameButPositions h h1.
Proof.
  unfold assignXY. destruct (h l) as [o|] eqn:Hl; [|discriminate].
  intros [= <-] l'. destruct (Nat.eqb_spec l' l) as [->|Hne].
  - rewrite Hl. simpl. auto.
  - destruct (h l'); auto.
Qed.

Lemma forEachChild_sameButPositions
      (recur : Store num -> nat -> num -> num -> option (Store num))
      nodeX nodeY angleStep angle distance :
  (forall h l a d h', recur h l a d = Some h' -> sameButPositions h h') ->
  forall rest index h h',
    forEachChild recur nodeX nodeY angleStep angle distance rest index h = Some h' ->
    sameButPositions h h'.
Proof.
  intros Hrecur rest. induction rest as [|child rest IH]; intros index h h' Hrun.
  - injection Hrun as <-. apply sameButPositions_refl.
  - cbn [forEachChild] in Hrun. cbv zeta in Hrun.
    destruct (assignXY h child _ _) as [h1|] eqn:H1; [|discriminate].
    destruct (recur h1 child _ _) as [h2|] eqn:H2; [|discriminate].
    eapply sameButPositions_trans; [eapply assignXY_sameButPositions; eauto|].
    eapply sameButPositions_trans; [eapply Hrecur; eauto|].
    eapply IH; eauto.
Qed.

Lemma layoutChildrenOn_sameButPositions fuel :
  forall (h : Store num) node angle distance h',
    layoutChildrenOn fuel h node angle distance = Some h' ->
    sameButPositions h h'.
Proof.
  induction fuel as [|fuel IH]; intros h node angle distance h' Hrun; [discriminate|].
  cbn [layoutChildrenOn] in Hrun.
  destruct (h node) as [o|]; [|discriminate].
  destruct (o_children o) as [|k kids].
  - injection Hrun as <-. apply sameButPositions_refl.
  - eapply forEachChild_sameButPositions; [exact IH | exact Hrun].
Qed.

(** *** On a store holding a tree, the run is [layoutChildren] of the tree *)

Lemma holds_frame (lt : LocTree) :
  forall (t : MindMapNode num) (h h' : Store num),
    (forall l, In l (locations lt) -> h' l = h l) ->
    holds h lt t -> holds h' lt t.
Proof.
  induction lt as [l kids IH] using LocTree_tree_ind.
  intros t h h' Hagree Hholds. inversion Hholds as [l0 kids0 t0 Hl Hkids]; subst.
  constructor.
  - rewrite Hagree; [exact Hl | now left].
  - revert Hkids. apply Forall2_frame. apply Forall_forall. intros k Hk c Hc.
    rewrite Forall_forall in IH. apply (IH k Hk c h h'); [|exact Hc].
    intros l' Hl'. apply Hagree. right. apply in_flat_map. eauto.
Qed.

Lemma holds_frame_all (ks : list LocTree) (cs : list (MindMapNode num))
                      (h h' : Store num) :
  (forall l, In l (flat_map locations ks) -> h' l = h l) ->
  Forall2 (holds h) ks cs -> Forall2 (holds h') ks cs.
Proof.
  intros Hagree. apply Forall2_frame. apply Forall_forall. intros k Hk c Hc.
  apply (holds_frame k c h h'); [|exact Hc].
  intros l Hl. apply Hagree. apply in_flat_map. eauto.
Qed.

Lemma forEachChild_refines fuel nodeX nodeY angleStep angle distance
                           (ks : list LocTree) :
  Forall (layoutRunsAt fuel) ks ->
  forall (cs : list (MindMapNode num)) index (h : Store num),
    Forall2 (holds h) ks cs ->
    NoDup (flat_map locations ks) ->
    Forall (fun k => (height k <= fuel)%nat) ks ->
    exists h',
      forEachChild (layoutChildrenOn fuel) nodeX nodeY angleStep angle distance
                   (map rootLoc ks) index h = Some h' /\
      Forall2 (holds h') ks
        (mapi_from (fun index child =>
                      let childAngle := add angle (mul (ofNat index) angleStep) in
                      placeChild child
                        (add nodeX (mul (Math_cos childAngle) distance))
                        (add nodeY (mul (Math_sin childAngle) distance))
                        childAngle (mul distance (ofQ (8 # 10))))
                   index cs) /\
      (forall l, ~ In l (flat_map locations ks) -> h' l = h l).
Proof.
  induction 1 as [|k ks Hk _ IH]; intros cs index h H2 Hnd Hht.
  - inversion H2; subst. exists h. simpl. repeat split; constructor.
  - inversion H2 as [|k' c ks' cs' Hkc Hrest]; subst.
    cbn [flat_map] in Hnd.
    assert (Hndk : NoDup (locations k)) by (eapply NoDup_app_remove_r; eauto).
    assert (Hndks : NoDup (flat_map locations ks))
      by (eapply NoDup_app_remove_l; eauto).
    inversion Hht as [|k' ks' Hhk Hhks]; subst.
    destruct k as [lk kk]. inversion Hkc as [l0 kids0 t0 Hlk Hkk]; subst.
    cbn [map rootLoc forEachChild]. cbv zeta.
    set (childAngle := add angle (mul (ofNat index) angleStep)).
    set (cx := add nodeX (mul (Math_cos childAngle) distance)).
    set (cy := add nodeY (mul (Math_sin childAngle) distance)).
    unfold assignXY. rewrite Hlk. cbn [o_id o_content o_children o_color].
    set (h1 := fun l' : nat =>
                 if (l' =? lk)%nat
                 then Some (mkObject (id c) (content c) (map rootLoc kk)
                                     (Some cx) (Some cy) (color c))
                 else h l').
    assert (Hlk_out : ~ In lk (flat_map locations kk)).
    { cbn [locations] in Hndk. now inversion Hndk. }
    assert (H1 : holds h1 (LNode lk kk) (withXY c cx cy)).
    { constructor.
      - unfold h1. now rewrite Nat.eqb_refl.
      - cbn [children withXY]. apply (holds_frame_all kk (children c) h h1); [|exact Hkk].
        intros l Hl. unfold h1.
        destruct (Nat.eqb_spec l lk) as [->|]; [contradiction | reflexivity]. }
    destruct (Hk (withXY c cx cy) h1 childAngle (mul distance (ofQ (8 # 10)))
                 H1 Hndk Hhk) as (h2 & Hrun & H2' & Hout2).
    cbn [rootLoc kidsOf] in Hrun, Hout2. rewrite Hrun.
    assert (Hsib : Forall2 (holds h2) ks cs').
    { apply (holds_frame_all ks cs' h h2); [|exact Hrest].
      intros l Hl.
      assert (Hnotk : ~ In l (locations (LNode lk kk))).
      { intros Hin. exact (NoDup_app_disjoint _ _ l Hnd Hin Hl). }
      cbn [locations] in Hnotk.
      rewrite Hout2 by (intros Hin; apply Hnotk; now right).
      unfold h1. destruct (Nat.eqb_spec l lk) as [->|]; [|reflexivity].
      exfalso. apply Hnotk. now left. }
    destruct (IH cs' (S index) h2 Hsib Hndks Hhks) as (h' & Hloop & Hall & Hout).
    exists h'. split; [exact Hloop|]. split.
    + cbn [mapi_from]. constructor; [|exact Hall].
      apply (holds_frame (LNode lk kk) _ h2 h').
      * intros l Hl. apply Hout. intros Hin.
        exact (NoDup_app_disjoint _ _ l Hnd Hl Hin).
      * fold childAngle cx cy. rewrite placeChild_eq. exact H2'.
    + intros l Hl. cbn [flat_map] in Hl.
      rewrite Hout by (intros Hin; apply Hl; apply in_or_app; now right).
      rewrite Hout2.
      * unfold h1. destruct (Nat.eqb_spec l lk) as [->|]; [|reflexivity].
        exfalso. apply Hl. apply in_or_app. left. now left.
      * intros Hin. apply Hl. apply in_or_app. left. now right.
Qed.

(** With fuel for its height, the run on a store that holds tree [t]
    without sharing ends, leaves a store that holds [layoutChildren t] at
    the same locations, and touches nothing outside the tree's children. *)
Lemma layoutChildrenOn_refines (lt : LocTree) :
  forall fuel, layoutRunsAt fuel lt.
Proof.
  induction lt as [l kids IH] using LocTree_tree_ind.
  intros fuel t h angle distance Hholds Hnd Hfuel.
  inversion Hholds as [l0 kids0 t0 Hl Hkids]; subst.
  cbn [height] in Hfuel. destruct fuel as [|fuel]; [lia|].
  cbn [layoutChildrenOn rootLoc kidsOf]. rewrite Hl. cbn [o_children o_x o_y].
  destruct kids as [|k ks].
  - exists h. split; [reflexivity|]. split; [|auto].
    unfold layoutChildren. destruct (children t); [exact Hholds | inversion Hkids].
  - cbn [locations] in Hnd. inversion Hnd as [|? ? Hroot Hndkids]; subst.
    assert (Hheights : Forall (fun k0 => (height k0 <= fuel)%nat) (k :: ks)).
    { apply Forall_forall. intros k0 Hk0.
      assert (Hmax : (list_max (map height (k :: ks)) <= fuel)%nat) by lia.
      rewrite list_max_le, Forall_forall in Hmax. apply Hmax. now apply in_map. }
    assert (IHfuel : Forall (layoutRunsAt fuel) (k :: ks)).
    { eapply Forall_impl; [|exact IH]. intros k0 Hk0. apply Hk0. }
    change (map rootLoc (k :: ks)) with (rootLoc k :: map rootLoc ks) at 1.
    cbv iota beta.
    change (rootLoc k :: map rootLoc ks) with (map rootLoc (k :: ks)).
    destruct (forEachChild_refines fuel (orZero (x t)) (orZero (y t))
                (div (mul Math_PI (ofQ 2))
                     (ofNat (List.length (map rootLoc (k :: ks)))))
                angle distance (k :: ks) IHfuel (children t) 0%nat h
                Hkids Hndkids Hheights) as (h' & Hrun & Hall & Hout).
    exists h'. split; [exact Hrun|]. split; [|exact Hout].
    assert (Hlen : List.length (map rootLoc (k :: ks)) = List.length (children t)).
    { rewrite length_map. eapply Forall2_length; eauto. }
    rewrite Hlen in Hall.
    unfold layoutChildren. destruct (children t) as [|c cs] eqn:Hcs.
    + inversion Hkids.
    + cbv zeta. constructor.
      * rewrite Hout by exact Hroot. exact Hl.
      * exact Hall.
Qed.

(** The whole pass on the store: the copy of the root at a fresh location
    ends up holding [layoutTree] of the tree. *)
Lemma layoutMindMapOn_refines fuel (h : Store num) root fresh kids
                              (t : MindMapNode num) w hg :
  holds h (LNode root kids) t ->
  NoDup (flat_map locations kids) ->
  ~ In fresh (flat_map locations kids) ->
  (height (LNode root kids) <= fuel)%nat ->
  exists h',
    layoutMindMapOn fuel h root fresh w hg = Some (h', fresh) /\
    holds h' (LNode fresh kids) (layoutTree w hg t) /\
    (forall l, l <> fresh -> ~ In l (flat_map locations kids) -> h' l = h l).
Proof.
  intros Hholds Hnd Hfresh Hfuel.
  inversion Hholds as [l0 kids0 t0 Hl Hkids]; subst.
  unfold layoutMindMapOn. rewrite Hl. cbn [o_id o_content o_children o_color].
  cbv zeta.
  set (cx := div w (ofQ 2)). set (cy := div hg (ofQ 2)).
  set (h0 := fun l : nat =>
               if (l =? fresh)%nat
               then Some (mkObject (id t) (content t) (map rootLoc kids)
                                   (Some cx) (Some cy) (color t))
               else h l).
  assert (H0 : holds h0 (LNode fresh kids) (withXY t cx cy)).
  { constructor.
    - unfold h0. now rewrite Nat.eqb_refl.
    - cbn [children withXY]. apply (holds_frame_all kids (children t) h h0); [|exact Hkids].
      intros l Hin. unfold h0.
      destruct (Nat.eqb_spec l fresh) as [->|]; [contradiction | reflexivity]. }
  destruct (layoutChildrenOn_refines (LNode fresh kids) fuel (withXY t cx cy) h0
              (ofQ 0) (ofQ 200) H0) as (h' & Hrun & Hres & Hout).
  - cbn [locations]. now constructor.
  - exact Hfuel.
  - cbn [rootLoc kidsOf] in Hrun, Hout. rewrite Hrun. exists h'.
    split; [reflexivity|]. split; [exact Hres|].
    intros l Hne Hout_l. rewrite Hout by exact Hout_l. unfold h0.
    destruct (Nat.eqb_spec l fresh); [contradiction | reflexivity].
Qed.

End StoreFacts.

(** ** The handlers on the page state *)

Section PageFacts.
Context {num : Type} `{JsNumber num}.

Lemma rootNode_deleteNode nodeId (s : PageState num) :
  rootNode (deleteNode nodeId s) =
  if nodeId =? "root" then rootNode s else removeNodeFromTree nodeId (rootNode s).
Proof. unfold deleteNode. now destruct (nodeId =? "root"). Qed.

Lemma rootNode_addChildNode now pick parentId (s : PageState num) :
  rootNode (addChildNode now pick parentId s) =
  addChildToNode parentId (newNode now pick) (rootNode s).
Proof. reflexivity. Qed.

Lemma rootNode_saveNodeEdit (s : PageState num) :
  rootNode (saveNodeEdit s) =
  match editingNodeId s with
  | None => rootNode s
  | Some eid =>
      if eid =? "" then rootNode s
      else updateNodeContent eid (editNodeContent s) (rootNode s)
  end.
Proof.
  unfold saveNodeEdit. destruct (editingNodeId s) as [eid|]; [|reflexivity].
  destruct eid; reflexivity.
Qed.

(** C1.  Deleting through [deleteNode]: on a tree whose root carries the
    fixed identifier ["root"], for every identifier other than the root's
    the resulting tree has no node with that identifier (the node and its
    subtree are gone, at any depth); and when the identifier is the root's
    the tree is returned unchanged. *)
Theorem deleteNode_removes_subtree (s : PageState num) (nodeId : string) :
  id (rootNode s) = "root" ->
  In nodeId (ids (rootNode s)) ->
  (nodeId <> id (rootNode s) ->
     ~ In nodeId (ids (rootNode (deleteNode nodeId s)))) /\
  (nodeId = id (rootNode s) ->
     rootNode (deleteNode nodeId s) = rootNode s).
Proof.
  intros Hroot _. rewrite rootNode_deleteNode. split.
  - intros Hne. rewrite Hroot in Hne. apply String.eqb_neq in Hne as Hb.
    rewrite Hb. apply removeNodeFromTree_ids. congruence.
  - intros ->. rewrite Hroot. reflexivity.
Qed.

(** C8.  Adding under an identifier that no node carries: the tree is
    returned as it was, by [addChildToNode] for any node to add and hence
    by [addChildNode]; the only toast raised is the plain "Node Added"
    one, none is an error. *)
Theorem addChildNode_absent_parent (s : PageState num) (now : Z) (pick : nat)
                                   (parentId : string) :
  ~ In parentId (ids (rootNode s)) ->
  (forall added, addChildToNode parentId added (rootNode s) = rootNode s) /\
  rootNode (addChildNode now pick parentId s) = rootNode s /\
  exists t, toasts (addChildNode now pick parentId s) = toasts s ++ [t] /\
            variant t = None.
Proof.
  intros Habs. split; [|split].
  - intros added. now apply addChildToNode_absent.
  - rewrite rootNode_addChildNode. now apply addChildToNode_absent.
  - eexists. split; reflexivity.
Qed.

(** C6.  Renaming through [updateNodeContent], the traversal of
    [saveNodeEdit]: apart from contents the tree is what it was
    (identifiers, colours, positions, children lists and their order);
    a node whose identifier differs from the edited one keeps its content;
    on a tree with pairwise distinct identifiers the node carrying the
    edited identifier receives the new content; an identifier carried by
    no node leaves the tree as it was.  [saveNodeEdit] installs exactly
    this tree, or keeps the old one when no node is being edited. *)
Theorem updateNodeContent_content_only (eid c : string) (T : MindMapNode num) :
  let T' := updateNodeContent eid c T in
  eraseContents T' = eraseContents T /\
  (forall path n n',
      subtreeAt path T = Some n -> subtreeAt path T' = Some n' ->
      id n <> eid -> content n' = content n) /\
  (NoDup (ids T) ->
   forall path n,
      subtreeAt path T = Some n -> id n = eid ->
      subtreeAt path T' = Some (withContent n c)) /\
  (~ In eid (ids T) -> T' = T) /\
  (forall s : PageState num,
      rootNode s = T -> editingNodeId s = Some eid -> editNodeContent s = c ->
      rootNode (saveNodeEdit s) = T' \/ rootNode (saveNodeEdit s) = T).
Proof.
  cbv zeta. split; [|split; [|split; [|split]]].
  - apply updateNodeContent_eraseContents.
  - intros path n n'. apply updateNodeContent_other_content.
  - intros Hnd path n. now apply updateNodeContent_located.
  - apply updateNodeContent_absent.
  - intros s HT He Hc. rewrite rootNode_saveNodeEdit, He, HT, Hc.
    destruct (eid =? ""); auto.
Qed.

(** C2 (as amended).  On a tree whose identifiers are pairwise distinct,
    adding under a present identifier yields exactly one more node; the
    added node has the fixed content ["New Idea"], no children, and is the
    last child of the node carrying that identifier. *)
Theorem addChildNode_adds_one_node (s : PageState num) (now : Z) (pick : nat)
                                   (parentId : string) :
  NoDup (ids (rootNode s)) ->
  In parentId (ids (rootNode s)) ->
  addChildSpec "New Idea" now pick parentId s.
Proof.
  intros Hnd Hin. unfold addChildSpec. cbv zeta. rewrite rootNode_addChildNode. split.
  - rewrite addChildToNode_count by assumption. simpl. lia.
  - exists (newNode now pick). split; [reflexivity|]. split; [reflexivity|].
    unfold appendedUnder. now apply addChildToNode_located.
Qed.

Lemma newNode_not_root now pick :
  count_occ string_dec (ids (newNode (num:=num) now pick)) "root" = 0%nat.
Proof.
  unfold newNode. cbn [ids id children flat_map count_occ].
  destruct (string_dec _ "root") as [e|]; [discriminate e | reflexivity].
Qed.

Lemma layoutTree_ids w h (T : MindMapNode num) : ids (layoutTree w h T) = ids T.
Proof.
  rewrite <- (erasePositions_ids (layoutTree w h T)), layoutTree_erasePositions.
  apply erasePositions_ids.
Qed.

Lemma layoutTree_id w h (T : MindMapNode num) : id (layoutTree w h T) = id T.
Proof. rewrite layoutTree_placeChild, placeChild_unfold. reflexivity. Qed.

(** C9.  The root invariant: the default tree has a root with identifier
    ["root"], the only node with that identifier, and every handler that
    reaches the tree (adding, deleting, editing, saving an edit, layout,
    reset) keeps it so: the root is never removed and never renamed. *)
Theorem rootInvariant_preserved :
  rootInvariant (initialState (num:=num) defaultRoot) /\
  forall (a : Action num) (s : PageState num),
    rootInvariant s -> rootInvariant (step a s).
Proof.
  split; [split; reflexivity|].
  intros a s [Hid Hone]. unfold rootInvariant.
  destruct a as [now pick parentId | nodeId | node | v | | canvas | ]; simpl.
  - rewrite addChildToNode_id, addChildToNode_count_occ; auto using newNode_not_root.
  - rewrite rootNode_deleteNode. destruct (nodeId =? "root"); [auto|].
    rewrite removeNodeFromTree_id. split; [exact Hid|].
    pose proof (removeNodeFromTree_count_occ nodeId (rootNode s) "root") as Hle.
    assert (Hge : (1 <= count_occ string_dec
                          (ids (removeNodeFromTree nodeId (rootNode s))) "root")%nat).
    { rewrite ids_eq, removeNodeFromTree_id, Hid. simpl. lia. }
    lia.
  - auto.
  - auto.
  - rewrite rootNode_saveNodeEdit. destruct (editingNodeId s) as [eid|]; [|auto].
    destruct (eid =? ""); [auto|].
    now rewrite updateNodeContent_id, updateNodeContent_ids.
  - destruct canvas as [[w h]|]; simpl; [|auto].
    now rewrite layoutTree_id, layoutTree_ids.
  - split; reflexivity.
Qed.

(** C10.  The layout writes positions only.  On the store, whatever it
    holds, a run of [layoutChildren] leaves every object with the
    identifier, content, colour and children list it had: only [x] and [y]
    are assigned.  On trees, [layoutChildren] leaves the node it is called
    on untouched but for its children, and with positions forgotten the
    tree after [layoutChildren], and after the whole layout pass, is the
    tree before it. *)
Theorem layout_writes_positions_only :
  (forall fuel (st : Store num) node angle distance st',
      layoutChildrenOn fuel st node angle distance = Some st' ->
      sameButPositions st st') /\
  (forall (node : MindMapNode num) angle distance,
      erasePositions (layoutChildren node angle distance) = erasePositions node /\
      x (layoutChildren node angle distance) = x node /\
      y (layoutChildren node angle distance) = y node) /\
  (forall w h (node : MindMapNode num),
      erasePositions (layoutTree w h node) = erasePositions node) /\
  (forall canvas (s : PageState num),
      erasePositions (rootNode (layoutMindMap canvas s)) = erasePositions (rootNode s)).
Proof.
  split; [|split; [|split]].
  - intros fuel. apply layoutChildrenOn_sameButPositions.
  - intros node angle distance. split; [|split].
    + apply layoutChildren_erasePositions.
    + unfold layoutChildren. now destruct (children node).
    + unfold layoutChildren. now destruct (children node).
  - intros w h node. apply layoutTree_erasePositions.
  - intros [[w h]|] s; simpl; [apply layoutTree_erasePositions | reflexivity].
Qed.

(** C4.  The layout is a function of the tree's shape and the container
    size: two trees that differ in stored positions only receive the same
    positions, so stored positions never matter; laying out twice is laying
    out once, on trees and on the page state; and the pass as it runs on
    the store, on a tree held without sharing, ends with the new root
    holding exactly that function of the tree. *)
Theorem layout_deterministic_idempotent (w h : num) (T : MindMapNode num) :
  (forall T2, erasePositions T = erasePositions T2 ->
              layoutTree w h T = layoutTree w h T2) /\
  layoutTree w h (layoutTree w h T) = layoutTree w h T /\
  (forall canvas (s : PageState num),
      layoutMindMap canvas (layoutMindMap canvas s) = layoutMindMap canvas s) /\
  (forall fuel (st : Store num) root fresh kids,
      holds st (LNode root kids) T ->
      NoDup (flat_map locations kids) ->
      ~ In fresh (flat_map locations kids) ->
      (height (LNode root kids) <= fuel)%nat ->
      exists st',
        layoutMindMapOn fuel st root fresh w h = Some (st', fresh) /\
        holds st' (LNode fresh kids) (layoutTree w h T)).
Proof.
  assert (Hidem : forall T0 : MindMapNode num,
             layoutTree w h (layoutTree w h T0) = layoutTree w h T0).
  { intros T0. apply layoutTree_shape, layoutTree_erasePositions. }
  split; [|split; [|split]].
  - intros T2. apply layoutTree_shape.
  - apply Hidem.
  - intros [[w' h']|] s; [|reflexivity].
    unfold layoutMindMap, setRootNode. simpl. f_equal.
    apply layoutTree_shape, layoutTree_erasePositions.
  - intros fuel st root fresh kids Hholds Hnd Hfresh Hfuel.
    destruct (layoutMindMapOn_refines fuel st root fresh kids T w h
                Hholds Hnd Hfresh Hfuel) as (st' & Hrun & Hres & _).
    eauto.
Qed.

End PageFacts.

(** A present, non-root identifier is deleted from [sampleTree]. *)
Lemma deleteNode_removes_subtree_witness :
  ~ In "node-1" (ids (rootNode (deleteNode "node-1" (initialState sampleTree)))) /\
  rootNode (deleteNode "root" (initialState sampleTree)) = sampleTree.
Proof.
  pose proof (deleteNode_removes_subtree (initialState sampleTree) "node-1"
                eq_refl) as H1.
  pose proof (deleteNode_removes_subtree (initialState sampleTree) "root"
                eq_refl) as H2.
  split.
  - apply H1; [simpl; tauto | discriminate].
  - apply H2; [simpl; tauto | reflexivity].
Defined.

Lemma addChildNode_absent_parent_witness :
  rootNode (addChildNode 1700000000000 2 "node-9" (initialState sampleTree))
  = sampleTree.
Proof.
  apply (addChildNode_absent_parent (initialState sampleTree) 1700000000000 2 "node-9").
  simpl. intros H. repeat (destruct H as [H|H]; [discriminate H|]). exact H.
Defined.

(** ** The layout over the reals *)

(** Reads the interface's operations as the real ones. *)
Ltac R_ops :=
  cbn [add mul div Math_cos Math_sin Math_PI ofQ isFalsy R_JsNumber] in *.

Lemma Q2R_0 : Q2R 0 = 0%R.
Proof. unfold Q2R. simpl. lra. Qed.

Lemma Q2R_2 : Q2R 2 = 2%R.
Proof. unfold Q2R. simpl. lra. Qed.

Lemma Q2R_200 : Q2R 200 = 200%R.
Proof. unfold Q2R. simpl. lra. Qed.

Lemma R_orZero_Some (r : R) : orZero (Some r) = r.
Proof.
  unfold orZero. simpl. destruct (Req_dec_T r 0) as [->|]; [apply Q2R_0 | reflexivity].
Qed.

Lemma R_quarter_turn (index : nat) :
  (Q2R 0 + Q2R (inject_Z (Z.of_nat index)) * (PI * Q2R 2 / Q2R (inject_Z (Z.of_nat 4)))
   = INR index * (PI / 2))%R.
Proof.
  rewrite Q2R_0, Q2R_2, INR_IZR_INZ. unfold Q2R. simpl. field.
Qed.

(** C3.  The radial layout over real arithmetic.  The root is placed at the
    centre of the container; every node's [k] children sit at angles
    [angle + index * (2 pi / k)] ([angle] being the node's own incoming
    angle, [0] for the root) at the current distance from the node, which
    starts at 200 and is multiplied by 0.8 per level.  A root with four
    children has them at angles 0, pi/2, pi and 3 pi/2 at radius 200, and every
    grandchild of the root is at radius 160 from its parent. *)
Theorem radial_layout_positions (w h : R) (T : MindMapNode R) :
  let T' := layoutTree w h T in
  x T' = Some (w / 2)%R /\ y T' = Some (h / 2)%R /\
  RadialAt T' (w / 2)%R (h / 2)%R 0%R 200%R /\
  (forall c0 c1 c2 c3,
      children T = [c0; c1; c2; c3] ->
      forall index child,
        nth_error (children T') index = Some child ->
        x child = Some (w / 2 + 200 * cos (INR index * (PI / 2)))%R /\
        y child = Some (h / 2 + 200 * sin (INR index * (PI / 2)))%R) /\
  (forall i child j grandchild,
      nth_error (children T') i = Some child ->
      nth_error (children child) j = Some grandchild ->
      exists cx cy theta,
        x child = Some cx /\ y child = Some cy /\
        x grandchild = Some (cx + 160 * cos theta)%R /\
        y grandchild = Some (cy + 160 * sin theta)%R).
Proof.
  cbv zeta.
  destruct (layoutTree_radial R_orZero_Some w h T) as (Hx & Hy & Hrad).
  change (div w (ofQ 2)) with (w / Q2R 2)%R in *.
  change (div h (ofQ 2)) with (h / Q2R 2)%R in *.
  change (ofQ 0 : R) with (Q2R 0) in Hrad. change (ofQ 200 : R) with (Q2R 200) in Hrad.
  rewrite Q2R_2 in *. rewrite Q2R_0, Q2R_200 in Hrad.
  split; [exact Hx|]. split; [exact Hy|]. split; [exact Hrad|]. split.
  - intros c0 c1 c2 c3 Hkids index child Hchild.
    inversion Hrad as [node px py angle distance Hall]; subst.
    destruct (Hall index child Hchild) as (Hcx & Hcy & _).
    assert (Hlen : List.length (children (layoutTree w h T)) = 4%nat).
    { rewrite layoutTree_placeChild, placeChild_unfold. cbn [children].
      unfold mapi. rewrite mapi_from_length, Hkids. reflexivity. }
    rewrite Hlen in Hcx, Hcy.
    assert (Hangle :
      add 0%R (mul (ofNat index) (div (mul Math_PI (ofQ 2)) (ofNat 4)))
      = (INR index * (PI / 2))%R).
    { rewrite <- R_quarter_turn, Q2R_0. reflexivity. }
    rewrite Hangle in Hcx, Hcy. rewrite Hcx, Hcy.
    split; f_equal; R_ops; lra.
  - intros i child j grandchild Hchild Hgrand.
    inversion Hrad as [node px py angle distance Hall]; subst.
    destruct (Hall i child Hchild) as (Hcx & Hcy & Hsub).
    inversion Hsub as [node px py angle distance Hall']; subst.
    destruct (Hall' j grandchild Hgrand) as (Hgx & Hgy & _).
    eexists _, _, _. split; [exact Hcx|]. split; [exact Hcy|].
    rewrite Hgx, Hgy. R_ops.
    assert (Hd : (200 * Q2R (8 # 10) = 160)%R) by (unfold Q2R; simpl; lra).
    rewrite Hd, (Rmult_comm (cos _) 160), (Rmult_comm (sin _) 160).
    split; reflexivity.
Qed.

(** ** JSON text: strings, whitespace and numbers *)

Lemma append_assoc (a b c : string) : ((a ++ b) ++ c = a ++ (b ++ c))%string.
Proof. induction a as [|ch a IH]; simpl; [reflexivity|]. now rewrite IH. Qed.

Lemma append_nil_r (a : string) : (a ++ EmptyString = a)%string.
Proof. induction a as [|ch a IH]; simpl; [reflexivity|]. now rewrite IH. Qed.

Lemma length_append (a b : string) :
  String.length (a ++ b) = (String.length a + String.length b)%nat.
Proof. induction a as [|ch a IH]; simpl; [reflexivity|]. now rewrite IH. Qed.

Ltac each_ascii c := destruct c as [[] [] [] [] [] [] [] []].

(** Brings both sides of an equation between texts to right-nested form. *)
Ltac text_assoc :=
  repeat (progress (cbn [append]; rewrite ?append_assoc)); reflexivity.

Lemma skipWhitespace_app (ws s : string) :
  allWhitespace ws = true -> skipWhitespace (ws ++ s) = skipWhitespace s.
Proof.
  induction ws as [|c ws IH]; simpl; [reflexivity|].
  intros Hws. apply andb_true_iff in Hws as [Hc Hrest]. rewrite Hc. auto.
Qed.

Lemma allWhitespace_app (a b : string) :
  allWhitespace a = true -> allWhitespace b = true -> allWhitespace (a ++ b) = true.
Proof.
  induction a as [|c a IH]; simpl; [auto|].
  intros Ha Hb. apply andb_true_iff in Ha as [Hc Ha]. rewrite Hc. simpl. auto.
Qed.

Lemma allWhitespace_spaces n : allWhitespace (spaces n) = true.
Proof. induction n; simpl; auto. Qed.

Lemma allWhitespace_lineBreak gap indent :
  allWhitespace indent = true -> allWhitespace (lineBreak gap indent) = true.
Proof. unfold lineBreak. destruct (gap =? EmptyString); simpl; auto. Qed.

Lemma isValueStart_not_whitespace c :
  isValueStart c = true ->
  isWhitespace c = false /\ (c =? "]")%char = false /\ (c =? "}")%char = false.
Proof. each_ascii c; intros Hc; try discriminate Hc; repeat split. Qed.

(** *** String literals *)

Lemma parseStringBody_escapeChar (c : ascii) (r : string) :
  parseStringBody (escapeChar c ++ r) = consResult (String c EmptyString) (parseStringBody r).
Proof. each_ascii c; reflexivity. Qed.

Lemma parseStringBody_escapeString (s rest : string) :
  parseStringBody (escapeString s ++ String dquote rest) = Some (s, rest).
Proof.
  induction s as [|c s IH]; simpl; [reflexivity|].
  now rewrite append_assoc, parseStringBody_escapeChar, IH.
Qed.

(** *** Number literals *)

Lemma spanDigits_app (s rest : string) :
  endsNumber rest = true ->
  forall ds r, spanDigits s = (ds, r) -> spanDigits (s ++ rest) = (ds, (r ++ rest)%string).
Proof.
  intros Hrest. induction s as [|c s IH]; simpl; intros ds r Hs.
  - injection Hs as <- <-. simpl. destruct rest as [|c rest]; [reflexivity|].
    simpl in *. destruct (isDigit c); [discriminate | reflexivity].
  - destruct (isDigit c).
    + destruct (spanDigits s) as [ds' r'] eqn:Hspan. injection Hs as <- <-.
      now rewrite (IH ds' r' eq_refl).
    + injection Hs as <- <-. reflexivity.
Qed.

Lemma scanInteger_app (s rest : string) :
  endsNumber rest = true ->
  forall lit r, scanInteger s = Some (lit, r) ->
                scanInteger (s ++ rest) = Some (lit, (r ++ rest)%string).
Proof.
  intros Hrest lit r. destruct s as [|c s]; simpl; [discriminate|].
  destruct (c =? "0")%char; [intros [= <- <-]; reflexivity|].
  destruct (isDigit c); [|discriminate].
  destruct (spanDigits s) as [ds r'] eqn:Hspan. intros [= <- <-].
  now rewrite (spanDigits_app s rest Hrest ds r' Hspan).
Qed.

Lemma scanExponentDigits_app (mark s rest : string) :
  endsNumber rest = true ->
  forall lit r, scanExponentDigits mark s = Some (lit, r) ->
                scanExponentDigits mark (s ++ rest) = Some (lit, (r ++ rest)%string).
Proof.
  intros Hrest lit r. unfold scanExponentDigits.
  destruct (spanDigits s) as [ds r'] eqn:Hspan.
  rewrite (spanDigits_app s rest Hrest ds r' Hspan).
  destruct ds; [discriminate|]. now intros [= <- <-].
Qed.

Lemma scanFraction_app (s rest : string) :
  endsNumber rest = true ->
  forall lit r, scanFraction s = Some (lit, r) ->
                scanFraction (s ++ rest) = Some (lit, (r ++ rest)%string).
Proof.
  intros Hrest lit r. destruct s as [|c s].
  - simpl. intros [= <- <-]. destruct rest as [|c rest]; [reflexivity|].
    simpl in Hrest. each_ascii c; try discriminate Hrest; reflexivity.
  - assert (Hdot : (c = "."%char /\
                    scanFraction (String c s) =
                    match spanDigits s with
                    | (EmptyString, _) => None
                    | (ds, r0) => Some (String "." ds, r0)
                    end /\
                    scanFraction (String c s ++ rest) =
                    match spanDigits (s ++ rest) with
                    | (EmptyString, _) => None
                    | (ds, r0) => Some (String "." ds, r0)
                    end) \/
                   (scanFraction (String c s) = Some (EmptyString, String c s) /\
                    scanFraction (String c s ++ rest)
                    = Some (EmptyString, (String c s ++ rest)%string))).
    { each_ascii c; (left; repeat split; reflexivity) || (right; split; reflexivity). }
    destruct Hdot as [(-> & -> & ->) | (-> & ->)]; [|now intros [= <- <-]].
    destruct (spanDigits s) as [ds r'] eqn:Hspan.
    rewrite (spanDigits_app s rest Hrest ds r' Hspan).
    destruct ds; [discriminate|]. now intros [= <- <-].
Qed.

Lemma scanExponent_app (s rest : string) :
  endsNumber rest = true ->
  forall lit r, scanExponent s = Some (lit, r) ->
                scanExponent (s ++ rest) = Some (lit, (r ++ rest)%string).
Proof.
  intros Hrest lit r. destruct s as [|c s].
  - simpl. intros [= <- <-]. destruct rest as [|c rest]; [reflexivity|].
    simpl in *. destruct ((c =? "e") || (c =? "E"))%char eqn:He; [|reflexivity].
    exfalso. destruct (isDigit c), (c =? ".")%char, (c =? "e")%char, (c =? "E")%char;
      simpl in *; discriminate.
  - simpl. destruct ((c =? "e") || (c =? "E"))%char; [|now intros [= <- <-]].
    destruct s as [|sg s]; [discriminate|]. simpl.
    destruct ((sg =? "+") || (sg =? "-"))%char.
    + apply scanExponentDigits_app; assumption.
    + apply (scanExponentDigits_app _ (String sg s)); assumption.
Qed.

Lemma scanUnsigned_app (s rest : string) :
  endsNumber rest = true ->
  forall lit r, scanUnsigned s = Some (lit, r) ->
                scanUnsigned (s ++ rest) = Some (lit, (r ++ rest)%string).
Proof.
  intros Hrest lit r. unfold scanUnsigned.
  destruct (scanInteger s) as [[int s1]|] eqn:Hint; [|discriminate].
  rewrite (scanInteger_app s rest Hrest int s1 Hint).
  destruct (scanFraction s1) as [[frac s2]|] eqn:Hfrac; [|discriminate].
  rewrite (scanFraction_app s1 rest Hrest frac s2 Hfrac).
  destruct (scanExponent s2) as [[exp s3]|] eqn:Hexp; [|discriminate].
  rewrite (scanExponent_app s2 rest Hrest exp s3 Hexp).
  now intros [= <- <-].
Qed.

Lemma scanNumber_app (s rest : string) :
  endsNumber rest = true ->
  forall lit r, scanNumber s = Some (lit, r) ->
                scanNumber (s ++ rest) = Some (lit, (r ++ rest)%string).
Proof.
  intros Hrest lit r. destruct s as [|c s]; [discriminate|].
  assert (Hminus : (c = "-"%char) \/
                   (scanNumber (String c s) = scanUnsigned (String c s) /\
                    scanNumber (String c s ++ rest) = scanUnsigned (String c s ++ rest))).
  { each_ascii c; (left; reflexivity) || (right; split; reflexivity). }
  destruct Hminus as [-> | [-> ->]]; [|now apply scanUnsigned_app].
  simpl. destruct (scanUnsigned s) as [[lit' r']|] eqn:Hu; [|discriminate].
  rewrite (scanUnsigned_app s rest Hrest lit' r' Hu). now intros [= <- <-].
Qed.

Lemma spanDigits_split (s : string) :
  forall ds r, spanDigits s = (ds, r) -> s = (ds ++ r)%string.
Proof.
  induction s as [|c s IH]; simpl; intros ds r Hs.
  - now injection Hs as <- <-.
  - destruct (isDigit c).
    + destruct (spanDigits s) as [ds' r'] eqn:Hspan. injection Hs as <- <-.
      simpl. now rewrite <- (IH ds' r' eq_refl).
    + now injection Hs as <- <-.
Qed.

Lemma scanInteger_split (s lit r : string) :
  scanInteger s = Some (lit, r) -> s = (lit ++ r)%string.
Proof.
  destruct s as [|c s]; simpl; [discriminate|].
  destruct (c =? "0")%char; [now intros [= <- <-]|].
  destruct (isDigit c); [|discriminate].
  destruct (spanDigits s) as [ds r'] eqn:Hspan. intros [= <- <-].
  simpl. now rewrite <- (spanDigits_split s ds r' Hspan).
Qed.

Lemma scanExponentDigits_split (mark s lit r : string) :
  scanExponentDigits mark s = Some (lit, r) -> (mark ++ s = lit ++ r)%string.
Proof.
  unfold scanExponentDigits. destruct (spanDigits s) as [ds r'] eqn:Hspan.
  destruct ds; [discriminate|]. intros [= <- <-].
  now rewrite (spanDigits_split s _ r' Hspan), append_assoc.
Qed.

Lemma scanFraction_split (s lit r : string) :
  scanFraction s = Some (lit, r) -> s = (lit ++ r)%string.
Proof.
  destruct s as [|c s]; [now intros [= <- <-]|].
  assert (Hdot : (c = "."%char /\
                  scanFraction (String c s) =
                  match spanDigits s with
                  | (EmptyString, _) => None
                  | (ds, r0) => Some (String "." ds, r0)
                  end) \/
                 scanFraction (String c s) = Some (EmptyString, String c s)).
  { each_ascii c; (left; split; reflexivity) || (right; reflexivity). }
  destruct Hdot as [(-> & ->) | ->]; [|now intros [= <- <-]].
  destruct (spanDigits s) as [ds r'] eqn:Hspan.
  destruct ds; [discriminate|]. intros [= <- <-].
  simpl. now rewrite (spanDigits_split s _ r' Hspan).
Qed.

Lemma scanExponent_split (s lit r : string) :
  scanExponent s = Some (lit, r) -> s = (lit ++ r)%string.
Proof.
  destruct s as [|c s]; [now intros [= <- <-]|]. simpl.
  destruct ((c =? "e") || (c =? "E"))%char; [|now intros [= <- <-]].
  destruct s as [|sg s]; [discriminate|].
  destruct ((sg =? "+") || (sg =? "-"))%char; intros Hd;
    apply scanExponentDigits_split in Hd; exact Hd.
Qed.

Lemma scanUnsigned_split (s lit r : string) :
  scanUnsigned s = Some (lit, r) -> s = (lit ++ r)%string.
Proof.
  unfold scanUnsigned.
  destruct (scanInteger s) as [[int s1]|] eqn:Hint; [|discriminate].
  destruct (scanFraction s1) as [[frac s2]|] eqn:Hfrac; [|discriminate].
  destruct (scanExponent s2) as [[exp s3]|] eqn:Hexp; [|discriminate].
  intros [= <- <-].
  rewrite (scanInteger_split _ _ _ Hint), (scanFraction_split _ _ _ Hfrac),
          (scanExponent_split _ _ _ Hexp).
  now rewrite !append_assoc.
Qed.

Lemma scanNumber_split (s lit r : string) :
  scanNumber s = Some (lit, r) -> s = (lit ++ r)%string.
Proof.
  destruct s as [|c s]; [discriminate|].
  assert (Hminus : (c = "-"%char) \/
                   scanNumber (String c s) = scanUnsigned (String c s)).
  { each_ascii c; (left; reflexivity) || (right; reflexivity). }
  destruct Hminus as [-> | ->]; [|apply scanUnsigned_split].
  simpl. destruct (scanUnsigned s) as [[lit' r']|] eqn:Hu; [|discriminate].
  intros [= <- <-]. simpl. now rewrite (scanUnsigned_split _ _ _ Hu).
Qed.

Lemma scanNumber_start (c : ascii) (s : string) :
  scanNumber (String c s) <> None -> (c =? "-")%char = true \/ isDigit c = true.
Proof.
  intros Hs. destruct (c =? "-")%char eqn:Hm; [now left|right].
  assert (Hu : scanNumber (String c s) = scanUnsigned (String c s)).
  { each_ascii c; try discriminate Hm; reflexivity. }
  destruct (isDigit c) eqn:Hd; [reflexivity|]. exfalso. apply Hs. rewrite Hu.
  unfold scanUnsigned, scanInteger. rewrite Hd.
  destruct (c =? "0")%char eqn:H0; [|reflexivity].
  apply Ascii.eqb_eq in H0. subst. discriminate Hd.
Qed.

Lemma isJsonNumber_scan (t rest : string) :
  isJsonNumber t = true -> endsNumber rest = true ->
  scanNumber (t ++ rest) = Some (t, rest).
Proof.
  unfold isJsonNumber. intros Ht Hrest.
  destruct (scanNumber t) as [[lit r]|] eqn:Hscan; [|discriminate].
  destruct r; [|discriminate].
  pose proof (scanNumber_split _ _ _ Hscan) as Hsplit. rewrite append_nil_r in Hsplit.
  subst lit. exact (scanNumber_app t rest Hrest t EmptyString Hscan).
Qed.

Lemma isJsonNumber_start (t : string) :
  isJsonNumber t = true ->
  exists c r, t = String c r /\ ((c =? "-")%char = true \/ isDigit c = true).
Proof.
  unfold isJsonNumber. destruct t as [|c r]; [discriminate|]. intros Ht.
  exists c, r. split; [reflexivity|]. apply (scanNumber_start c r).
  destruct (scanNumber (String c r)); [discriminate | discriminate Ht].
Qed.

(** ** JSON values: printing and parsing back *)

Section JsonFacts.
Context {num : Type} `{JsNumber num} `{JsNumberText num}.

Lemma JsValue_tree_ind (P : JsValue num -> Prop) :
  P JNull -> (forall b, P (JBool b)) -> (forall n, P (JNumber n)) ->
  (forall s, P (JString s)) ->
  (forall es, Forall P es -> P (JArray es)) ->
  (forall ps, Forall (fun kv => P (snd kv)) ps -> P (JObject ps)) ->
  forall v, P v.
Proof.
  intros Hnull Hbool Hnum Hstr Harr Hobj. fix IH 1.
  intros [|b|n|s|es|ps];
    [exact Hnull | apply Hbool | apply Hnum | apply Hstr | | ].
  - apply Harr. induction es as [|e es IHes]; constructor; [apply IH | exact IHes].
  - apply Hobj. induction ps as [|[k pv] ps IHps]; constructor;
      [apply IH | exact IHps].
Qed.

(** *** One step of each parsing function *)

Lemma parseValue_skip fuel (ws s : string) :
  allWhitespace ws = true ->
  parseValue (num:=num) fuel (ws ++ s) = parseValue fuel s.
Proof. intros Hws. destruct fuel; simpl; [reflexivity|]. now rewrite skipWhitespace_app. Qed.

Lemma parseValue_array fuel (X : string) c r :
  skipWhitespace X = String c r -> (c =? "]")%char = false ->
  parseValue (num:=num) (S fuel) (String "[" X) = parseElements fuel [] X.
Proof. intros HX Hc. simpl. now rewrite HX, Hc. Qed.

Lemma parseValue_object fuel (X : string) c r :
  skipWhitespace X = String c r -> (c =? "}")%char = false ->
  parseValue (num:=num) (S fuel) (String "{" X) = parseMembers fuel [] X.
Proof. intros HX Hc. simpl. now rewrite HX, Hc. Qed.

Lemma parseValue_string fuel (X str rest : string) :
  parseStringBody X = Some (str, rest) ->
  parseValue (num:=num) (S fuel) (String dquote X) = Some (JString str, rest).
Proof. intros HX. simpl. now rewrite HX. Qed.

Lemma parseValue_number fuel (t rest : string) :
  isJsonNumber t = true -> endsNumber rest = true ->
  parseValue (num:=num) (S fuel) (t ++ rest) = Some (JNumber (StringToNumber t), rest).
Proof.
  intros Ht Hrest. pose proof (isJsonNumber_scan t rest Ht Hrest) as Hscan.
  destruct (isJsonNumber_start t Ht) as (c & r & -> & Hc).
  simpl in Hscan |- *.
  assert (Hdispatch :
    isWhitespace c = false /\ (c =? "{")%char = false /\ (c =? "[")%char = false /\
    (c =? dquote)%char = false /\ (c =? "n")%char = false /\
    (c =? "t")%char = false /\ (c =? "f")%char = false).
  { clear Hscan Ht. each_ascii c; destruct Hc as [Hc|Hc]; try discriminate Hc;
      repeat split. }
  destruct Hdispatch as (-> & -> & -> & -> & -> & -> & ->).
  now rewrite Hscan.
Qed.

Lemma parseElements_step fuel acc (s : string) (v : JsValue num) r c r' :
  parseValue fuel s = Some (v, r) -> skipWhitespace r = String c r' ->
  parseElements (S fuel) acc s =
  if (c =? ",")%char then parseElements fuel (v :: acc) r'
  else if (c =? "]")%char then Some (JArray (rev (v :: acc)), r')
  else None.
Proof. intros Hv Hr. simpl. now rewrite Hv, Hr. Qed.

Lemma parseMembers_step fuel acc (s X key r1 r2 : string) (v : JsValue num) r3 c3 r4 :
  skipWhitespace s = String dquote X ->
  parseStringBody X = Some (key, r1) ->
  skipWhitespace r1 = String ":" r2 ->
  parseValue fuel r2 = Some (v, r3) ->
  skipWhitespace r3 = String c3 r4 ->
  parseMembers (S fuel) acc s =
  if (c3 =? ",")%char then parseMembers fuel (setProperty key v acc) r4
  else if (c3 =? "}")%char then Some (JObject (setProperty key v acc), r4)
  else None.
Proof. intros Hs HX Hr1 Hv Hr3. simpl. now rewrite Hs, HX, Hr1, Hv, Hr3. Qed.

(** *** Shapes of printed text *)

Lemma printValue_head (v : JsValue num) gap indent :
  exists c r, printValue gap indent v = String c r /\ isValueStart c = true.
Proof.
  destruct v as [|[|]|n|s|[|e es]|[|[k pv] ps]];
    try (eexists _, _; split; reflexivity).
  simpl. unfold printNumber.
  destruct (isJsonNumber (Number_toString n)) eqn:Hn;
    [|eexists _, _; split; reflexivity].
  destruct (isJsonNumber_start _ Hn) as (c & r & -> & Hc).
  exists c, r. split; [reflexivity|]. unfold isValueStart.
  destruct Hc as [Hc|Hc]; rewrite Hc; [|reflexivity].
  now rewrite orb_true_r.
Qed.

Lemma join_cons2 sep (a b : string) items :
  join sep (a :: b :: items) = (a ++ sep ++ join sep (b :: items))%string.
Proof. reflexivity. Qed.

Lemma colon_shape gap :
  exists ws, colon gap = String ":" ws /\ allWhitespace ws = true.
Proof.
  unfold colon. destruct (gap =? EmptyString); eexists; split; reflexivity.
Qed.

Lemma endsNumber_lineBreak gap indent c r :
  endsNumber (String c r) = true ->
  endsNumber (lineBreak gap indent ++ String c r) = true.
Proof. unfold lineBreak. destruct (gap =? EmptyString); simpl; auto. Qed.

Lemma skipWhitespace_value (ws : string) (v : JsValue num) gap indent tail :
  allWhitespace ws = true ->
  exists c r, skipWhitespace (ws ++ printValue gap indent v ++ tail) = String c r /\
              (c =? "]")%char = false /\ (c =? "}")%char = false.
Proof.
  intros Hws. destruct (printValue_head v gap indent) as (c & r & Hp & Hc).
  apply isValueStart_not_whitespace in Hc as (Hw & Hb & Hcb).
  exists c, (r ++ tail)%string. rewrite skipWhitespace_app, Hp by assumption.
  simpl. rewrite Hw. auto.
Qed.

(** *** Properties created in order *)

Lemma setProperty_fresh key (v : JsValue num) acc :
  getProp key acc = None -> arrayIndex key = None ->
  setProperty key v acc = acc ++ [(key, v)].
Proof. intros Hg Hi. unfold setProperty. now rewrite Hg, Hi. Qed.

Lemma getProp_snoc key k (v : JsValue num) acc :
  getProp key acc = None -> (k =? key) = false ->
  getProp key (acc ++ [(k, v)]) = None.
Proof.
  induction acc as [|[k' v'] acc IH]; simpl; intros Hg Hk.
  - now rewrite Hk.
  - destruct (k' =? key); [discriminate|]. auto.
Qed.

Lemma distinct_cons k keys :
  distinct (k :: keys) = true ->
  distinct keys = true /\ forall k', In k' keys -> (k =? k') = false.
Proof.
  simpl. intros Hd. apply andb_true_iff in Hd as [Hk Hd]. split; [exact Hd|].
  intros k' Hin. apply negb_true_iff in Hk.
  destruct (k =? k') eqn:He; [|reflexivity].
  rewrite <- Hk. symmetry. apply existsb_exists. eauto.
Qed.

(** *** Elements and members *)

Lemma parseElements_printed gap indent' (lb rest : string) (es : list (JsValue num)) :
  allWhitespace (lineBreak gap indent') = true ->
  allWhitespace lb = true ->
  Forall (fun e => forall fuel tail,
            (fuelFor e <= fuel)%nat -> endsNumber tail = true ->
            parseValue fuel (printValue gap indent' e ++ tail)
            = Some (revive e, tail)) es ->
  es <> [] ->
  forall acc fuel,
    (list_sum (map (fun e => S (fuelFor e)) es) <= fuel)%nat ->
    parseElements fuel acc
      (lineBreak gap indent'
       ++ join ("," ++ lineBreak gap indent') (map (printValue gap indent') es)
       ++ lb ++ String "]" rest)
    = Some (JArray (rev acc ++ map revive es), rest).
Proof.
  intros Hlb' Hlb Hall. induction Hall as [|e es He _ IH]; [congruence|].
  intros _ acc fuel Hfuel. simpl in Hfuel.
  destruct fuel as [|fuel]; [lia|].
  destruct es as [|e2 es].
  - simpl in Hfuel. cbn [map join].
    rewrite (parseElements_step fuel acc _ (revive e) (lb ++ String "]" rest) "]" rest).
    + reflexivity.
    + rewrite parseValue_skip by assumption. apply He; [lia|].
      destruct lb as [|c lb]; [reflexivity|]. simpl in Hlb |- *.
      apply andb_true_iff in Hlb as [Hc _]. clear - Hc.
      each_ascii c; try discriminate Hc; reflexivity.
    + now rewrite skipWhitespace_app.
  - cbn [map]. rewrite join_cons2.
    set (J := join ("," ++ lineBreak gap indent')
                   (printValue gap indent' e2 :: map (printValue gap indent') es)) in *.
    replace (lineBreak gap indent'
             ++ (printValue gap indent' e ++ ("," ++ lineBreak gap indent') ++ J)
             ++ lb ++ String "]" rest)%string
      with (lineBreak gap indent'
            ++ printValue gap indent' e
            ++ String "," (lineBreak gap indent' ++ J ++ lb ++ String "]" rest))%string
      by text_assoc.
    rewrite (parseElements_step fuel acc _ (revive e)
               (String "," (lineBreak gap indent' ++ J ++ lb ++ String "]" rest))
               "," (lineBreak gap indent' ++ J ++ lb ++ String "]" rest)).
    + cbn [Ascii.eqb Bool.eqb]. unfold J. cbn [map] in IH. rewrite IH.
      * simpl. now rewrite <- app_assoc.
      * discriminate.
      * cbn [map list_sum fold_right] in Hfuel |- *. unfold list_sum in *. simpl in *. lia.
    + rewrite parseValue_skip by assumption. apply He; [|reflexivity].
      unfold list_sum in Hfuel. simpl in Hfuel. lia.
    + reflexivity.
Qed.

Lemma parseMembers_printed gap indent' (lb rest : string)
                            (ps : list (string * JsValue num)) :
  allWhitespace (lineBreak gap indent') = true ->
  allWhitespace lb = true ->
  Forall (fun kv => forall fuel tail,
            (fuelFor (snd kv) <= fuel)%nat -> endsNumber tail = true ->
            parseValue fuel (printValue gap indent' (snd kv) ++ tail)
            = Some (revive (snd kv), tail)) ps ->
  ps <> [] ->
  forall acc fuel,
    distinct (map fst ps) = true ->
    (forall kv, In kv ps -> arrayIndex (fst kv) = None) ->
    (forall kv, In kv ps -> getProp (fst kv) acc = None) ->
    (list_sum (map (fun kv : string * JsValue num => S (fuelFor (snd kv))) ps)
     <= fuel)%nat ->
    parseMembers fuel acc
      (lineBreak gap indent'
       ++ join ("," ++ lineBreak gap indent')
               (map (fun kv : string * JsValue num =>
                       let (k, pv) := kv in
                       (quote k ++ colon gap ++ printValue gap indent' pv)%string) ps)
       ++ lb ++ String "}" rest)
    = Some (JObject (acc ++ map (fun kv : string * JsValue num =>
                                   let (k, pv) := kv in (k, revive pv)) ps), rest).
Proof.
  intros Hlb' Hlb Hall. induction Hall as [|[k pv] ps He _ IH]; [congruence|].
  intros _ acc fuel Hdist Hidx Hfresh Hfuel. cbn [snd] in He.
  destruct (colon_shape gap) as (ws & Hcolon & Hws).
  apply distinct_cons in Hdist as [Hdist Hk].
  assert (Hkidx : arrayIndex k = None) by (apply (Hidx (k, pv)); now left).
  assert (Hkfresh : getProp k acc = None) by (apply (Hfresh (k, pv)); now left).
  unfold list_sum in Hfuel. simpl in Hfuel. fold (list_sum) in Hfuel.
  destruct fuel as [|fuel]; [lia|].
  destruct ps as [|[k2 pv2] ps].
  - cbn [map join].
    replace (lineBreak gap indent'
             ++ (quote k ++ colon gap ++ printValue gap indent' pv)
             ++ lb ++ String "}" rest)%string
      with (lineBreak gap indent'
            ++ String dquote
                 (escapeString k
                  ++ String dquote
                       (String ":" (ws ++ printValue gap indent' pv
                                       ++ lb ++ String "}" rest))))%string
      by (rewrite Hcolon; unfold quote; text_assoc).
    erewrite (parseMembers_step fuel acc _ _ k _ _ (revive pv)
               (lb ++ String "}" rest) "}" rest).
    + cbn [Ascii.eqb Bool.eqb]. now rewrite setProperty_fresh.
    + now rewrite skipWhitespace_app.
    + apply parseStringBody_escapeString.
    + reflexivity.
    + rewrite parseValue_skip by assumption. apply He; [simpl in Hfuel; lia|].
      destruct lb as [|c lb]; [reflexivity|]. simpl in Hlb |- *.
      apply andb_true_iff in Hlb as [Hc _]. clear - Hc.
      each_ascii c; try discriminate Hc; reflexivity.
    + now rewrite skipWhitespace_app.
  - cbn [map]. rewrite join_cons2.
    set (J := join ("," ++ lineBreak gap indent') _) in *.
    replace (lineBreak gap indent'
             ++ ((quote k ++ colon gap ++ printValue gap indent' pv)
                 ++ ("," ++ lineBreak gap indent') ++ J)
             ++ lb ++ String "}" rest)%string
      with (lineBreak gap indent'
            ++ String dquote
                 (escapeString k
                  ++ String dquote
                       (String ":"
                          (ws ++ printValue gap indent' pv
                              ++ String "," (lineBreak gap indent' ++ J
                                             ++ lb ++ String "}" rest)))))%string
      by (rewrite Hcolon; unfold quote; text_assoc).
    erewrite (parseMembers_step fuel acc _ _ k _ _ (revive pv)
               (String "," (lineBreak gap indent' ++ J ++ lb ++ String "}" rest))
               "," (lineBreak gap indent' ++ J ++ lb ++ String "}" rest)).
    + cbn [Ascii.eqb Bool.eqb]. rewrite setProperty_fresh by assumption.
      unfold J. cbn [map] in IH. rewrite IH.
      * now rewrite <- app_assoc.
      * discriminate.
      * exact Hdist.
      * intros kv Hin. apply Hidx. now right.
      * intros kv Hin. apply getProp_snoc.
        -- apply Hfresh. now right.
        -- apply Hk. exact (in_map fst _ _ Hin).
      * unfold list_sum in *. simpl in *. lia.
    + now rewrite skipWhitespace_app.
    + apply parseStringBody_escapeString.
    + reflexivity.
    + rewrite parseValue_skip by assumption. apply He; [|reflexivity].
      unfold list_sum in Hfuel. simpl in Hfuel. lia.
    + reflexivity.
Qed.

Lemma join_head_app sep (a : string) items tail :
  exists tail', (join sep (a :: items) ++ tail = a ++ tail')%string.
Proof.
  destruct items as [|b items].
  - now exists tail.
  - rewrite join_cons2. eexists. now rewrite append_assoc.
Qed.

(** *** A printed value parses back *)

Lemma parseValue_printValue gap :
  allWhitespace gap = true ->
  forall v : JsValue num,
    wellFormed v = true ->
    forall indent fuel rest,
      allWhitespace indent = true ->
      (fuelFor v <= fuel)%nat -> endsNumber rest = true ->
      parseValue fuel (printValue gap indent v ++ rest) = Some (revive v, rest).
Proof.
  intros Hgap v.
  induction v as [|b|n|s|es IH|ps IH] using JsValue_tree_ind;
    intros Hwf indent fuel rest Hind Hfuel Hrest;
    (destruct fuel as [|fuel]; [simpl in Hfuel; lia|]).
  - reflexivity.
  - destruct b; reflexivity.
  - cbn [printValue revive]. unfold printNumber.
    destruct (isJsonNumber (Number_toString n)) eqn:Hn; [|reflexivity].
    now apply parseValue_number.
  - cbn [printValue revive]. unfold quote. simpl append.
    rewrite append_assoc. apply parseValue_string, parseStringBody_escapeString.
  - destruct es as [|e es]; [reflexivity|].
    cbn [printValue revive]. cbv zeta.
    set (indent' := (indent ++ gap)%string).
    assert (Hind' : allWhitespace indent' = true) by now apply allWhitespace_app.
    set (items := map (printValue gap indent') (e :: es)).
    replace (("[" ++ lineBreak gap indent'
                  ++ join ("," ++ lineBreak gap indent') items
                  ++ lineBreak gap indent ++ "]") ++ rest)%string
      with (String "[" (lineBreak gap indent'
                        ++ join ("," ++ lineBreak gap indent') items
                        ++ lineBreak gap indent ++ String "]" rest))%string
      by text_assoc.
    assert (Hhead : exists c r,
               skipWhitespace (lineBreak gap indent'
                               ++ join ("," ++ lineBreak gap indent') items
                               ++ lineBreak gap indent ++ String "]" rest)
               = String c r /\ (c =? "]")%char = false).
    { unfold items. cbn [map].
      destruct (join_head_app ("," ++ lineBreak gap indent')
                  (printValue gap indent' e) (map (printValue gap indent') es)
                  (lineBreak gap indent ++ String "]" rest)) as [tail' ->].
      destruct (skipWhitespace_value (lineBreak gap indent') e gap indent' tail')
        as (c & r & Hc & Hb & _); [now apply allWhitespace_lineBreak|].
      eauto. }
    destruct Hhead as (c & r & Hskip & Hc).
    rewrite (parseValue_array fuel _ c r Hskip Hc).
    unfold items. rewrite parseElements_printed.
    + reflexivity.
    + now apply allWhitespace_lineBreak.
    + now apply allWhitespace_lineBreak.
    + simpl in Hwf. apply Forall_forall. intros e' He' fuel' tail Hf Ht.
      rewrite Forall_forall in IH. apply IH; auto.
      change (forallb wellFormed (e :: es) = true) in Hwf.
      rewrite forallb_forall in Hwf. auto.
    + discriminate.
    + simpl in Hfuel |- *. unfold list_sum in *. lia.
  - destruct ps as [|[k pv] ps]; [reflexivity|].
    cbn [printValue revive]. cbv zeta.
    set (indent' := (indent ++ gap)%string).
    assert (Hind' : allWhitespace indent' = true) by now apply allWhitespace_app.
    set (members := map (fun kv : string * JsValue num =>
                           let (k0, pv0) := kv in
                           (quote k0 ++ colon gap ++ printValue gap indent' pv0)%string)
                        ((k, pv) :: ps)).
    replace (("{" ++ lineBreak gap indent'
                  ++ join ("," ++ lineBreak gap indent') members
                  ++ lineBreak gap indent ++ "}") ++ rest)%string
      with (String "{" (lineBreak gap indent'
                        ++ join ("," ++ lineBreak gap indent') members
                        ++ lineBreak gap indent ++ String "}" rest))%string
      by text_assoc.
    assert (Hhead : exists r,
               skipWhitespace (lineBreak gap indent'
                               ++ join ("," ++ lineBreak gap indent') members
                               ++ lineBreak gap indent ++ String "}" rest)
               = String dquote r).
    { unfold members. cbn [map].
      destruct (join_head_app ("," ++ lineBreak gap indent')
                  (quote k ++ colon gap ++ printValue gap indent' pv)
                  (map (fun kv : string * JsValue num =>
                           let (k0, pv0) := kv in
                           (quote k0 ++ colon gap ++ printValue gap indent' pv0)%string) ps)
                  (lineBreak gap indent ++ String "}" rest)) as [tail' ->].
      rewrite skipWhitespace_app by now apply allWhitespace_lineBreak.
      unfold quote. simpl. eauto. }
    destruct Hhead as (r & Hskip).
    rewrite (parseValue_object fuel _ dquote r Hskip eq_refl).
    simpl in Hwf. apply andb_true_iff in Hwf as [Hdist Hall].
    unfold members. rewrite parseMembers_printed.
    + reflexivity.
    + now apply allWhitespace_lineBreak.
    + now apply allWhitespace_lineBreak.
    + apply Forall_forall. intros kv Hkv fuel' tail Hf Ht.
      rewrite Forall_forall in IH. apply IH; auto.
      change (forallb (fun kv : string * JsValue num =>
                 match arrayIndex (fst kv) with
                 | Some _ => false
                 | None => wellFormed (snd kv)
                 end) ((k, pv) :: ps) = true) in Hall.
      rewrite forallb_forall in Hall. specialize (Hall kv Hkv).
      now destruct (arrayIndex (fst kv)).
    + discriminate.
    + exact Hdist.
    + intros kv Hkv.
      change (forallb (fun kv : string * JsValue num =>
                 match arrayIndex (fst kv) with
                 | Some _ => false
                 | None => wellFormed (snd kv)
                 end) ((k, pv) :: ps) = true) in Hall.
      rewrite forallb_forall in Hall. specialize (Hall kv Hkv).
      now destruct (arrayIndex (fst kv)).
    + reflexivity.
    + simpl in Hfuel |- *. unfold list_sum in *. lia.
Qed.

(** *** The fuel [JSON_parse] provides is enough *)

Lemma join_weight {A} (pr : A -> string) (w : A -> nat) sep (l : list A) :
  (1 <= String.length sep)%nat ->
  Forall (fun a => (w a <= String.length (pr a))%nat) l ->
  (list_sum (map (fun a => S (w a)) l) <= S (String.length (join sep (map pr l))))%nat.
Proof.
  intros Hsep Hall. induction Hall as [|a l Ha _ IH]; [simpl; lia|].
  destruct l as [|b l].
  - simpl. lia.
  - cbn [map]. rewrite join_cons2, !length_append.
    cbn [map] in IH. unfold list_sum in *. simpl in *. lia.
Qed.

Lemma fuelFor_le_length (v : JsValue num) :
  forall gap indent, (fuelFor v <= String.length (printValue gap indent v))%nat.
Proof.
  induction v as [|b|n|s|es IH|ps IH] using JsValue_tree_ind; intros gap indent.
  - simpl. lia.
  - destruct b; simpl; lia.
  - simpl. unfold printNumber.
    destruct (isJsonNumber (Number_toString n)) eqn:Hn; [|simpl; lia].
    destruct (isJsonNumber_start _ Hn) as (c & r & -> & _). simpl. lia.
  - simpl. lia.
  - destruct es as [|e es]; [simpl; lia|].
    cbn [printValue fuelFor]. cbv zeta. rewrite !length_append.
    pose proof (join_weight (printValue gap (indent ++ gap)) fuelFor
                  ("," ++ lineBreak gap (indent ++ gap)) (e :: es)) as Hw.
    simpl String.length in Hw |- *.
    assert (Hall : Forall (fun a => (fuelFor a
                     <= String.length (printValue gap (indent ++ gap) a))%nat) (e :: es)).
    { eapply Forall_impl; [|exact IH]. intros a Ha. apply Ha. }
    specialize (Hw ltac:(lia) Hall). lia.
  - destruct ps as [|[k pv] ps]; [simpl; lia|].
    cbn [printValue fuelFor]. cbv zeta. rewrite !length_append.
    pose proof (join_weight
                  (fun kv : string * JsValue num =>
                     let (k0, pv0) := kv in
                     (quote k0 ++ colon gap
                      ++ printValue gap (indent ++ gap) pv0)%string)
                  (fun kv => fuelFor (snd kv))
                  ("," ++ lineBreak gap (indent ++ gap)) ((k, pv) :: ps)) as Hw.
    simpl String.length in Hw |- *.
    assert (Hall : Forall (fun kv : string * JsValue num =>
                     (fuelFor (snd kv)
                      <= String.length
                           (let (k0, pv0) := kv in
                            (quote k0 ++ colon gap
                             ++ printValue gap (indent ++ gap) pv0)%string))%nat)
                          ((k, pv) :: ps)).
    { eapply Forall_impl; [|exact IH]. intros [k0 pv0] Ha. cbn [snd] in *.
      rewrite !length_append. specialize (Ha gap (indent ++ gap)%string). lia. }
    specialize (Hw ltac:(lia) Hall). lia.
Qed.

(** Printing and parsing back: the value returns with each number read
    back from its printed form, for every indentation. *)
Lemma JSON_parse_stringify (space : nat) (v : JsValue num) :
  wellFormed v = true ->
  JSON_parse (JSON_stringify space v) = Some (revive v).
Proof.
  intros Hwf. unfold JSON_parse, JSON_stringify.
  set (text := printValue (spaces (Nat.min 10 space)) EmptyString v).
  rewrite <- (append_nil_r text) at 2. unfold text.
  rewrite parseValue_printValue; auto using allWhitespace_spaces.
  pose proof (fuelFor_le_length v (spaces (Nat.min 10 space)) EmptyString). lia.
Qed.

(** *** Node objects *)

Lemma childrenWith_eq {A} (f : JsValue num -> option A) props :
  childrenWith f props =
  match getProp "children" props with
  | Some (JArray kids) => traverse f kids
  | _ => None
  end.
Proof.
  induction props as [|[k pv] ps IHps]; [reflexivity|].
  cbn [getProp childrenWith]. destruct (k =? "children"); [now destruct pv | exact IHps].
Qed.

Lemma nodeOfValue_object (props : list (string * JsValue num)) :
  nodeOfValue (JObject props) =
  match getString "id" props, getString "content" props,
        match getProp "children" props with
        | Some (JArray kids) => traverse nodeOfValue kids
        | _ => None
        end,
        getOptionalNumber "x" props, getOptionalNumber "y" props,
        getOptionalString "color" props with
  | Some i, Some c, Some kids, Some px, Some py, Some col =>
      Some (mkNode i c kids px py col)
  | _, _, _, _, _, _ => None
  end.
Proof. rewrite <- childrenWith_eq. reflexivity. Qed.

Lemma getProp_map_revive key (props : list (string * JsValue num)) :
  getProp key (map (fun kv : string * JsValue num =>
                      let (k, pv) := kv in (k, revive pv)) props)
  = option_map revive (getProp key props).
Proof.
  induction props as [|[k pv] ps IH]; simpl; [reflexivity|].
  now destruct (k =? key).
Qed.

Lemma getProp_In key (props : list (string * JsValue num)) v :
  getProp key props = Some v -> exists k, In (k, v) props.
Proof.
  induction props as [|[k pv] ps IH]; simpl; [discriminate|].
  destruct (k =? key).
  - intros [= ->]. eauto.
  - intros Hg. destruct (IH Hg) as [k' Hk']. eauto.
Qed.

Lemma revive_number_cases (n : num) :
  (exists n', revive (JNumber n) = JNumber n') \/ revive (JNumber n) = JNull.
Proof. simpl. destruct (isJsonNumber (Number_toString n)); eauto. Qed.

Lemma getString_revive key (props : list (string * JsValue num)) :
  getString key (map (fun kv : string * JsValue num =>
                        let (k, pv) := kv in (k, revive pv)) props)
  = getString key props.
Proof.
  unfold getString. rewrite getProp_map_revive.
  destruct (getProp key props) as [[| |n| | |]|]; try reflexivity.
  cbn [option_map]. now destruct (revive_number_cases n) as [[n' ->] | ->].
Qed.

Lemma getOptionalString_revive key (props : list (string * JsValue num)) :
  getOptionalString key (map (fun kv : string * JsValue num =>
                                let (k, pv) := kv in (k, revive pv)) props)
  = getOptionalString key props.
Proof.
  unfold getOptionalString. rewrite getProp_map_revive.
  destruct (getProp key props) as [[| |n| | |]|]; try reflexivity.
  cbn [option_map]. now destruct (revive_number_cases n) as [[n' ->] | ->].
Qed.

Lemma getOptionalNumber_revive key (props : list (string * JsValue num)) o :
  getOptionalNumber key props = Some o ->
  exists o', getOptionalNumber key
               (map (fun kv : string * JsValue num =>
                       let (k, pv) := kv in (k, revive pv)) props) = Some o'.
Proof.
  unfold getOptionalNumber. rewrite getProp_map_revive.
  destruct (getProp key props) as [[| |n| | |]|]; try discriminate;
    intros _; try (eexists; reflexivity).
  cbn [option_map].
  destruct (revive_number_cases n) as [[n' ->] | ->]; eexists; reflexivity.
Qed.

(** Reading the revived object at type [MindMapNode] gives the same tree
    up to positions. *)
Lemma nodeOfValue_revive (v : JsValue num) :
  (forall t, nodeOfValue v = Some t ->
     exists t', nodeOfValue (revive v) = Some t' /\
                erasePositions t' = erasePositions t) /\
  (forall kids ts, v = JArray kids -> traverse nodeOfValue kids = Some ts ->
     exists ts', traverse nodeOfValue (map revive kids) = Some ts' /\
                 map erasePositions ts' = map erasePositions ts).
Proof.
  induction v as [|b|n|s|es IH|ps IH] using JsValue_tree_ind;
    (split; [|intros kids ts Hv; try discriminate Hv]);
    try (intros t Ht; discriminate Ht).
  - injection Hv as <-. revert ts.
    induction IH as [|e es [He _] _ IHes]; intros ts Hts; simpl in Hts |- *.
    + injection Hts as <-. now exists [].
    + destruct (nodeOfValue e) as [t|] eqn:Het; [|discriminate].
      destruct (traverse nodeOfValue es) as [ts0|] eqn:Hes; [|discriminate].
      injection Hts as <-.
      destruct (He t eq_refl) as (t' & -> & Het').
      destruct (IHes ts0 eq_refl) as (ts' & -> & Hts').
      exists (t' :: ts'). simpl. split; [reflexivity|]. now rewrite Het', Hts'.
  - intros t Ht. cbn [revive]. rewrite nodeOfValue_object in Ht |- *.
    rewrite !getString_revive, getOptionalString_revive, getProp_map_revive.
    destruct (getString "id" ps) as [i|]; [|discriminate Ht].
    destruct (getString "content" ps) as [c|]; [|discriminate Ht].
    destruct (getProp "children" ps) as [[| | | |kids|]|] eqn:Hkids;
      try discriminate Ht.
    destruct (traverse nodeOfValue kids) as [ts|] eqn:Hts; [|discriminate Ht].
    destruct (getOptionalNumber "x" ps) as [px|] eqn:Hx; [|discriminate Ht].
    destruct (getOptionalNumber "y" ps) as [py|] eqn:Hy; [|discriminate Ht].
    destruct (getOptionalString "color" ps) as [col|]; [|discriminate Ht].
    injection Ht as <-.
    destruct (getProp_In _ _ _ Hkids) as [k Hin].
    rewrite Forall_forall in IH. destruct (IH _ Hin) as [_ Harr]. cbn [snd] in Harr.
    destruct (Harr kids ts eq_refl Hts) as (ts' & Hts' & Herase).
    destruct (getOptionalNumber_revive _ _ _ Hx) as [px' ->].
    destruct (getOptionalNumber_revive _ _ _ Hy) as [py' ->].
    cbn [option_map revive]. rewrite Hts'. eexists. split; [reflexivity|].
    rewrite !erasePositions_eq. cbn [id content children color].
    now rewrite Herase.
Qed.

Lemma traverse_map {A B} (f : B -> option A) (g : A -> B) (l : list A) :
  Forall (fun a => f (g a) = Some a) l -> traverse f (map g l) = Some l.
Proof. induction 1 as [|a l Ha _ IH]; simpl; [reflexivity|]. now rewrite Ha, IH. Qed.

Lemma valueOfNode_eq (node : MindMapNode num) :
  valueOfNode node =
  JObject
    ([("id", JString (id node)); ("content", JString (content node));
      ("children", JArray (map valueOfNode (children node)))]
     ++ optionalProp "x" JNumber (x node)
     ++ optionalProp "y" JNumber (y node)
     ++ optionalProp "color" JString (color node)).
Proof. destruct node; reflexivity. Qed.

(** The object in the literal's order reads back as the tree it was made
    from, and is well formed. *)
Lemma nodeOfValue_valueOfNode (node : MindMapNode num) :
  nodeOfValue (valueOfNode node) = Some node.
Proof.
  induction node as [node IH] using MindMapNode_tree_ind.
  rewrite valueOfNode_eq, nodeOfValue_object.
  destruct node as [i c cs px py col]. cbn [id content children x y color] in *.
  assert (Hkids : traverse nodeOfValue (map valueOfNode cs) = Some cs)
    by now apply traverse_map.
  destruct px, py, col; cbn; rewrite Hkids; reflexivity.
Qed.

Lemma wellFormed_valueOfNode (node : MindMapNode num) :
  wellFormed (valueOfNode node) = true.
Proof.
  induction node as [node IH] using MindMapNode_tree_ind.
  rewrite valueOfNode_eq.
  destruct node as [i c cs px py col]. cbn [id content children x y color] in *.
  assert (Hkids : forallb wellFormed (map valueOfNode cs) = true).
  { apply forallb_forall. intros v Hv. apply in_map_iff in Hv as (child & <- & Hc).
    rewrite Forall_forall in IH. auto. }
  destruct px, py, col; cbn; rewrite Hkids; reflexivity.
Qed.

(** *** The persisted and exported record *)

(** C7.  Round trip of the mind map through JSON text.  Every tree is some
    object (the one built in the literal's order, or any other well-formed
    object that reads as the tree); printing that object with
    [JSON.stringify], at any indentation and in particular by
    [exportMindMap] and by the write to storage, and parsing the text back
    with [JSON.parse] succeeds with an object that reads as a tree equal to
    the original up to positions: same identifiers, contents, colours and
    children in the same order. *)
Theorem mindmap_json_roundtrip (t : MindMapNode num) :
  (wellFormed (valueOfNode t) = true /\ nodeOfValue (valueOfNode t) = Some t) /\
  forall v : JsValue num,
    wellFormed v = true -> nodeOfValue v = Some t ->
    forall text,
      (text = exportMindMap v \/ text = persistMindMap v \/
       exists space, text = JSON_stringify space v) ->
      exists v' t',
        JSON_parse text = Some v' /\ nodeOfValue v' = Some t' /\
        erasePositions t' = erasePositions t.
Proof.
  split; [split; [apply wellFormed_valueOfNode | apply nodeOfValue_valueOfNode]|].
  intros v Hwf Hv text Htext.
  assert (Hspace : exists space, text = JSON_stringify space v).
  { destruct Htext as [-> | [-> | Hs]]; [now exists 2%nat | now exists 0%nat | exact Hs]. }
  destruct Hspace as [space ->].
  destruct (proj1 (nodeOfValue_revive v) t Hv) as (t' & Ht' & Herase).
  exists (revive v), t'. split; [now apply JSON_parse_stringify | auto].
Qed.

(** C5 (as amended).  Initialising from storage: when nothing is stored
    under the key, or the stored string is empty, the mind-map page starts
    from the default single-root tree and the tasks page from the empty
    list; when a non-empty stored string is not valid JSON, the SyntaxError
    of [JSON.parse] leaves the initialiser: no default is substituted. *)
Theorem initialisers_on_stored_text (saved : option string) :
  (saved = None \/ saved = Some EmptyString ->
   initialRootNode saved = Returned (valueOfNode defaultRoot) /\
   initialTasks (num:=num) saved = Returned (JArray [])) /\
  (forall text,
      saved = Some text -> text <> EmptyString ->
      JSON_parse (num:=num) text = None ->
      initialRootNode saved = Thrown "SyntaxError" /\
      initialTasks (num:=num) saved = Thrown "SyntaxError").
Proof.
  split.
  - intros [-> | ->]; split; reflexivity.
  - intros text -> Hne Hparse. apply String.eqb_neq in Hne.
    unfold initialRootNode, initialTasks, parseSavedOr. now rewrite Hne, Hparse.
Qed.

End JsonFacts.

(** ** The statements at sample inputs *)

Lemma sampleTree_NoDup : NoDup (ids sampleTree).
Proof.
  repeat constructor; simpl; intros Hin;
    repeat (destruct Hin as [Hin|Hin]; [discriminate Hin|]); exact Hin.
Qed.

(** Renaming [node-2] of [sampleTree]: the node at path [1] takes the new
    content, the first child keeps its own. *)
Lemma updateNodeContent_content_only_witness :
  subtreeAt [1%nat] (updateNodeContent "node-2" "Ship" sampleTree)
  = Some (mkNode "node-2" "Ship" [] None None (Some "#D3E4FD")) /\
  updateNodeContent "node-9" "Ship" sampleTree = sampleTree.
Proof.
  destruct (updateNodeContent_content_only "node-2" "Ship" sampleTree)
    as (_ & _ & Hloc & _).
  destruct (updateNodeContent_content_only "node-9" "Ship" sampleTree)
    as (_ & _ & _ & Habs & _).
  split.
  - exact (Hloc sampleTree_NoDup [1%nat] _ eq_refl eq_refl).
  - apply Habs. simpl. intros Hin.
    repeat (destruct Hin as [Hin|Hin]; [discriminate Hin|]). exact Hin.
Defined.

(** C2, the statement as written fails twice: the added node's content is
    the fixed string "New Idea", whatever content is asked for; and with two
    nodes carrying the parent identifier, each receives the new node, so
    the count grows by two. *)
Lemma addChildNode_claim_counterexample :
  (In "root" (ids (rootNode (initialState (num:=R) defaultRoot))) /\
   ~ addChildSpec "x" 1700000000000 1 "root" (initialState (num:=R) defaultRoot)) /\
  (In "node-7" (ids twinsTree) /\
   ~ addChildSpec "New Idea" 1700000000000 1 "node-7" (initialState twinsTree)).
Proof.
  split; split.
  - simpl. now left.
  - intros (_ & added & Hcontent & _ & path & parent & Hp & _ & Hp').
    destruct path as [|i path].
    + simpl in Hp, Hp'. injection Hp as <-. injection Hp' as <-.
      discriminate Hcontent.
    + simpl in Hp. destruct i; discriminate Hp.
  - simpl. tauto.
  - intros (Hcount & _). simpl in Hcount. discriminate Hcount.
Qed.

Lemma addChildNode_adds_one_node_witness :
  addChildSpec "New Idea" 1700000000000 1 "node-1" (initialState sampleTree).
Proof.
  apply addChildNode_adds_one_node.
  - exact sampleTree_NoDup.
  - simpl. tauto.
Defined.

Lemma rootInvariant_preserved_witness :
  rootInvariant (step (Delete (num:=R) "node-1") (initialState sampleTree)).
Proof.
  apply (proj2 (rootInvariant_preserved (num:=R))). split; reflexivity.
Defined.

Lemma layout_deterministic_idempotent_witness :
  layoutTree 800%R 600%R sampleTree = layoutTree 800%R 600%R sampleTreeMoved.
Proof.
  apply (proj1 (layout_deterministic_idempotent 800%R 600%R sampleTree)).
  reflexivity.
Defined.

Lemma layout_writes_positions_only_witness :
  exists st',
    layoutChildrenOn 2 sampleStore 0 0%R 200%R = Some st' /\
    sameButPositions sampleStore st'.
Proof.
  eexists. split; [reflexivity|].
  apply (proj1 (layout_writes_positions_only (num:=R)) 2%nat sampleStore 0%nat 0%R 200%R).
  reflexivity.
Defined.

Lemma radial_layout_positions_witness :
  exists child,
    nth_error (children (layoutTree 800%R 600%R fourTree)) 1 = Some child /\
    x child = Some (800 / 2 + 200 * cos (INR 1 * (PI / 2)))%R /\
    y child = Some (600 / 2 + 200 * sin (INR 1 * (PI / 2)))%R.
Proof.
  destruct (radial_layout_positions 800%R 600%R fourTree) as (_ & _ & _ & Hfour & _).
  eexists. split; [reflexivity|].
  apply (Hfour _ _ _ _ eq_refl 1%nat). reflexivity.
Defined.

Lemma mindmap_json_roundtrip_witness :
  exists v' t',
    JSON_parse (exportMindMap (valueOfNode storedTree)) = Some v' /\
    nodeOfValue v' = Some t' /\
    erasePositions t' = erasePositions storedTree.
Proof.
  apply (proj2 (mindmap_json_roundtrip storedTree) (valueOfNode storedTree)).
  - reflexivity.
  - reflexivity.
  - now left.
Defined.

(** C5, the statement as written fails: an unbalanced brace is stored, it
    is not valid JSON, and neither initialiser returns its default. *)
Lemma initialisers_claim_counterexample :
  JSON_parse (num:=SymNum) "{" = None /\
  initialRootNode (num:=SymNum) (Some "{") <> Returned (valueOfNode defaultRoot) /\
  initialTasks (num:=SymNum) (Some "{") <> Returned (JArray []).
Proof. split; [reflexivity|]. split; intros Heq; discriminate Heq. Qed.

Lemma initialisers_on_stored_text_witness :
  initialRootNode (num:=SymNum) (Some "{") = Thrown "SyntaxError" /\
  initialTasks (num:=SymNum) (Some "{") = Thrown "SyntaxError".
Proof.
  apply (proj2 (initialisers_on_stored_text (num:=SymNum) (Some "{")) "{").
  - reflexivity.
  - discriminate.
  - reflexivity.
Defined.

(* ================================================================= *)
(** * Part III: how the operations compose *)
(* ================================================================= *)

(** ** Further facts about the tree traversals *)

Section TreeCompose.
Context {num : Type}.

Lemma withChildren_withChildren (node : MindMapNode num) a b :
  withChildren (withChildren node a) b = withChildren node b.
Proof. reflexivity. Qed.

Lemma length_ids (node : MindMapNode num) : List.length (ids node) = countNodes node.
Proof.
  induction node as [node IH] using MindMapNode_tree_ind.
  rewrite ids_eq, countNodes_eq. simpl. f_equal.
  induction IH as [|child rest Hc _ IHrest]; simpl; [reflexivity|].
  rewrite length_app. unfold list_sum in *. simpl. congruence.
Qed.

Lemma in_ids_child (node child : MindMapNode num) i :
  In child (children node) -> In i (ids child) -> In i (ids node).
Proof. intros Hc Hi. rewrite ids_eq. right. apply in_flat_map. eauto. Qed.

Lemma filter_keep_all {A} (f : A -> bool) (l : list A) :
  (forall a, In a l -> f a = true) -> filter f l = l.
Proof. intros Hall. apply forallb_filter_id, forallb_forall, Hall. Qed.

(** *** Deleting *)

Lemma removeNodeFromTree_children_clean d (node : MindMapNode num) :
  Forall (fun c => ~ In d (ids c)) (children (removeNodeFromTree d node)).
Proof.
  rewrite removeNodeFromTree_eq. cbn [children withChildren].
  apply Forall_forall. intros kept Hkept.
  apply in_map_iff in Hkept as (child & <- & Hchild).
  apply filter_In in Hchild as [_ Hne].
  apply negb_true_iff, String.eqb_neq in Hne. now apply removeNodeFromTree_ids.
Qed.

Lemma removeNodeFromTree_idempotent d (node : MindMapNode num) :
  removeNodeFromTree d (removeNodeFromTree d node) = removeNodeFromTree d node.
Proof. apply removeNodeFromTree_absent, removeNodeFromTree_children_clean. Qed.

Lemma removeNodeFromTree_incl d (node : MindMapNode num) :
  incl (ids (removeNodeFromTree d node)) (ids node).
Proof.
  intros i Hi. apply (count_occ_In string_dec) in Hi.
  apply (count_occ_In string_dec).
  pose proof (removeNodeFromTree_count_occ d node i). lia.
Qed.

Lemma removeNodeFromTree_countNodes d (node : MindMapNode num) :
  (countNodes (removeNodeFromTree d node) <= countNodes node)%nat.
Proof.
  induction node as [node IH] using MindMapNode_tree_ind.
  rewrite removeNodeFromTree_eq, (countNodes_eq node), countNodes_eq.
  cbn [children withChildren]. apply le_n_S.
  induction IH as [|child rest Hc _ IHrest]; simpl; [lia|].
  destruct (negb (id child =? d)); unfold list_sum in *; simpl in *; lia.
Qed.

(** *** Adding, then deleting or renaming the added node *)

Lemma removeNodeFromTree_addChildToNode parentId (added node : MindMapNode num) :
  ~ In (id added) (ids node) ->
  removeNodeFromTree (id added) (addChildToNode parentId added node) = node.
Proof.
  induction node as [node IH] using MindMapNode_tree_ind. intros Hfresh.
  apply not_in_ids_children in Hfresh as [Hid Hkids].
  assert (Hkeep : forall c, In c (children node) ->
                            negb (id c =? id added) = true).
  { intros c Hc. rewrite Forall_forall in Hkids.
    apply negb_true_iff, String.eqb_neq. intros Heq.
    apply (Hkids c Hc). rewrite <- Heq, ids_eq. now left. }
  rewrite addChildToNode_eq. destruct (id node =? parentId).
  - rewrite removeNodeFromTree_eq. cbn [children withChildren].
    rewrite withChildren_withChildren.
    rewrite filter_app, (filter_keep_all _ _ Hkeep). cbn [filter].
    rewrite String.eqb_refl. cbn [negb]. rewrite app_nil_r.
    rewrite map_id_in; [apply withChildren_same|].
    apply Forall_forall. intros c Hc. apply removeNodeFromTree_absent.
    rewrite Forall_forall in Hkids.
    apply (not_in_ids_children (id added) c). auto.
  - rewrite removeNodeFromTree_eq. cbn [children withChildren].
    rewrite withChildren_withChildren.
    rewrite filter_keep_all.
    + rewrite map_map, map_id_in; [apply withChildren_same|].
      rewrite Forall_forall in *. auto.
    + intros c Hc. apply in_map_iff in Hc as (c0 & <- & Hc0).
      rewrite addChildToNode_id. auto.
Qed.

Lemma updateNodeContent_addChildToNode parentId c (added node : MindMapNode num) :
  ~ In (id added) (ids node) ->
  updateNodeContent (id added) c (addChildToNode parentId added node)
  = addChildToNode parentId (withContent added c) node.
Proof.
  induction node as [node IH] using MindMapNode_tree_ind. intros Hfresh.
  apply not_in_ids_children in Hfresh as [Hid Hkids].
  apply String.eqb_neq in Hid.
  rewrite !(addChildToNode_eq parentId _ node). destruct (id node =? parentId).
  - rewrite updateNodeContent_eq. cbn [id children withChildren]. rewrite Hid.
    rewrite withChildren_withChildren, map_app. cbn [map].
    rewrite (updateNodeContent_eq _ _ added), String.eqb_refl.
    rewrite map_id_in; [reflexivity|].
    apply Forall_forall. intros child Hc. apply updateNodeContent_absent.
    rewrite Forall_forall in Hkids. auto.
  - rewrite updateNodeContent_eq. cbn [id children withChildren]. rewrite Hid.
    rewrite withChildren_withChildren, map_map. f_equal.
    apply map_ext_in. intros child Hc. rewrite Forall_forall in *. auto.
Qed.

(** *** Renaming to the content a node already has *)

Lemma updateNodeContent_same_content eid c (node : MindMapNode num) :
  (forall path n, subtreeAt path node = Some n -> id n = eid -> content n = c) ->
  updateNodeContent eid c node = node.
Proof.
  induction node as [node IH] using MindMapNode_tree_ind. intros Hsame.
  rewrite updateNodeContent_eq. destruct (id node =? eid) eqn:Hid.
  - apply String.eqb_eq in Hid. rewrite <- (Hsame [] node eq_refl Hid).
    now destruct node.
  - rewrite map_id_in; [apply withChildren_same|].
    apply Forall_forall. intros child Hc. rewrite Forall_forall in IH.
    apply IH; [exact Hc|]. intros path n Hn Hidn.
    apply In_nth_error in Hc as [i Hi].
    apply (Hsame (i :: path) n); [|exact Hidn]. simpl. now rewrite Hi.
Qed.

Lemma NoDup_flat_map_nth {A B} (f : A -> list B) (l : list A) i j a b y :
  NoDup (flat_map f l) ->
  nth_error l i = Some a -> nth_error l j = Some b ->
  In y (f a) -> In y (f b) -> i = j.
Proof.
  revert i j. induction l as [|c l IH]; intros i j Hnd Hi Hj Ha Hb.
  - destruct i; discriminate.
  - simpl in Hnd. destruct i as [|i], j as [|j]; simpl in Hi, Hj.
    + reflexivity.
    + injection Hi as ->. exfalso.
      apply (NoDup_app_disjoint _ _ y Hnd Ha).
      apply in_flat_map. exists b. split; [eapply nth_error_In; eauto | exact Hb].
    + injection Hj as ->. exfalso.
      apply (NoDup_app_disjoint _ _ y Hnd Hb).
      apply in_flat_map. exists a. split; [eapply nth_error_In; eauto | exact Ha].
    + f_equal. apply IH; auto. eapply NoDup_app_remove_l; eauto.
Qed.

(** With pairwise distinct identifiers, an identifier names one node. *)
Lemma subtreeAt_unique p1 :
  forall p2 (node n1 n2 : MindMapNode num),
    NoDup (ids node) ->
    subtreeAt p1 node = Some n1 -> subtreeAt p2 node = Some n2 ->
    id n1 = id n2 -> p1 = p2 /\ n1 = n2.
Proof.
  induction p1 as [|i p1 IH]; intros p2 node n1 n2 Hnd H1 H2 Hid.
  - simpl in H1. injection H1 as <-. destruct p2 as [|j p2].
    + simpl in H2. injection H2 as <-. auto.
    + exfalso. simpl in H2.
      destruct (nth_error (children node) j) as [c|] eqn:Hc; [|discriminate].
      apply nth_error_In in Hc as Hin.
      destruct (NoDup_ids_child node c Hnd Hin) as [_ Hfresh].
      apply (Hfresh (id n2)); [|exact Hid]. eapply subtreeAt_In_ids; eauto.
  - simpl in H1.
    destruct (nth_error (children node) i) as [c1|] eqn:Hc1; [|discriminate].
    apply nth_error_In in Hc1 as Hin1.
    destruct (NoDup_ids_child node c1 Hnd Hin1) as [Hnd1 Hfresh1].
    destruct p2 as [|j p2].
    + exfalso. simpl in H2. injection H2 as <-.
      apply (Hfresh1 (id n1)); [|now symmetry]. eapply subtreeAt_In_ids; eauto.
    + simpl in H2.
      destruct (nth_error (children node) j) as [c2|] eqn:Hc2; [|discriminate].
      assert (Hij : i = j).
      { rewrite ids_eq in Hnd. inversion Hnd as [|? ? _ Hndk]; subst.
        apply (NoDup_flat_map_nth ids (children node) i j c1 c2 (id n1) Hndk Hc1 Hc2).
        - eapply subtreeAt_In_ids; eauto.
        - rewrite Hid. eapply subtreeAt_In_ids; eauto. }
      subst j. rewrite Hc1 in Hc2. injection Hc2 as <-.
      destruct (IH p2 c1 n1 n2 Hnd1 H1 H2 Hid) as [-> ->]. auto.
Qed.

End TreeCompose.

Section TreeDelete.
Context {num : Type}.

Lemma subtreeAt_incl path : forall (node n : MindMapNode num),
  subtreeAt path node = Some n -> incl (ids n) (ids node).
Proof.
  induction path as [|k path IH]; intros node n Hn; simpl in Hn.
  - injection Hn as <-. apply incl_refl.
  - destruct (nth_error (children node) k) as [c|] eqn:Hc; [|discriminate].
    intros i Hi. eapply in_ids_child; [eapply nth_error_In; eauto|].
    eapply IH; eauto.
Qed.

Lemma untouched_children d (l : list (MindMapNode num)) :
  ~ In d (flat_map ids l) ->
  filter (fun child => negb (id child =? d)) l = l /\
  map (removeNodeFromTree d) l = l.
Proof.
  intros Hout.
  assert (Hall : forall c, In c l -> ~ In d (ids c)).
  { intros c Hc Hin. apply Hout. apply in_flat_map. eauto. }
  split.
  - apply filter_keep_all. intros c Hc. apply negb_true_iff, String.eqb_neq.
    intros Heq. apply (Hall c Hc). rewrite <- Heq, ids_eq. now left.
  - apply map_id_in, Forall_forall. intros c Hc.
    apply removeNodeFromTree_absent.
    apply (not_in_ids_children d c). auto.
Qed.

Lemma NoDup_ids_split (node c : MindMapNode num) l1 l2 :
  children node = l1 ++ c :: l2 -> NoDup (ids node) ->
  forall i, In i (ids c) ->
    id node <> i /\ ~ In i (flat_map ids l1) /\ ~ In i (flat_map ids l2).
Proof.
  intros Hsplit Hnd i Hi. rewrite ids_eq, Hsplit, flat_map_app in Hnd.
  cbn [flat_map] in Hnd. inversion Hnd as [|? ? Hroot Hrest]; subst.
  split; [|split].
  - intros Heq. apply Hroot. rewrite Heq. apply in_or_app. right.
    apply in_or_app. now left.
  - intros Hin. apply (NoDup_app_disjoint _ _ i Hrest Hin).
    apply in_or_app. now left.
  - apply NoDup_app_remove_l in Hrest.
    exact (NoDup_app_disjoint _ _ i Hrest Hi).
Qed.

Lemma list_sum_map_split {A} (f : A -> nat) l1 (c : A) l2 :
  list_sum (map f (l1 ++ c :: l2))
  = (list_sum (map f l1) + f c + list_sum (map f l2))%nat.
Proof. rewrite map_app, list_sum_app. simpl. lia. Qed.

(** Deleting the node at a path below the root, identifiers pairwise
    distinct: what remains is the tree without that node's subtree. *)
Lemma removeNodeFromTree_subtree path :
  forall (node n : MindMapNode num),
    path <> [] -> NoDup (ids node) -> subtreeAt path node = Some n ->
    (forall i, In i (ids (removeNodeFromTree (id n) node))
               <-> In i (ids node) /\ ~ In i (ids n)) /\
    (countNodes (removeNodeFromTree (id n) node) + countNodes n
     = countNodes node)%nat.
Proof.
  induction path as [|k path IH]; [congruence|].
  intros node n _ Hnd Hsub. simpl in Hsub.
  destruct (nth_error (children node) k) as [c|] eqn:Hc; [|discriminate].
  apply nth_error_split in Hc as Hsplit. destruct Hsplit as (l1 & l2 & Hsplit & _).
  pose proof (subtreeAt_incl path c n Hsub) as Hincl.
  pose proof (subtreeAt_In_ids path c n Hsub) as Hd.
  pose proof (NoDup_ids_split node c l1 l2 Hsplit Hnd) as Hdisj.
  destruct (Hdisj (id n) Hd) as (Hroot & Hl1 & Hl2).
  destruct (untouched_children (id n) l1 Hl1) as [Hf1 Hm1].
  destruct (untouched_children (id n) l2 Hl2) as [Hf2 Hm2].
  assert (Hndc : NoDup (ids c)).
  { apply (NoDup_ids_child node c Hnd). rewrite Hsplit. apply in_or_app.
    right. now left. }
  rewrite removeNodeFromTree_eq, (ids_eq (withChildren _ _)), (ids_eq node),
    (countNodes_eq (withChildren _ _)), (countNodes_eq node).
  cbn [id children withChildren]. rewrite Hsplit, filter_app. cbn [filter].
  rewrite Hf1, Hf2.
  destruct path as [|k' path'].
  - simpl in Hsub. injection Hsub as <-. rewrite String.eqb_refl. cbn [negb].
    rewrite map_app, Hm1, Hm2. split.
    + intros i. rewrite !flat_map_app. cbn [flat_map]. simpl In.
      rewrite !in_app_iff. specialize (Hdisj i). tauto.
    + rewrite list_sum_map_split, map_app, list_sum_app. lia.
  - assert (Hne : id c <> id n).
    { remember (k' :: path') as p eqn:Hp. destruct p as [|k0 p0]; [discriminate|].
      simpl in Hsub.
      destruct (nth_error (children c) k0) as [g|] eqn:Hg; [|discriminate].
      apply nth_error_In in Hg.
      apply (NoDup_ids_child c g Hndc Hg). eapply subtreeAt_In_ids; eauto. }
    apply String.eqb_neq in Hne. rewrite Hne. cbn [negb].
    rewrite map_app. cbn [map]. rewrite Hm1, Hm2.
    destruct (IH c n ltac:(discriminate) Hndc Hsub) as [IHin IHcount]. split.
    + intros i. rewrite !flat_map_app. cbn [flat_map]. simpl In.
      rewrite !in_app_iff, IHin. specialize (Hdisj i).
      pose proof (Hincl i). tauto.
    + rewrite !list_sum_map_split. lia.
Qed.

(** *** Distinct identifiers stay distinct when a node with an unused
    identifier is added *)

Lemma addChildToNode_children_fresh parentId (added : MindMapNode num) r cs :
  Forall (fun child =>
            NoDup (ids child) -> ~ In r (ids child) ->
            (count_occ string_dec (ids (addChildToNode parentId added child)) r
             <= 1)%nat) cs ->
  NoDup (flat_map ids cs) -> ~ In r (flat_map ids cs) ->
  (count_occ string_dec
     (flat_map ids (map (addChildToNode parentId added) cs)) r <= 1)%nat.
Proof.
  induction 1 as [|child rest Hchild _ IH]; simpl; [lia|].
  intros Hnd Hout. rewrite count_occ_app.
  assert (Hout_child : ~ In r (ids child))
    by (intros Hin; apply Hout, in_or_app; now left).
  assert (Hout_rest : ~ In r (flat_map ids rest))
    by (intros Hin; apply Hout, in_or_app; now right).
  destruct (in_dec string_dec parentId (ids child)) as [Hin|Hnin].
  - rewrite (map_id_in (addChildToNode parentId added) rest).
    + apply (count_occ_not_In string_dec) in Hout_rest. rewrite Hout_rest.
      specialize (Hchild (NoDup_app_remove_r _ _ Hnd) Hout_child). lia.
    + apply Forall_forall. intros other Ho. apply addChildToNode_absent.
      intros Hino. apply (NoDup_app_disjoint _ _ parentId Hnd Hin).
      apply in_flat_map. eauto.
  - rewrite (addChildToNode_absent parentId added child Hnin).
    apply (count_occ_not_In string_dec) in Hout_child. rewrite Hout_child.
    specialize (IH (NoDup_app_remove_l _ _ Hnd) Hout_rest). lia.
Qed.

Lemma addChildToNode_count_occ_fresh parentId (added node : MindMapNode num) r :
  ids added = [r] -> NoDup (ids node) -> ~ In r (ids node) ->
  (count_occ string_dec (ids (addChildToNode parentId added node)) r <= 1)%nat.
Proof.
  intros Hadded. induction node as [node IH] using MindMapNode_tree_ind.
  intros Hnd Hout. rewrite addChildToNode_eq.
  rewrite ids_eq in Hnd, Hout. inversion Hnd as [|? ? _ Hndk]; subst.
  assert (Hroot : id node <> r) by (intros Heq; apply Hout; now left).
  assert (Hkids : ~ In r (flat_map ids (children node)))
    by (intros Hin; apply Hout; now right).
  destruct (id node =? parentId).
  - rewrite ids_eq. cbn [id children withChildren count_occ].
    destruct (string_dec (id node) r) as [|_]; [contradiction|].
    rewrite flat_map_app, count_occ_app. cbn [flat_map]. rewrite app_nil_r, Hadded.
    apply (count_occ_not_In string_dec) in Hkids. rewrite Hkids. simpl.
    destruct (string_dec r r); [lia | contradiction].
  - rewrite ids_eq. cbn [id children withChildren count_occ].
    destruct (string_dec (id node) r) as [|_]; [contradiction|].
    now apply addChildToNode_children_fresh.
Qed.

Lemma addChildToNode_NoDup parentId (added node : MindMapNode num) r :
  ids added = [r] -> NoDup (ids node) -> ~ In r (ids node) ->
  NoDup (ids (addChildToNode parentId added node)).
Proof.
  intros Hadded Hnd Hout. apply (NoDup_count_occ string_dec). intros i.
  destruct (string_dec i r) as [->|Hne].
  - now apply addChildToNode_count_occ_fresh.
  - rewrite addChildToNode_count_occ.
    + now apply (NoDup_count_occ string_dec).
    + rewrite Hadded. simpl. destruct (string_dec r i); [congruence | reflexivity].
Qed.

Lemma removeNodeFromTree_NoDup d (node : MindMapNode num) :
  NoDup (ids node) -> NoDup (ids (removeNodeFromTree d node)).
Proof.
  intros Hnd. apply (NoDup_count_occ string_dec). intros i.
  pose proof (removeNodeFromTree_count_occ d node i).
  pose proof (proj1 (NoDup_count_occ string_dec (ids node)) Hnd i). lia.
Qed.

End TreeDelete.

(** ** The handlers in sequence *)

Section PageCompose.
Context {num : Type} `{JsNumber num}.

Lemma newNodeId_not_root (now : Z) : (("node-" ++ Z_toString now)%string =? "root") = false.
Proof. reflexivity. Qed.

Lemma newNodeId_not_empty (now : Z) :
  (("node-" ++ Z_toString now)%string =? EmptyString) = false.
Proof. reflexivity. Qed.

(** X1.  Deleting a node below the root of a tree with pairwise distinct
    identifiers removes that node together with its whole subtree and
    nothing else: the identifiers left are those of the tree that are not
    in the subtree, and the node counts add up. *)
Theorem deleteNode_removes_whole_subtree (s : PageState num) (path : list nat)
                                         (n : MindMapNode num) :
  path <> [] ->
  id (rootNode s) = "root" ->
  NoDup (ids (rootNode s)) ->
  subtreeAt path (rootNode s) = Some n ->
  (forall i, In i (ids (rootNode (deleteNode (id n) s)))
             <-> In i (ids (rootNode s)) /\ ~ In i (ids n)) /\
  (countNodes (rootNode (deleteNode (id n) s)) + countNodes n
   = countNodes (rootNode s))%nat.
Proof.
  intros Hpath Hroot Hnd Hsub.
  assert (Hne : (id n =? "root") = false).
  { apply String.eqb_neq. intros Heq. apply Hpath.
    destruct (subtreeAt_unique [] path (rootNode s) (rootNode s) n Hnd eq_refl Hsub)
      as [Hp _]; congruence. }
  rewrite rootNode_deleteNode, Hne.
  apply (removeNodeFromTree_subtree path); assumption.
Qed.

(** X2.  Adding a child and then deleting the added node gives back the
    tree, whenever the generated identifier was not in use. *)
Theorem addChild_then_delete_restores (s : PageState num) (now : Z) (pick : nat)
                                      (parentId : string) :
  ~ In ("node-" ++ Z_toString now)%string (ids (rootNode s)) ->
  rootNode (deleteNode ("node-" ++ Z_toString now)
                       (addChildNode now pick parentId s)) = rootNode s.
Proof.
  intros Hfresh. rewrite rootNode_deleteNode, newNodeId_not_root.
  rewrite rootNode_addChildNode.
  exact (removeNodeFromTree_addChildToNode parentId (newNode now pick)
           (rootNode s) Hfresh).
Qed.

(** X3.  Pairwise distinct identifiers are kept by every handler, as long
    as each identifier generated by [addChildNode] is not already in the
    tree. *)
Theorem ids_stay_distinct (a : Action num) (s : PageState num) :
  NoDup (ids (rootNode s)) ->
  (forall now pick parentId,
      a = AddChild now pick parentId ->
      ~ In ("node-" ++ Z_toString now)%string (ids (rootNode s))) ->
  NoDup (ids (rootNode (step a s))).
Proof.
  intros Hnd Hfresh.
  destruct a as [now pick parentId | nodeId | node | v | | canvas | ]; simpl.
  - apply (addChildToNode_NoDup parentId (newNode now pick) (rootNode s)
             ("node-" ++ Z_toString now)%string); [reflexivity | exact Hnd |].
    now apply (Hfresh now pick parentId).
  - rewrite rootNode_deleteNode. destruct (nodeId =? "root"); [exact Hnd|].
    now apply removeNodeFromTree_NoDup.
  - exact Hnd.
  - exact Hnd.
  - rewrite rootNode_saveNodeEdit. destruct (editingNodeId s) as [eid|]; [|exact Hnd].
    destruct (eid =? ""); [exact Hnd|]. now rewrite updateNodeContent_ids.
  - destruct canvas as [[w h]|]; simpl; [|exact Hnd]. now rewrite layoutTree_ids.
  - repeat constructor. simpl. tauto.
Qed.

(** X4.  Opening a node of the tree for editing and saving without typing
    leaves the tree as it was (identifiers pairwise distinct). *)
Theorem edit_then_save_unchanged (s : PageState num) (path : list nat)
                                 (node : MindMapNode num) :
  NoDup (ids (rootNode s)) ->
  subtreeAt path (rootNode s) = Some node ->
  rootNode (saveNodeEdit (editNode node s)) = rootNode s.
Proof.
  intros Hnd Hsub. rewrite rootNode_saveNodeEdit. cbn [editNode editingNodeId
    editNodeContent rootNode].
  destruct (id node =? ""); [reflexivity|].
  apply updateNodeContent_same_content. intros p n Hn Hid.
  destruct (subtreeAt_unique p path (rootNode s) n node Hnd Hn Hsub Hid) as [_ ->].
  reflexivity.
Qed.

(** X5.  Adding a child, typing a content and saving the edit that
    [addChildNode] opened is adding a child with that content: when the
    generated identifier was not in use the tree is the one obtained by
    appending the new node with the typed content under [parentId], and
    editing is over; with pairwise distinct identifiers and [parentId]
    present, that is one more node, last under the located parent. *)
Theorem addChild_then_rename (s : PageState num) (now : Z) (pick : nat)
                             (parentId typed : string) :
  ~ In ("node-" ++ Z_toString now)%string (ids (rootNode s)) ->
  let s' := saveNodeEdit (setEditNodeContent typed
                            (addChildNode now pick parentId s)) in
  rootNode s' = addChildToNode parentId (withContent (newNode now pick) typed)
                               (rootNode s) /\
  editingNodeId s' = None /\
  (NoDup (ids (rootNode s)) -> In parentId (ids (rootNode s)) ->
   countNodes (rootNode s') = S (countNodes (rootNode s)) /\
   appendedUnder parentId (withContent (newNode now pick) typed)
                 (rootNode s) (rootNode s')).
Proof.
  intros Hfresh s'.
  assert (Hroot : rootNode s' = addChildToNode parentId
                    (withContent (newNode now pick) typed) (rootNode s)).
  { unfold s'. rewrite rootNode_saveNodeEdit.
    cbn [setEditNodeContent addChildNode toast editingNodeId editNodeContent rootNode].
    rewrite newNodeId_not_empty.
    exact (updateNodeContent_addChildToNode parentId typed (newNode now pick)
             (rootNode s) Hfresh). }
  split; [exact Hroot|]. split; [reflexivity|].
  intros Hnd Hin. rewrite Hroot. split.
  - rewrite addChildToNode_count by assumption. simpl. lia.
  - now apply addChildToNode_located.
Qed.

(** X6.  Deleting an identifier that no node carries leaves the tree as it
    was; deleting the same identifier a second time changes nothing more;
    and a deletion never adds or renames a node: the identifiers left are
    among those of the tree, and there are no more nodes than before. *)
Theorem deleteNode_absent_or_repeated (s : PageState num) (nodeId : string) :
  (~ In nodeId (ids (rootNode s)) -> rootNode (deleteNode nodeId s) = rootNode s) /\
  rootNode (deleteNode nodeId (deleteNode nodeId s)) = rootNode (deleteNode nodeId s) /\
  incl (ids (rootNode (deleteNode nodeId s))) (ids (rootNode s)) /\
  (countNodes (rootNode (deleteNode nodeId s)) <= countNodes (rootNode s))%nat.
Proof.
  rewrite !rootNode_deleteNode. destruct (nodeId =? "root").
  - repeat split; auto using incl_refl.
  - split; [|split; [|split]].
    + intros Habs. apply removeNodeFromTree_absent.
      apply (not_in_ids_children nodeId (rootNode s) Habs).
    + apply removeNodeFromTree_idempotent.
    + apply removeNodeFromTree_incl.
    + apply removeNodeFromTree_countNodes.
Qed.

End PageCompose.

Lemma deleteNode_removes_whole_subtree_witness :
  (forall i, In i (ids (rootNode (deleteNode "node-1" (initialState sampleTree))))
             <-> In i (ids sampleTree) /\ ~ In i ["node-1"; "node-3"]) /\
  (countNodes (rootNode (deleteNode "node-1" (initialState sampleTree))) + 2
   = countNodes sampleTree)%nat.
Proof.
  exact (deleteNode_removes_whole_subtree (initialState sampleTree) [0%nat]
           (mkNode "node-1" "Plan"
              [mkNode "node-3" "Budget" [] None None (Some "#F2FCE2")]
              None None (Some "#FFDEE2"))
           ltac:(discriminate) eq_refl sampleTree_NoDup eq_refl).
Defined.

Lemma sampleTree_fresh_id :
  ~ In ("node-" ++ Z_toString 1700000000000)%string (ids sampleTree).
Proof.
  simpl. intros Hin.
  repeat (destruct Hin as [Hin|Hin]; [discriminate Hin|]). exact Hin.
Qed.

Lemma addChild_then_delete_restores_witness :
  rootNode (deleteNode ("node-" ++ Z_toString 1700000000000)
              (addChildNode 1700000000000 1 "node-2" (initialState sampleTree)))
  = sampleTree.
Proof.
  exact (addChild_then_delete_restores (initialState sampleTree) 1700000000000 1
           "node-2" sampleTree_fresh_id).
Defined.

Lemma ids_stay_distinct_witness :
  NoDup (ids (rootNode (step (AddChild 1700000000000 1 "node-2")
                             (initialState sampleTree)))).
Proof.
  apply ids_stay_distinct.
  - exact sampleTree_NoDup.
  - intros now pick parentId Heq. injection Heq as <- _ _.
    exact sampleTree_fresh_id.
Defined.

Lemma edit_then_save_unchanged_witness :
  rootNode (saveNodeEdit
              (editNode (mkNode "node-2" "Build" [] None None (Some "#D3E4FD"))
                        (initialState sampleTree))) = sampleTree.
Proof.
  exact (edit_then_save_unchanged (initialState sampleTree) [1%nat] _
           sampleTree_NoDup eq_refl).
Defined.

Lemma addChild_then_rename_witness :
  rootNode (saveNodeEdit (setEditNodeContent "Test"
              (addChildNode 1700000000000 1 "node-2" (initialState sampleTree))))
  = addChildToNode "node-2" (withContent (newNode 1700000000000 1) "Test") sampleTree.
Proof.
  exact (proj1 (addChild_then_rename (initialState sampleTree) 1700000000000 1
                  "node-2" "Test" sampleTree_fresh_id)).
Defined.

Lemma deleteNode_absent_or_repeated_witness :
  rootNode (deleteNode "node-9" (initialState sampleTree)) = sampleTree.
Proof.
  apply (proj1 (deleteNode_absent_or_repeated (initialState sampleTree) "node-9")).
  simpl. intros Hin.
  repeat (destruct Hin as [Hin|Hin]; [discriminate Hin|]). exact Hin.
Defined.

(* ================================================================= *)
(** * Part IV: the tasks page, the stored and exported text, the view *)
(* ================================================================= *)

(** ** The handlers of the tasks page *)

Section TasksFacts.
Import TasksPage.

Lemma tasks_toggleTaskCompletion i s :
  tasks (toggleTaskCompletion i s) = map (toggled i) (tasks s).
Proof. reflexivity. Qed.

Lemma id_toggled i task : id (toggled i task) = id task.
Proof. unfold toggled. now destruct (id task =? i). Qed.

Lemma toggled_toggled i task : toggled i (toggled i task) = task.
Proof.
  unfold toggled. destruct (id task =? i) eqn:E; cbn [id]; rewrite E; [|reflexivity].
  destruct task as [a b c d]. cbn. now rewrite negb_involutive.
Qed.

Lemma toggled_other i task : id task <> i -> toggled i task = task.
Proof. intros Hne. unfold toggled. apply String.eqb_neq in Hne. now rewrite Hne. Qed.

Lemma map_toggled_absent i ts :
  ~ In i (map id ts) -> map (toggled i) ts = ts.
Proof.
  induction ts as [|a ts IH]; intros Hnot; [reflexivity|]. simpl in *.
  rewrite toggled_other, IH; auto.
Qed.

Lemma toggled_comm i j task :
  toggled i (toggled j task) = toggled j (toggled i task).
Proof.
  unfold toggled.
  destruct (id task =? i) eqn:Ei, (id task =? j) eqn:Ej; cbn [id title priority completed];
    rewrite ?Ei, ?Ej; reflexivity.
Qed.

Lemma filter_map_toggled i j ts :
  filter (fun task => negb (id task =? j)) (map (toggled i) ts)
  = map (toggled i) (filter (fun task => negb (id task =? j)) ts).
Proof.
  induction ts as [|a ts IH]; [reflexivity|]. simpl.
  rewrite id_toggled. destruct (id a =? j); simpl; now rewrite IH.
Qed.

Lemma filter_absent i ts :
  ~ In i (map id ts) -> filter (fun task => negb (id task =? i)) ts = ts.
Proof.
  induction ts as [|a ts IH]; intros Hnot; [reflexivity|]. simpl in *.
  assert (Hne : id a <> i) by tauto. apply String.eqb_neq in Hne.
  rewrite Hne. simpl. rewrite IH; tauto.
Qed.

Lemma filter_id_In i ts task :
  In task (filter (fun task => negb (id task =? i)) ts) <-> In task ts /\ id task <> i.
Proof.
  rewrite filter_In, negb_true_iff, String.eqb_neq. reflexivity.
Qed.

Lemma filter_id_length i ts :
  (List.length (filter (fun task => negb (id task =? i)%string) ts)
   + count_occ string_dec (map id ts) i = List.length ts)%nat.
Proof.
  induction ts as [|a ts IH]; [reflexivity|]. simpl.
  destruct (string_dec (id a) i) as [Heq|Hne].
  - apply String.eqb_eq in Heq. rewrite Heq. simpl. lia.
  - apply String.eqb_neq in Hne. rewrite Hne. simpl. lia.
Qed.

Lemma filter_id_split (task : Task) l1 l2 :
  NoDup (map id (l1 ++ task :: l2)) ->
  filter (fun t => negb (id t =? id task)) (l1 ++ task :: l2) = l1 ++ l2.
Proof.
  intros Hnd. rewrite map_app in Hnd. cbn [map] in Hnd.
  pose proof (NoDup_remove_2 _ _ _ Hnd) as Hnot.
  rewrite filter_app. cbn [filter]. rewrite String.eqb_refl. cbn [negb].
  rewrite !filter_absent; [reflexivity | |]; intros Hin; apply Hnot, in_or_app; auto.
Qed.

Lemma completed_count_toggled (task : Task) ts :
  NoDup (map id ts) -> In task ts ->
  (List.length (filter completed (map (toggled (id task)) ts))
   + (if completed task then 1 else 0)
   = List.length (filter completed ts) + (if completed task then 0 else 1))%nat.
Proof.
  induction ts as [|a ts IH]; intros Hnd Hin; [contradiction|].
  cbn [map] in Hnd. inversion Hnd as [|? ? Hnot Hnd']; subst.
  destruct Hin as [-> | Hin].
  - cbn [map filter]. rewrite map_toggled_absent by exact Hnot.
    unfold toggled. rewrite String.eqb_refl. cbn [completed].
    destruct (completed task); simpl; lia.
  - assert (Hne : id a <> id task).
    { intros Heq. apply Hnot. rewrite Heq. now apply in_map. }
    cbn [map filter]. rewrite (toggled_other _ _ Hne).
    specialize (IH Hnd' Hin). destruct (completed a); simpl; lia.
Qed.

(** X7.  Toggling a task twice gives back the state; a toggle keeps every
    task's identifier, title and priority, and the position of every task;
    it changes nothing under an identifier no task carries, and raises no
    toast. *)
Theorem toggleTaskCompletion_involutive (i : string) (s : State) :
  toggleTaskCompletion i (toggleTaskCompletion i s) = s /\
  map (fun t => (id t, title t, priority t)) (tasks (toggleTaskCompletion i s))
  = map (fun t => (id t, title t, priority t)) (tasks s) /\
  (forall n t, nth_error (tasks s) n = Some t -> id t <> i ->
     nth_error (tasks (toggleTaskCompletion i s)) n = Some t) /\
  (~ In i (map id (tasks s)) -> toggleTaskCompletion i s = s) /\
  toasts (toggleTaskCompletion i s) = toasts s.
Proof.
  destruct s as [ts t p to]. unfold toggleTaskCompletion. cbn [tasks newTaskTitle newTaskPriority toasts].
  fold (toggled i). repeat split.
  - f_equal. rewrite map_map. rewrite <- (map_id ts) at 2.
    apply map_ext. intros a. apply toggled_toggled.
  - rewrite map_map. apply map_ext. intros a. unfold toggled.
    now destruct (id a =? i).
  - intros n a Hn Hne. rewrite nth_error_map, Hn. cbn. now rewrite toggled_other.
  - intros Hnot. now rewrite map_toggled_absent.
Qed.

(** X8.  When the tasks carry distinct identifiers, toggling a task of the
    list moves the number of completed tasks by exactly one: down when the
    task was completed, up when it was not; the number of tasks stays. *)
Theorem toggleTaskCompletion_completed_count (s : State) (task : Task) :
  NoDup (map id (tasks s)) -> In task (tasks s) ->
  (completedTasks (toggleTaskCompletion (id task) s) + (if completed task then 1 else 0)
   = completedTasks s + (if completed task then 0 else 1))%nat /\
  List.length (tasks (toggleTaskCompletion (id task) s)) = List.length (tasks s).
Proof.
  intros Hnd Hin. unfold completedTasks. rewrite tasks_toggleTaskCompletion. split.
  - now apply completed_count_toggled.
  - apply length_map.
Qed.

(** X9.  [deleteTask] keeps exactly the tasks that carry another
    identifier; an identifier no task carries leaves the list as it is,
    and so does a second deletion; the list shrinks by the number of tasks
    that carried the identifier; with distinct identifiers the task is cut
    out of its place and the tasks around it keep their order. *)
Theorem deleteTask_removes (i : string) (s : State) :
  (forall t, In t (tasks (deleteTask i s)) <-> In t (tasks s) /\ id t <> i) /\
  (~ In i (map id (tasks s)) -> tasks (deleteTask i s) = tasks s) /\
  tasks (deleteTask i (deleteTask i s)) = tasks (deleteTask i s) /\
  (List.length (tasks (deleteTask i s)) + count_occ string_dec (map id (tasks s)) i
   = List.length (tasks s))%nat /\
  (forall task l1 l2,
     NoDup (map id (tasks s)) -> tasks s = l1 ++ task :: l2 -> id task = i ->
     tasks (deleteTask i s) = l1 ++ l2).
Proof.
  unfold deleteTask. cbn [tasks].
  split; [|split; [|split; [|split]]].
  - intros t. apply filter_id_In.
  - apply filter_absent.
  - apply filter_absent. rewrite in_map_iff. intros (t & Ht & Hin).
    apply filter_id_In in Hin. tauto.
  - apply filter_id_length.
  - intros task l1 l2 Hnd Hts <-. rewrite Hts in *. now apply filter_id_split.
Qed.

(** X10.  The handlers commute: a toggle and a deletion, two toggles and
    two deletions give the same state in either order, for any
    identifiers. *)
Theorem task_handlers_commute (i j : string) (s : State) :
  toggleTaskCompletion i (deleteTask j s) = deleteTask j (toggleTaskCompletion i s) /\
  toggleTaskCompletion i (toggleTaskCompletion j s)
  = toggleTaskCompletion j (toggleTaskCompletion i s) /\
  deleteTask i (deleteTask j s) = deleteTask j (deleteTask i s).
Proof.
  unfold toggleTaskCompletion, deleteTask. cbn [tasks newTaskTitle newTaskPriority toasts].
  fold (toggled i) (toggled j). repeat split; f_equal.
  - symmetry. apply filter_map_toggled.
  - rewrite !map_map. apply map_ext. intros a. apply toggled_comm.
  - generalize (tasks s) as ts. induction ts as [|a ts IH]; [reflexivity|]. simpl.
    destruct (id a =? j) eqn:Ej, (id a =? i) eqn:Ei; simpl; rewrite ?Ei, ?Ej; simpl;
      now rewrite IH.
Qed.

Lemma isBlank_visible (c : ascii) (s2 : string) (n : nat) :
  (32 < N_of_ascii c)%N -> (N_of_ascii c < 127)%N ->
  forall s1, (String.length s1 < n)%nat -> isBlank (s1 ++ String c s2) = false.
Proof.
  intros Hlo Hhi. 
  assert (Hc : forall r, isBlank (String c r) = false).
  { intros r. cbn [isBlank].
    assert (E1 : ((9 <=? N_of_ascii c) && (N_of_ascii c <=? 13) || (N_of_ascii c =? 32))%N = false).
    { apply orb_false_iff. split; [apply andb_false_iff; right; apply N.leb_gt; lia
                                   | apply N.eqb_neq; lia]. }
    rewrite E1.
    assert (E194 : (N_of_ascii c =? 194)%N = false) by (apply N.eqb_neq; lia).
    assert (E225 : (N_of_ascii c =? 225)%N = false) by (apply N.eqb_neq; lia).
    assert (E226 : (N_of_ascii c =? 226)%N = false) by (apply N.eqb_neq; lia).
    assert (E227 : (N_of_ascii c =? 227)%N = false) by (apply N.eqb_neq; lia).
    assert (E239 : (N_of_ascii c =? 239)%N = false) by (apply N.eqb_neq; lia).
    destruct r as [|c1 [|c2 r2]]; [reflexivity | |]; rewrite ?E194, ?E225, ?E226, ?E227, ?E239;
      reflexivity. }
  assert (Hn1 : forall x y, (N_of_ascii c =? x)%N = true -> (y <=? x)%N = true ->
                            (128 <=? y)%N = true -> False).
  { intros x y Hx Hy H128. apply N.eqb_eq in Hx. apply N.leb_le in Hy, H128. lia. }
  induction n as [|n IH]; intros s1 Hlen; [lia|].
  destruct s1 as [|a s1]; [apply Hc|].
  cbn [append isBlank].
  destruct ((9 <=? N_of_ascii a) && (N_of_ascii a <=? 13) || (N_of_ascii a =? 32))%N.
  { apply IH. simpl in Hlen. lia. }
  destruct s1 as [|a1 s1].
  { cbn [append].
    assert (E160 : (N_of_ascii c =? 160)%N = false) by (apply N.eqb_neq; lia).
    rewrite E160, andb_false_r.
    assert (E154 : (N_of_ascii c =? 154)%N = false) by (apply N.eqb_neq; lia).
    assert (E128 : (N_of_ascii c =? 128)%N = false) by (apply N.eqb_neq; lia).
    assert (E129 : (N_of_ascii c =? 129)%N = false) by (apply N.eqb_neq; lia).
    assert (E187 : (N_of_ascii c =? 187)%N = false) by (apply N.eqb_neq; lia).
    destruct s2 as [|c2 r2]; [reflexivity|].
    rewrite E154, E128, E129, E187, !andb_false_r. reflexivity. }
  cbn [append].
  destruct ((N_of_ascii a =? 194) && (N_of_ascii a1 =? 160))%N.
  { apply IH. simpl in Hlen. lia. }
  destruct s1 as [|a2 s1].
  { cbn [append].
    assert (E128 : (N_of_ascii c =? 128)%N = false) by (apply N.eqb_neq; lia).
    assert (E159 : (N_of_ascii c =? 159)%N = false) by (apply N.eqb_neq; lia).
    assert (E191 : (N_of_ascii c =? 191)%N = false) by (apply N.eqb_neq; lia).
    assert (E168 : (N_of_ascii c =? 168)%N = false) by (apply N.eqb_neq; lia).
    assert (E169 : (N_of_ascii c =? 169)%N = false) by (apply N.eqb_neq; lia).
    assert (E175 : (N_of_ascii c =? 175)%N = false) by (apply N.eqb_neq; lia).
    assert (Ege : (128 <=? N_of_ascii c)%N = false) by (apply N.leb_gt; lia).
    rewrite E128, E159, E191, E168, E169, E175, Ege. cbn [andb orb].
    rewrite !andb_false_r. reflexivity. }
  cbn [append].
  match goal with |- (if ?b then _ else _) = _ => destruct b end; [|reflexivity].
  apply IH. simpl in Hlen. lia.
Qed.

Lemma isBlank_spaces (s : string) :
  (forall c, In c (list_ascii_of_string s) ->
     (9 <= N_of_ascii c <= 13)%N \/ N_of_ascii c = 32%N) ->
  isBlank s = true.
Proof.
  induction s as [|c r IH]; intros Hall; [reflexivity|].
  cbn [isBlank].
  assert (E : ((9 <=? N_of_ascii c) && (N_of_ascii c <=? 13) || (N_of_ascii c =? 32))%N = true).
  { destruct (Hall c (or_introl eq_refl)) as [[Hlo Hhi] | Heq].
    - apply orb_true_iff. left. apply andb_true_iff. split; now apply N.leb_le.
    - apply orb_true_iff. right. now apply N.eqb_eq. }
  rewrite E. apply IH. intros c' Hc'. apply Hall. now right.
Qed.

(** X11.  [addTask] on a title with a visible ASCII character appends
    exactly one task, not completed, with the time as identifier, the
    priority chosen and the title as typed (not trimmed), and empties the
    input; on a title of spaces, tabs and line breaks only it leaves list
    and input as they are and raises the destructive toast.  In both cases
    the tasks already there stay in place. *)
Theorem addTask_title_check (now : Z) (s : State) :
  (forall s1 c s2,
     newTaskTitle s = (s1 ++ String c s2)%string ->
     (32 < N_of_ascii c)%N -> (N_of_ascii c < 127)%N ->
     tasks (addTask now s)
     = tasks s ++ [mkTask (Z_toString now) (newTaskTitle s) (newTaskPriority s) false] /\
     newTaskTitle (addTask now s) = "") /\
  ((forall c, In c (list_ascii_of_string (newTaskTitle s)) ->
      (9 <= N_of_ascii c <= 13)%N \/ N_of_ascii c = 32%N) ->
   tasks (addTask now s) = tasks s /\
   newTaskTitle (addTask now s) = newTaskTitle s /\
   toasts (addTask now s)
   = toasts s ++ [mkToast "Error" "Task title cannot be empty" (Some "destructive")]) /\
  firstn (List.length (tasks s)) (tasks (addTask now s)) = tasks s.
Proof.
  split; [|split].
  - intros s1 c s2 Htitle Hlo Hhi. unfold addTask. rewrite Htitle.
    now rewrite (isBlank_visible c s2 (S (String.length s1))); auto.
  - intros Hall. unfold addTask. now rewrite isBlank_spaces.
  - unfold addTask. destruct (isBlank (newTaskTitle s)); cbn [tasks].
    + apply firstn_all.
    + rewrite firstn_app, firstn_all, Nat.sub_diag. cbn. apply app_nil_r.
Qed.

(** X12.  A task added at a time whose identifier no task carries is
    removed again by deleting that identifier, which gives back the list;
    and adding it keeps the identifiers distinct. *)
Theorem addTask_then_deleteTask (now : Z) (s : State) :
  ~ In (Z_toString now) (map id (tasks s)) ->
  tasks (deleteTask (Z_toString now) (addTask now s)) = tasks s /\
  (NoDup (map id (tasks s)) -> NoDup (map id (tasks (addTask now s)))).
Proof.
  intros Hfresh. unfold deleteTask, addTask.
  destruct (isBlank (newTaskTitle s)); cbn [tasks]; split.
  - now apply filter_absent.
  - auto.
  - rewrite filter_app, filter_absent by exact Hfresh. cbn [filter id].
    rewrite String.eqb_refl. cbn. apply app_nil_r.
  - intros Hnd. rewrite map_app. cbn [map id].
    apply NoDup_app; [exact Hnd | constructor; [intros [] | constructor] |].
    intros i Hi [<- | []]. contradiction.
Qed.

End TasksFacts.

(** ** Writing to storage and reading back *)

Section StoredFacts.
Context {num : Type} `{JsNumber num} `{JsNumberText num}.

Lemma JSON_stringify_not_empty (space : nat) (v : JsValue num) :
  (JSON_stringify space v =? EmptyString) = false.
Proof.
  unfold JSON_stringify.
  destruct (printValue_head v (spaces (Nat.min 10 space)) EmptyString)
    as (c & r & -> & _).
  reflexivity.
Qed.

(** An initialiser handed the text the page wrote takes the branch of
    [JSON.parse] and returns. *)
Lemma parseSavedOr_stringify (fallback : JsValue num) (space : nat) (v : JsValue num) :
  wellFormed v = true ->
  parseSavedOr fallback (Some (JSON_stringify space v)) = Returned (revive v).
Proof.
  intros Hwf. unfold parseSavedOr.
  now rewrite JSON_stringify_not_empty, JSON_parse_stringify.
Qed.

Lemma priorityOfName_priorityName (p : TasksPage.Priority) :
  TasksPage.priorityOfName (TasksPage.priorityName p) = Some p.
Proof. now destruct p. Qed.

Lemma taskOfValue_valueOfTask (t : TasksPage.Task) :
  TasksPage.taskOfValue (TasksPage.valueOfTask (num:=num) t) = Some t.
Proof. destruct t as [i ttl [| |] b]; reflexivity. Qed.

Lemma wellFormed_valueOfTasks (ts : list TasksPage.Task) :
  wellFormed (TasksPage.valueOfTasks (num:=num) ts) = true.
Proof.
  unfold TasksPage.valueOfTasks. cbn [wellFormed].
  apply forallb_forall. intros v Hv. apply in_map_iff in Hv as (t & <- & _).
  reflexivity.
Qed.

Lemma revive_valueOfTasks (ts : list TasksPage.Task) :
  revive (TasksPage.valueOfTasks (num:=num) ts) = TasksPage.valueOfTasks ts.
Proof.
  unfold TasksPage.valueOfTasks. cbn [revive]. f_equal. rewrite map_map.
  apply map_ext. intros t. reflexivity.
Qed.

(** X13.  The tasks page reads back what it wrote: the initialiser, given
    the text that the effect stored for a list of tasks, returns the very
    array of task objects that was printed, whatever the titles and
    identifiers contain; that array reads as the list of tasks. *)
Theorem tasks_saved_and_reloaded (ts : list TasksPage.Task) :
  initialTasks (Some (TasksPage.persistTasks (num:=num) ts))
  = Returned (TasksPage.valueOfTasks ts) /\
  TasksPage.tasksOfValue (TasksPage.valueOfTasks (num:=num) ts) = Some ts.
Proof.
  split.
  - unfold initialTasks, TasksPage.persistTasks.
    rewrite parseSavedOr_stringify by apply wellFormed_valueOfTasks.
    now rewrite revive_valueOfTasks.
  - unfold TasksPage.tasksOfValue, TasksPage.valueOfTasks.
    apply traverse_map. apply Forall_forall. intros t _.
    apply taskOfValue_valueOfTask.
Qed.

(** X14.  The mind-map page reads back what it wrote: the initialiser,
    given the text that the effect stored for the object of a tree, returns
    (it neither throws nor falls back to the default) an object that reads
    as the same tree up to positions, and laying that tree out gives the
    very layout of the tree that was saved. *)
Theorem mindmap_saved_and_reloaded (v : JsValue num) (t : MindMapNode num) :
  wellFormed v = true -> nodeOfValue v = Some t ->
  initialRootNode (Some (persistMindMap v)) = Returned (revive v) /\
  exists t',
    nodeOfValue (revive v) = Some t' /\
    erasePositions t' = erasePositions t /\
    forall w h, layoutTree w h t' = layoutTree w h t.
Proof.
  intros Hwf Hv. split.
  - unfold initialRootNode, persistMindMap. now apply parseSavedOr_stringify.
  - destruct (proj1 (nodeOfValue_revive v) t Hv) as (t' & Ht' & Herase).
    exists t'. repeat split; auto. intros w h. now apply layoutTree_shape.
Qed.

End StoredFacts.

(** ** The exported link *)

Lemma percentDecode_encoded_byte (c : ascii) (r : string) :
  percentDecode
    ((if uriUnreserved c then String c EmptyString else percentEncodeByte c) ++ r)
  = String c (percentDecode r).
Proof. each_ascii c; reflexivity. Qed.

Lemma percentDecode_encodeURIComponent (s : string) :
  percentDecode (encodeURIComponent s) = s.
Proof.
  induction s as [|c r IH]; [reflexivity|]. cbn [encodeURIComponent].
  now rewrite percentDecode_encoded_byte, IH.
Qed.

Lemma forallChars_app p (a b : string) :
  forallChars p (a ++ b) = forallChars p a && forallChars p b.
Proof.
  induction a as [|c a IH]; [reflexivity|]. cbn [append forallChars].
  now rewrite IH, andb_assoc.
Qed.

Lemma urlPlain_encoded_byte (c : ascii) :
  forallChars urlPlain
    (if uriUnreserved c then String c EmptyString else percentEncodeByte c) = true.
Proof. each_ascii c; reflexivity. Qed.

Lemma urlPlain_encodeURIComponent (s : string) :
  forallChars urlPlain (encodeURIComponent s) = true.
Proof.
  induction s as [|c r IH]; [reflexivity|]. cbn [encodeURIComponent].
  now rewrite forallChars_app, urlPlain_encoded_byte, IH.
Qed.

Lemma beforeFragment_plain (s : string) :
  forallChars urlPlain s = true -> beforeFragment s = s.
Proof.
  induction s as [|c r IH]; [reflexivity|]. cbn [forallChars beforeFragment].
  intros [Hc Hr]%andb_true_iff. rewrite (IH Hr).
  destruct (c =? "#")%char eqn:E; [|reflexivity].
  apply Ascii.eqb_eq in E. subst c. discriminate Hc.
Qed.

Section ExportFacts.
Context {num : Type} `{JsNumber num} `{JsNumberText num}.

(** X15.  The link that [exportMindMap] clicks carries the pretty-printed
    text intact: [encodeURIComponent] is undone by percent-decoding on
    every text; the link is made of printable ASCII without number sign or
    question mark, so that no content of a node cuts it short; its body,
    read as the platform reads a data link, is the text of
    [JSON.stringify(rootNode, null, 2)], which parses to an object that
    reads as the exported tree up to positions. *)
Theorem exportDataUri_carries_text (v : JsValue num) (t : MindMapNode num) :
  wellFormed v = true -> nodeOfValue v = Some t ->
  (forall text, percentDecode (encodeURIComponent text) = text) /\
  forallChars urlPlain (exportDataUri v) = true /\
  dataUrlBody (exportDataUri v) = Some (exportMindMap v) /\
  exists body v' t',
    dataUrlBody (exportDataUri v) = Some body /\
    JSON_parse body = Some v' /\ nodeOfValue v' = Some t' /\
    erasePositions t' = erasePositions t.
Proof.
  intros Hwf Hv.
  assert (Hplain : forallChars urlPlain (exportDataUri v) = true).
  { unfold exportDataUri. rewrite forallChars_app, urlPlain_encodeURIComponent.
    reflexivity. }
  assert (Hbody : dataUrlBody (exportDataUri v) = Some (exportMindMap v)).
  { unfold dataUrlBody. rewrite (beforeFragment_plain _ Hplain).
    unfold exportDataUri. cbn [append stripPrefix]. cbn.
    now rewrite percentDecode_encodeURIComponent. }
  split; [exact percentDecode_encodeURIComponent|].
  split; [exact Hplain|]. split; [exact Hbody|].
  destruct (proj1 (nodeOfValue_revive v) t Hv) as (t' & Ht' & Herase).
  exists (exportMindMap v), (revive v), t'. split; [exact Hbody|].
  split; [now apply JSON_parse_stringify | auto].
Qed.

End ExportFacts.

(** ** Zoom and panning *)

Section ViewFacts.
Import View.
Local Open Scope R_scope.

Lemma last_cons {A} (a : A) (l : list A) (d : A) : last (a :: l) d = last l a.
Proof.
  revert a d. induction l as [|b l IH]; intros a d; [reflexivity|].
  change (last (a :: b :: l) d) with (last (b :: l) d). now rewrite !IH.
Qed.

Lemma viewStep_zoom_floor (ev : ViewEvent) (v : ViewState) :
  0.5 <= zoom v -> 0.5 <= zoom (viewStep v ev).
Proof.
  intros Hv. destruct ev; cbn [viewStep zoomIn zoomOut startPanning endPanning resetView zoom];
    try exact Hv.
  - lra.
  - apply Rmax_l.
  - unfold doPanning. destruct (negb (isPanning v)); exact Hv.
  - lra.
Qed.

Lemma panning_follows (moves : list (R * R)) : forall v : ViewState,
  isPanning v = true ->
  let v' := runView (map MouseMove moves) v in
  fst (offset v') = fst (offset v) + (fst (last moves (panStart v)) - fst (panStart v)) /\
  snd (offset v') = snd (offset v) + (snd (last moves (panStart v)) - snd (panStart v)) /\
  panStart v' = last moves (panStart v) /\
  zoom v' = zoom v /\ isPanning v' = true.
Proof.
  induction moves as [|e moves IH]; intros v Hpan.
  - cbn. repeat split; auto; lra.
  - cbn zeta. cbn [map runView fold_left viewStep].
    change (fold_left viewStep (map MouseMove moves) (doPanning e v))
      with (runView (map MouseMove moves) (doPanning e v)).
    assert (Hstep : doPanning e v
                    = mkView (zoom v)
                        (fst (offset v) + (fst e - fst (panStart v)),
                         snd (offset v) + (snd e - snd (panStart v)))
                        true e).
    { unfold doPanning. now rewrite Hpan. }
    rewrite Hstep.
    specialize (IH (mkView (zoom v)
                        (fst (offset v) + (fst e - fst (panStart v)),
                         snd (offset v) + (snd e - snd (panStart v)))
                        true e) eq_refl).
    cbn zeta in IH. cbn [offset panStart zoom isPanning fst snd] in IH.
    destruct IH as (Hx & Hy & Hstart & Hzoom & Hp).
    rewrite last_cons. repeat split; auto; [rewrite Hx | rewrite Hy]; lra.
Qed.

Lemma not_panning_ignores (moves : list (R * R)) (v : ViewState) :
  isPanning v = false -> runView (map MouseMove moves) v = v.
Proof.
  intros Hpan. induction moves as [|e moves IH]; [reflexivity|].
  cbn [map runView fold_left viewStep]. unfold doPanning at 1. rewrite Hpan. exact IH.
Qed.

(** X16.  The zoom never drops below one half: whatever buttons are
    pressed and however the pointer moves, from the initial view or from
    any view at or above one half; [zoomOut] alone already lands at or
    above one half from any zoom. *)
Theorem zoom_never_below_half (events : list ViewEvent) (v : ViewState) :
  0.5 <= zoom v ->
  0.5 <= zoom (runView events v) /\
  0.5 <= zoom (runView events initialView) /\
  0.5 <= zoom (zoomOut (runView events v)).
Proof.
  assert (Hrun : forall evs w, 0.5 <= zoom w -> 0.5 <= zoom (runView evs w)).
  { induction evs as [|ev evs IH]; intros w Hw; [exact Hw|].
    cbn [runView fold_left]. apply IH. now apply viewStep_zoom_floor. }
  intros Hv. repeat split.
  - now apply Hrun.
  - apply Hrun. cbn. lra.
  - cbn [zoomOut zoom]. apply Rmax_l.
Qed.

(** X17.  A drag moves the canvas by the displacement of the pointer:
    after the button goes down at a point and the pointer moves through
    any number of points, the offset is the offset before the drag plus
    the last point minus the first, in each coordinate, and the zoom is
    untouched; once the button is up, or the pointer has left, moves
    change nothing. *)
Theorem drag_follows_pointer (v : ViewState) (e0 : R * R) (moves : list (R * R)) :
  let v' := runView (map MouseMove moves) (startPanning e0 v) in
  let e := last moves e0 in
  (fst (offset v') = fst (offset v) + (fst e - fst e0) /\
   snd (offset v') = snd (offset v) + (snd e - snd e0) /\
   zoom v' = zoom v) /\
  runView (map MouseMove moves) (endPanning v') = endPanning v' /\
  (isPanning v = false -> runView (map MouseMove moves) v = v).
Proof.
  cbn zeta.
  destruct (panning_follows moves (startPanning e0 v) eq_refl)
    as (Hx & Hy & _ & Hzoom & _).
  cbn zeta in Hx, Hy, Hzoom. cbn [startPanning offset panStart zoom] in Hx, Hy, Hzoom.
  repeat split; auto.
  - now apply not_panning_ignores.
  - apply not_panning_ignores.
Qed.

End ViewFacts.

(** ** The statements of this part at sample inputs *)

Lemma sampleState_NoDup : NoDup (map TasksPage.id (TasksPage.tasks TasksPage.sampleState)).
Proof.
  repeat constructor; simpl; intros Hin;
    repeat (destruct Hin as [Hin|Hin]; [discriminate Hin|]); exact Hin.
Qed.

Lemma sampleState_fresh_id :
  ~ In (Z_toString 1700000000005) (map TasksPage.id (TasksPage.tasks TasksPage.sampleState)).
Proof.
  vm_compute. intros Hin.
  repeat (destruct Hin as [Hin|Hin]; [discriminate Hin|]). exact Hin.
Qed.

(** Toggling the first task of the sample list leaves the second where
    it is. *)
Lemma toggleTaskCompletion_involutive_witness :
  nth_error (TasksPage.tasks
               (TasksPage.toggleTaskCompletion "1700000000000" TasksPage.sampleState)) 1
  = Some (TasksPage.mkTask "1700000000001" "Call Ana" TasksPage.medium true).
Proof.
  apply (proj1 (proj2 (proj2
           (toggleTaskCompletion_involutive "1700000000000" TasksPage.sampleState)))).
  - reflexivity.
  - discriminate.
Defined.

(** Undoing the completed task of the sample list takes the count of
    completed tasks from one to none. *)
Lemma toggleTaskCompletion_completed_count_witness :
  (TasksPage.completedTasks
     (TasksPage.toggleTaskCompletion "1700000000001" TasksPage.sampleState) + 1
   = TasksPage.completedTasks TasksPage.sampleState + 0)%nat.
Proof.
  apply (proj1 (toggleTaskCompletion_completed_count TasksPage.sampleState
                  (TasksPage.mkTask "1700000000001" "Call Ana" TasksPage.medium true)
                  sampleState_NoDup (or_intror (or_introl eq_refl)))).
Defined.

(** Deleting the second task of the sample list leaves the first and the
    third. *)
Lemma deleteTask_removes_witness :
  TasksPage.tasks (TasksPage.deleteTask "1700000000001" TasksPage.sampleState)
  = [ TasksPage.mkTask "1700000000000" "Write report" TasksPage.high false ]
    ++ [ TasksPage.mkTask "1700000000002" "Buy milk" TasksPage.low false ].
Proof.
  apply (proj2 (proj2 (proj2 (proj2
           (deleteTask_removes "1700000000001" TasksPage.sampleState))))
           (TasksPage.mkTask "1700000000001" "Call Ana" TasksPage.medium true)).
  - exact sampleState_NoDup.
  - reflexivity.
  - reflexivity.
Defined.

(** The title typed in the sample state starts with two spaces and is
    stored with them. *)
Lemma addTask_title_check_witness :
  TasksPage.tasks (TasksPage.addTask 1700000000005 TasksPage.sampleState)
  = TasksPage.tasks TasksPage.sampleState
    ++ [TasksPage.mkTask (Z_toString 1700000000005) "  Water plants" TasksPage.medium false]
  /\ TasksPage.newTaskTitle (TasksPage.addTask 1700000000005 TasksPage.sampleState) = "".
Proof.
  apply (proj1 (addTask_title_check 1700000000005 TasksPage.sampleState)
               "  " "W"%char "ater plants").
  - reflexivity.
  - reflexivity.
  - reflexivity.
Defined.

Lemma addTask_then_deleteTask_witness :
  TasksPage.tasks
    (TasksPage.deleteTask (Z_toString 1700000000005)
       (TasksPage.addTask 1700000000005 TasksPage.sampleState))
  = TasksPage.tasks TasksPage.sampleState.
Proof.
  apply (proj1 (addTask_then_deleteTask 1700000000005 TasksPage.sampleState
                  sampleState_fresh_id)).
Defined.

(** The stored tree, whose second child has a position that prints as
    [null], comes back from storage as a tree with the same layout. *)
Lemma mindmap_saved_and_reloaded_witness :
  initialRootNode (Some (persistMindMap (valueOfNode storedTree)))
  = Returned (revive (valueOfNode storedTree)) /\
  exists t',
    nodeOfValue (revive (valueOfNode storedTree)) = Some t' /\
    erasePositions t' = erasePositions storedTree /\
    forall w h, layoutTree w h t' = layoutTree w h storedTree.
Proof.
  apply (mindmap_saved_and_reloaded (valueOfNode storedTree) storedTree).
  - reflexivity.
  - reflexivity.
Defined.

Lemma exportDataUri_carries_text_witness :
  dataUrlBody (exportDataUri (valueOfNode storedTree))
  = Some (exportMindMap (valueOfNode storedTree)).
Proof.
  apply (proj1 (proj2 (proj2
           (exportDataUri_carries_text (valueOfNode storedTree) storedTree
              eq_refl eq_refl)))).
Defined.

(** Six presses of the zoom-out button from the initial view. *)
Lemma zoom_never_below_half_witness :
  (0.5 <= View.zoom
            (View.runView [View.ZoomOut; View.ZoomOut; View.ZoomOut;
                           View.ZoomOut; View.ZoomOut; View.ZoomOut]
                          View.initialView))%R.
Proof.
  apply (proj1 (zoom_never_below_half
                  [View.ZoomOut; View.ZoomOut; View.ZoomOut;
                   View.ZoomOut; View.ZoomOut; View.ZoomOut] View.initialView
                  ltac:(cbn; lra))).
Defined.

(** Moves over the canvas of the initial view, no button pressed. *)
Lemma drag_follows_pointer_witness :
  View.runView (map View.MouseMove [(15, 20); (30, 5)]%R) View.initialView
  = View.initialView.
Proof.
  apply (proj2 (proj2 (drag_follows_pointer View.initialView (10, 20)%R
                         [(15, 20); (30, 5)]%R))).
  reflexivity.
Defined.
